(** * dust3d mesh generator: a shallow embedding of [MeshGenerator]

    Part I embeds the functions of [dust3d/mesh/mesh_generator.cc] that
    the specification speaks about, and the functions around them,
    function by function, together with the notions used to state their
    properties; Part II proves the properties.  Conventions used
    throughout:

    - [size_t] vertex and face indices are [nat]: the code only compares
      them and computes [(i + 1) % size] with [i < size], so no
      wrap-around can occur; where it adds an offset to an index
      ([collectErroredParts], [collectIncombinableMesh]) the wrap-around
      at [2 ^ size_bits] is written out;
    - [std::set] / [std::unordered_set] used for membership are [gset];
      [std::map] whose iteration order is observable is a key-sorted
      association list, or a [gmap] visited through its entries sorted
      by key; other maps are [gmap];
    - a pointer that may be [nullptr] is an [option];
    - an access that is undefined behaviour or throws in C++ (a vector
      index out of range, [substr] past the end) makes the embedded
      function return [None]. *)

From Stdlib Require Import Ascii String.

From stdpp Require Import gmap strings list fin_maps sorting.

#[local] Set Warnings "-clear-no-such-hyp".

(** * Part I: the model *)

(** ** isWatertight *)
Module Watertight.

(** The directed half-edge leaving position [i] of [face]:
    [{face[i], face[(i + 1) % face.size()]}]. *)
Definition faceHalfEdge (face : list nat) (i : nat) : nat * nat :=
  (nth i face 0, nth ((i + 1) mod length face) face 0).

(** [halfEdges.insert(e)]; [None] stands for the early [return false]
    taken when [insertResult.second] is false. *)
Definition insertHalfEdge (e : nat * nat) (halfEdges : gset (nat * nat))
  : option (gset (nat * nat)) :=
  if decide (e ∈ halfEdges) then None else Some ({[e]} ∪ halfEdges).

(** The inner [for (size_t i = 0; i < face.size(); ++i)] loop, over the
    remaining positions [idxs]. *)
Fixpoint insertFaceHalfEdges (face : list nat) (idxs : list nat)
  (halfEdges : gset (nat * nat)) : option (gset (nat * nat)) :=
  match idxs with
  | [] => Some halfEdges
  | i :: idxs' =>
      match insertHalfEdge (faceHalfEdge face i) halfEdges with
      | None => None
      | Some halfEdges' => insertFaceHalfEdges face idxs' halfEdges'
      end
  end.

(** The outer [for (const auto &face: faces)] loop. *)
Fixpoint insertFacesHalfEdges (faces : list (list nat))
  (halfEdges : gset (nat * nat)) : option (gset (nat * nat)) :=
  match faces with
  | [] => Some halfEdges
  | face :: rest =>
      match insertFaceHalfEdges face (seq 0 (length face)) halfEdges with
      | None => None
      | Some halfEdges' => insertFacesHalfEdges rest halfEdges'
      end
  end.

(** The second loop: every stored half-edge must find its reverse. *)
Definition allOppositesPresent (halfEdges : gset (nat * nat)) : bool :=
  forallb (fun it => bool_decide ((it.2, it.1) ∈ halfEdges)) (elements halfEdges).

Definition isWatertight (faces : list (list nat)) : bool :=
  match insertFacesHalfEdges faces ∅ with
  | None => false
  | Some halfEdges => allOppositesPresent halfEdges
  end.

(** An occurrence of a directed half-edge: position [i] of face number
    [f].  Used to state the property, not by the code. *)
Definition halfEdgeAt (faces : list (list nat)) (f i : nat) : option (nat * nat) :=
  match faces !! f with
  | Some face => if decide (i < length face) then Some (faceHalfEdge face i) else None
  | None => None
  end.

(** All half-edge occurrences, face by face, in insertion order. *)
Definition faceHalfEdgeList (face : list nat) : list (nat * nat) :=
  map (faceHalfEdge face) (seq 0 (length face)).

Definition halfEdgeList (faces : list (list nat)) : list (nat * nat) :=
  flat_map faceHalfEdgeList faces.

(** The two loops seen as one: the half-edges [es] inserted one by one. *)
Fixpoint insertAll (es : list (nat * nat)) (s : gset (nat * nat))
  : option (gset (nat * nat)) :=
  match es with
  | [] => Some s
  | e :: es' =>
      match insertHalfEdge e s with
      | None => None
      | Some s' => insertAll es' s'
      end
  end.

End Watertight.

(** ** chamferFace *)
Module Chamfer.

Section Model.

(** [Vector2] and its floating-point arithmetic are kept abstract:
    [scale p k] is [p * k] ([Vector2::operator*(double)]), [add] is
    [operator+], and [k08], [k02] are the literals [0.8] and [0.2].
    [origin] is [Vector2()], the filler of [nth]; every access made by
    [chamferFace] is in range, so it is never read. *)
Context {Vector2 Scalar : Type}.
Variable scale : Vector2 → Scalar → Vector2.
Variable add : Vector2 → Vector2 → Vector2.
Variables k08 k02 : Scalar.
Variable origin : Vector2.

(** The two points pushed by one iteration of the loop. *)
Definition chamferEdge (oldFace : list Vector2) (i : nat) : list Vector2 :=
  let j := (i + 1) mod length oldFace in
  [ add (scale (nth i oldFace origin) k08) (scale (nth j oldFace origin) k02);
    add (scale (nth i oldFace origin) k02) (scale (nth j oldFace origin) k08) ].

(** [face->clear()] followed by the loop over [0 .. oldFace.size()). *)
Definition chamferFace (face : list Vector2) : list Vector2 :=
  let oldFace := face in
  flat_map (chamferEdge oldFace) (seq 0 (length oldFace)).

End Model.

End Chamfer.

(** ** collectSharedQuadEdges and recoverQuads *)
Module Quads.

(** *** [std::map<std::pair<size_t, size_t>, std::pair<size_t, size_t>>]

    [triangleEdgeMap] is walked in key order by [recoverQuads], so it is
    kept as an association list sorted by the lexicographic order of
    [std::pair]. *)
Definition EdgeMap := list ((nat * nat) * (nat * nat)).

Definition edgeLt (k k' : nat * nat) : bool :=
  (k.1 <? k'.1) || ((k.1 =? k'.1) && (k.2 <? k'.2)).

(** [m[k] = v]: inserts at the key's place, or overwrites. *)
Fixpoint mapAssign (k v : nat * nat) (m : EdgeMap) : EdgeMap :=
  match m with
  | [] => [(k, v)]
  | (k', v') :: m' =>
      if edgeLt k k' then (k, v) :: m
      else if decide (k = k') then (k, v) :: m'
      else (k', v') :: mapAssign k v m'
  end.

(** [m.find(k)], [None] for [m.end()]. *)
Fixpoint mapFind (k : nat * nat) (m : EdgeMap) : option (nat * nat) :=
  match m with
  | [] => None
  | (k', v') :: m' => if decide (k = k') then Some v' else mapFind k m'
  end.

(** The first loop of [recoverQuads], from face number [i] on: each
    face of three vertices records its three directed edges, with the
    face number and the vertex opposite to the edge. *)
Fixpoint buildTriangleEdgeMap (triangles : list (list nat)) (i : nat)
  (triangleEdgeMap : EdgeMap) : EdgeMap :=
  match triangles with
  | [] => triangleEdgeMap
  | faceIndices :: rest =>
      buildTriangleEdgeMap rest (S i)
        match faceIndices with
        | [v0; v1; v2] =>
            mapAssign (v2, v0) (i, v1)
              (mapAssign (v1, v2) (i, v0)
                 (mapAssign (v0, v1) (i, v2) triangleEdgeMap))
        | _ => triangleEdgeMap
        end
  end.

(** The last loop of [recoverQuads]: the faces whose number is not in
    [unionedFaces], in input order. *)
Fixpoint remainingFaces (triangles : list (list nat)) (i : nat)
  (unionedFaces : gset nat) : list (list nat) :=
  match triangles with
  | [] => []
  | face :: rest =>
      if decide (i ∈ unionedFaces) then remainingFaces rest (S i) unionedFaces
      else face :: remainingFaces rest (S i) unionedFaces
  end.

(** Face number [i] is a face of three vertices having the directed
    edge [(a, b)], with [o] the remaining vertex. *)
Definition hasEdge (triangles : list (list nat)) (i a b o : nat) : Prop :=
  ∃ v0 v1 v2, triangles !! i = Some [v0; v1; v2] ∧
    ((a, b, o) = (v0, v1, v2) ∨ (a, b, o) = (v1, v2, v0) ∨ (a, b, o) = (v2, v0, v1)).

(** Two merges (face, face, quad) use no face in common. *)
Definition mergesApart (m1 m2 : nat * nat * list nat) : Prop :=
  m1.1.1 ≠ m2.1.1 ∧ m1.1.1 ≠ m2.1.2 ∧ m1.1.2 ≠ m2.1.1 ∧ m1.1.2 ≠ m2.1.2.

(** Face number [i] takes part in one of the merges. *)
Definition mergedIn (merges : list (nat * nat * list nat)) (i : nat) : Prop :=
  ∃ mg, mg ∈ merges ∧ (i = mg.1.1 ∨ i = mg.1.2).

Section Model.

(** [Vector3] and [PositionKey] are declared outside this file; the
    quantisation [PositionKey(position)] is a parameter, and position
    keys are only compared. *)
Context {Vector3 PositionKey : Type} `{Countable PositionKey}.
Variable positionKey : Vector3 → PositionKey.

(** [collectSharedQuadEdges]: a face with [face.size() != 4] is skipped;
    otherwise the two diagonals are inserted.  [vertices[face[k]]] out
    of range yields [None]. *)
Fixpoint collectSharedQuadEdges (vertices : list Vector3) (faces : list (list nat))
  (sharedQuadEdges : gset (PositionKey * PositionKey))
  : option (gset (PositionKey * PositionKey)) :=
  match faces with
  | [] => Some sharedQuadEdges
  | [f0; f1; f2; f3] :: rest =>
      p0 ← vertices !! f0;
      p2 ← vertices !! f2;
      p1 ← vertices !! f1;
      p3 ← vertices !! f3;
      collectSharedQuadEdges vertices rest
        ({[(positionKey p1, positionKey p3)]} ∪
         ({[(positionKey p0, positionKey p2)]} ∪ sharedQuadEdges))
  | _ :: rest => collectSharedQuadEdges vertices rest sharedQuadEdges
  end.

(** One iteration of [for (const auto &edge: triangleEdgeMap)].  The
    state is [unionedFaces] and the output vector [triangleAndQuads]. *)
Definition unionStep (verticesPositionKeys : list PositionKey)
  (sharedQuadEdges : gset (PositionKey * PositionKey)) (triangleEdgeMap : EdgeMap)
  (st : gset nat * list (list nat)) (edge : (nat * nat) * (nat * nat))
  : option (gset nat * list (list nat)) :=
  let '(unionedFaces, triangleAndQuads) := st in
  if decide (edge.2.1 ∈ unionedFaces) then Some st
  else
    k1 ← verticesPositionKeys !! edge.1.1;
    k2 ← verticesPositionKeys !! edge.1.2;
    if decide ((k1, k2) ∈ sharedQuadEdges) then
      match mapFind (edge.1.2, edge.1.1) triangleEdgeMap with
      | None => Some st
      | Some oppositeEdge =>
          if decide (oppositeEdge.1 ∈ unionedFaces) then Some st
          else Some ({[oppositeEdge.1]} ∪ ({[edge.2.1]} ∪ unionedFaces),
                     triangleAndQuads ++
                       [[edge.2.2; edge.1.1; oppositeEdge.2; edge.1.2]])
      end
    else Some st.

Fixpoint unionLoop (verticesPositionKeys : list PositionKey)
  (sharedQuadEdges : gset (PositionKey * PositionKey)) (triangleEdgeMap : EdgeMap)
  (edges : EdgeMap) (st : gset nat * list (list nat))
  : option (gset nat * list (list nat)) :=
  match edges with
  | [] => Some st
  | edge :: rest =>
      st' ← unionStep verticesPositionKeys sharedQuadEdges triangleEdgeMap st edge;
      unionLoop verticesPositionKeys sharedQuadEdges triangleEdgeMap rest st'
  end.

(** [recoverQuads]; the result is the final content of the output
    parameter [triangleAndQuads]. *)
Definition recoverQuads (vertices : list Vector3) (triangles : list (list nat))
  (sharedQuadEdges : gset (PositionKey * PositionKey))
  (triangleAndQuads : list (list nat)) : option (list (list nat)) :=
  let verticesPositionKeys := map positionKey vertices in
  let triangleEdgeMap := buildTriangleEdgeMap triangles 0 [] in
  st ← unionLoop verticesPositionKeys sharedQuadEdges triangleEdgeMap
         triangleEdgeMap (∅, triangleAndQuads);
  Some (st.2 ++ remainingFaces triangles 0 st.1).

(** *** Notions used to state what the merging loop does

    The loop runs over the entries of [m] with the position keys [keys]
    and the set [shared]; [out0] is the content of the output vector
    before the loop. *)
Section Loop.
Variable keys : list PositionKey.
Variable shared : gset (PositionKey * PositionKey).
Variable m : EdgeMap.
Variable out0 : list (list nat).

(** What the loop guarantees of a merge it has made. *)
Definition mergeJustified (mg : nat * nat * list nat) : Prop :=
  ∃ a b o1 o2 k1 k2,
    mg.2 = [o1; a; o2; b] ∧
    ((a, b), (mg.1.1, o1)) ∈ m ∧ mapFind (b, a) m = Some (mg.1.2, o2) ∧
    keys !! a = Some k1 ∧ keys !! b = Some k2 ∧ (k1, k2) ∈ shared.

(** What holds of [unionedFaces] and the output between two iterations. *)
Definition loopInv (st : gset nat * list (list nat)) : Prop :=
  ∃ merges : list (nat * nat * list nat),
    st.2 = out0 ++ map snd merges ∧
    (∀ i, i ∈ st.1 ↔ mergedIn merges i) ∧
    (∀ k l mk ml, merges !! k = Some mk → merges !! l = Some ml → k ≠ l →
                  mergesApart mk ml) ∧
    Forall mergeJustified merges.

(** A visited edge whose pair qualifies leaves one of its two faces
    merged; merged faces stay merged. *)
Definition settled (U : gset nat) (edge : (nat * nat) * (nat * nat)) : Prop :=
  ∀ j o2 k1 k2,
    mapFind (edge.1.2, edge.1.1) m = Some (j, o2) →
    keys !! edge.1.1 = Some k1 → keys !! edge.1.2 = Some k2 →
    (k1, k2) ∈ shared → edge.2.1 ∈ U ∨ j ∈ U.

End Loop.

End Model.

(** Lattice points that quantise to themselves, for the examples. *)
Definition latticeKey (p : Z * Z * Z) : Z * Z * Z := p.

Definition squareVertices : list (Z * Z * Z) :=
  [(0, 0, 0); (1, 0, 0); (1, 1, 0); (0, 1, 0); (2, 0, 0); (2, 1, 0)]%Z.




End Quads.

(** ** The snapshot and the helpers of [dust3d/base] *)
Module Snapshot.

(** Attribute tables: [std::map<std::string, std::string>]. *)
Abbreviation Attributes := (gmap string string).

Record Snapshot := {
  canvas : Attributes;
  nodes : gmap string Attributes;
  edges : gmap string Attributes;
  parts : gmap string Attributes;
  components : gmap string Attributes;
  rootComponent : Attributes
}.

(** Modelled from the spec: [String::valueOrEmpty] of
    [dust3d/base/string.h], which is not among the sources.  As its name
    says, and as every attribute read described by the spec assumes, it
    gives the value stored under the key, and the empty string when the
    key is absent. *)
Definition valueOrEmpty (map : Attributes) (key : string) : string :=
  default "" (map !! key).

(** [enum class CombineMode]; [Count] is the sentinel that starts the
    grouping loop of [combineComponentMesh]. *)
Inductive CombineMode := Normal | Inversion | Uncombined | Count.

#[global] Instance CombineMode_eq_dec : EqDecision CombineMode.
Proof. solve_decision. Defined.

(** Modelled from the spec: [String::isTrue]; booleans are written
    ["true"] / ["false"].  Used for examples only. *)
Definition isTrueModel (s : string) : bool := bool_decide (s = "true").

(** Modelled from the spec: [CombineModeFromString]; the three modes by
    name, [Normal] otherwise.  Used for examples only. *)
Definition CombineModeFromStringModel (s : string) : CombineMode :=
  if decide (s = "Inversion") then Inversion
  else if decide (s = "Uncombined") then Uncombined
  else Normal.

(** Modelled from the spec: [String::split] on a separator; the pieces
    between separators, in order.  Used for examples only. *)
Fixpoint splitModel (s : string) (separator : ascii) : list string :=
  match s with
  | EmptyString => [EmptyString]
  | String c rest =>
      if decide (c = separator) then EmptyString :: splitModel rest separator
      else match splitModel rest separator with
           | [] => [String c EmptyString]
           | token :: tokens => String c token :: tokens
           end
  end.

(** Modelled from the spec: [to_string(Uuid())], the nil UUID, which
    names the virtual root component. *)
Definition nilUuidString : string := "{00000000-0000-0000-0000-000000000000}".

End Snapshot.

(** ** combineComponentMesh: grouping the children by combine mode *)
Module Grouping.

Import Snapshot.

(** For every member of every group, in order, the number of its group. *)
Definition groupIndexes {A B} (gs : list (A * list B)) : list nat :=
  concat (imap (fun i g => replicate (length g.2) i) gs).

(** [R] relates every element of [gs] to the next one. *)
Definition adjacentGroups {A} (R : A → A → Prop) (gs : list A) : Prop :=
  ∀ k g1 g2, gs !! k = Some g1 → gs !! S k = Some g2 → R g1 g2.

Section Model.

(** Declared in [dust3d/base], outside the sources. *)
Variable String_isTrue : string → bool.
Variable String_split : string → ascii → list string.
Variable CombineModeFromString : string → CombineMode.
Variable m_snapshot : Snapshot.

(** [findComponent]: [None] is [nullptr]. *)
Definition findComponent (componentIdString : string) : option Attributes :=
  if decide (componentIdString ≠ nilUuidString)
  then components m_snapshot !! componentIdString
  else Some (rootComponent m_snapshot).

Definition componentCombineMode (component : option Attributes) : CombineMode :=
  match component with
  | None => Normal
  | Some component =>
      let combineMode := CombineModeFromString (valueOrEmpty component "combineMode") in
      if decide (combineMode = Normal) then
        if String_isTrue (valueOrEmpty component "inverse") then Inversion
        else combineMode
      else combineMode
  end.

Definition componentColorName (component : option Attributes) : string :=
  match component with
  | None => ""
  | Some component =>
      if decide (valueOrEmpty component "linkDataType" = "partId") then
        match parts m_snapshot !! valueOrEmpty component "linkData" with
        | None => ""
        | Some part =>
            if decide (valueOrEmpty part "colorSolubility" ≠ "") then "+"
            else if decide (valueOrEmpty part "color" = "") then "-"
            else valueOrEmpty part "color"
        end
      else ""
  end.

(** The locals of the grouping loop. [currentGroupIndex] is an [int]
    that starts at [-1]. *)
Record GroupingState := {
  combineGroups : list (CombineMode * list (string * string));
  currentGroupIndex : Z;
  lastCombineMode : CombineMode;
  foundColorSolubilitySetting : bool
}.

(** [currentGroupIndex = -1], [lastCombineMode = CombineMode::Count]. *)
Definition groupingInit : GroupingState :=
  {| combineGroups := []; currentGroupIndex := -1;
     lastCombineMode := Count; foundColorSolubilitySetting := false |}.

(** [combineGroups[currentGroupIndex].second.push_back(entry)]. *)
Definition pushToGroup (groups : list (CombineMode * list (string * string)))
  (index : Z) (entry : string * string) :=
  alter (fun group => (group.1, group.2 ++ [entry])) (Z.to_nat index) groups.

(** One iteration of the loop over [String::split(children, ',')]. *)
Definition groupingStep (st : GroupingState) (childIdString : string) : GroupingState :=
  if decide (childIdString = "") then st
  else
    let child := findComponent childIdString in
    let colorName := componentColorName child in
    let found :=
      if decide (colorName = "+") then true else foundColorSolubilitySetting st in
    let combineMode := componentCombineMode child in
    let st1 :=
      if decide (lastCombineMode st ≠ combineMode ∨ lastCombineMode st = Inversion)
      then {| combineGroups := combineGroups st ++ [(combineMode, [])];
              currentGroupIndex := currentGroupIndex st + 1;
              lastCombineMode := combineMode;
              foundColorSolubilitySetting := found |}
      else {| combineGroups := combineGroups st;
              currentGroupIndex := currentGroupIndex st;
              lastCombineMode := lastCombineMode st;
              foundColorSolubilitySetting := found |} in
    if decide (currentGroupIndex st1 = -1)%Z then st1
    else {| combineGroups :=
              pushToGroup (combineGroups st1) (currentGroupIndex st1)
                (childIdString, colorName);
            currentGroupIndex := currentGroupIndex st1;
            lastCombineMode := lastCombineMode st1;
            foundColorSolubilitySetting := foundColorSolubilitySetting st1 |}.

(** "Firstly, group by combine mode": the groups built from the
    [children] attribute of a non-leaf component. *)
Definition groupChildren (component : Attributes) : GroupingState :=
  fold_left groupingStep (String_split (valueOrEmpty component "children") ","%char) groupingInit.

(** The combine mode the loop reads for a child id. *)
Definition childCombineMode (childIdString : string) : CombineMode :=
  componentCombineMode (findComponent childIdString).

(** What holds of the loop state after the children [l]. *)
Definition groupingInv (l : list string) (st : GroupingState) : Prop :=
  concat (map (fun g => map fst g.2) (combineGroups st)) = filter (fun c => c ≠ "") l ∧
  currentGroupIndex st = (Z.of_nat (length (combineGroups st)) - 1)%Z ∧
  lastCombineMode st = from_option fst Count (last (combineGroups st)) ∧
  Forall (fun g =>
    g.1 ≠ Count ∧ g.2 ≠ [] ∧
    Forall (fun e => childCombineMode e.1 = g.1) g.2 ∧
    (g.1 = Inversion → length g.2 = 1)) (combineGroups st) ∧
  adjacentGroups (fun g1 g2 => g1.1 ≠ g2.1 ∨ g2.1 = Inversion) (combineGroups st).

(** Where groups start: child [k + 1] falls into another group than
    child [k] exactly when its mode differs from the mode of child [k] or
    is [Inversion]. *)
Definition startsWhereModeChanges (children : list string) (groupOf : list nat) : Prop :=
  ∀ k c c' i i',
    children !! k = Some c → children !! S k = Some c' →
    groupOf !! k = Some i → groupOf !! S k = Some i' →
    (i' ≠ i ↔ childCombineMode c' ≠ childCombineMode c ∨ childCombineMode c' = Inversion).

(** What holds of the group numbers after the children [l]. *)
Definition startsInv (l : list string) (st : GroupingState) : Prop :=
  let children := filter (fun c => c ≠ "") l in
  let groupOf := groupIndexes (combineGroups st) in
  length groupOf = length children ∧
  (∀ c, last children = Some c →
     childCombineMode c = lastCombineMode st ∧
     0 < length (combineGroups st) ∧
     last groupOf = Some (length (combineGroups st) - 1)) ∧
  startsWhereModeChanges children groupOf.

End Model.

(** A root with five children: two plain ones, two inverted ones (one
    by [combineMode], one by [inverse]) and an uncombined one. *)
Definition exampleSnapshot : Snapshot :=
  {| canvas := ∅; nodes := ∅; edges := ∅; parts := ∅;
     components :=
       {[ "a" := ∅; "b" := ∅;
          "c" := {[ "combineMode" := "Inversion" ]};
          "d" := {[ "inverse" := "true" ]};
          "e" := {[ "combineMode" := "Uncombined" ]} ]};
     rootComponent := {[ "children" := "a,b,,c,d,e" ]} |}.

End Grouping.

(** ** generate: evicting cached combinations of dirty components *)
Module Cache.

(** [haystack] begins with [needle]. *)
Fixpoint startsWith (needle haystack : string) : bool :=
  match needle, haystack with
  | EmptyString, _ => true
  | String _ _, EmptyString => false
  | String a needle', String b haystack' =>
      if decide (a = b) then startsWith needle' haystack' else false
  end.

(** [haystack.find(needle)], counted from [pos]; [None] is
    [std::string::npos]. *)
Fixpoint stringFind (needle haystack : string) (pos : nat) : option nat :=
  if startsWith needle haystack then Some pos
  else match haystack with
       | EmptyString => None
       | String _ haystack' => stringFind needle haystack' (S pos)
       end.

(** [d] occurs in [key] as a substring. *)
Definition isSubstring (d key : string) : Prop :=
  ∃ before after, key = before +:+ d +:+ after.

Section Model.

(** The cached meshes are [MeshCombiner::Mesh *], possibly [nullptr]. *)
Context {Mesh : Type}.

(** The inner loop: every entry whose key contains [dirtyComponentId]
    is erased. *)
Definition evictCombinations (dirtyComponentId : string)
  (cachedCombination : gmap string (option Mesh)) : gmap string (option Mesh) :=
  map_fold
    (fun key _ cache =>
       if decide (stringFind dirtyComponentId key 0 ≠ None) then delete key cache
       else cache)
    cachedCombination cachedCombination.

(** [for (const auto &dirtyComponentId: m_dirtyComponentIds)]. *)
Definition evictDirtyCombinations (m_dirtyComponentIds : gset string)
  (cachedCombination : gmap string (option Mesh)) : gmap string (option Mesh) :=
  fold_left (fun cache dirtyComponentId => evictCombinations dirtyComponentId cache)
    (elements m_dirtyComponentIds) cachedCombination.

End Model.

End Cache.

(** ** reverseUuid *)
Module ReverseUuid.

Import Snapshot.

(** [s.substr(pos, len)]: throws [std::out_of_range] ([None]) when
    [pos > s.size()], and otherwise stops at the end of the string. *)
Definition substr (s : string) (pos len : nat) : option string :=
  if decide (pos ≤ String.length s) then Some (String.substring pos len s) else None.

(** [std::reverse(s.begin(), s.end())]. *)
Definition stringReverse (s : string) : string :=
  string_of_list_ascii (rev (list_ascii_of_string s)).

Section Model.

(** [to_string(Uuid(uuidString))]: the class [Uuid] is declared in
    [dust3d/base/uuid.h], outside the sources. *)
Variable Uuid_to_string : string → string.

Definition reverseUuid (uuidString : string) : option string :=
  let newIdString := Uuid_to_string uuidString in
  s1 ← substr newIdString 1 8;
  s2 ← substr newIdString 10 4;
  s3 ← substr newIdString 15 4;
  s4 ← substr newIdString 20 4;
  s5 ← substr newIdString 25 12;
  let newRawId := stringReverse (s1 +:+ s2 +:+ s3 +:+ s4 +:+ s5) in
  r1 ← substr newRawId 0 8;
  r2 ← substr newRawId 8 4;
  r3 ← substr newRawId 12 4;
  r4 ← substr newRawId 16 4;
  r5 ← substr newRawId 20 12;
  Some ("{" +:+ r1 +:+ "-" +:+ r2 +:+ "-" +:+ r3 +:+ "-" +:+ r4 +:+ "-" +:+ r5 +:+ "}").

End Model.

(** *** Well-formed UUID strings

    [{hhhhhhhh-hhhh-hhhh-hhhh-hhhhhhhhhhhh}]: 38 characters, braces at
    both ends, hyphens at positions 9, 14, 19 and 24, digits of the
    alphabet [isDigit] elsewhere. *)
Definition uuidCharOk (isDigit : ascii → bool) (i : nat) (c : ascii) : bool :=
  if i =? 0 then Ascii.eqb c "{"
  else if i =? 37 then Ascii.eqb c "}"
  else if (i =? 9) || (i =? 14) || (i =? 19) || (i =? 24) then Ascii.eqb c "-"
  else isDigit c.

Fixpoint uuidCharsOk (isDigit : ascii → bool) (i : nat) (s : string) : bool :=
  match s with
  | EmptyString => true
  | String c s' => uuidCharOk isDigit i c && uuidCharsOk isDigit (S i) s'
  end.

Definition isUuidString (isDigit : ascii → bool) (s : string) : bool :=
  (String.length s =? 38) && uuidCharsOk isDigit 0 s.

(** The 32 digits of a UUID string, in order. *)
Definition uuidDigits (s : string) : string :=
  String.substring 1 8 s +:+ String.substring 10 4 s +:+ String.substring 15 4 s
  +:+ String.substring 20 4 s +:+ String.substring 25 12 s.

(** [0-9a-f]. *)
Definition isLowerHexDigit (c : ascii) : bool :=
  let n := nat_of_ascii c in
  ((48 <=? n) && (n <=? 57)) || ((97 <=? n) && (n <=? 102)).

(** Modelled from the spec: [to_string(Uuid(s))] keeps a UUID-like
    string as it is and gives the nil UUID for anything else.  Used for
    the closed examples only; the theorems take it as a parameter. *)
Definition Uuid_to_string_model (s : string) : string :=
  if isUuidString isLowerHexDigit s then s else nilUuidString.

End ReverseUuid.

(** ** collectParts and checkDirtyFlags *)
Module Dirty.

Import Snapshot.

(** [m_dirtyPartIds] and [m_dirtyComponentIds]. *)
Record DirtyState := {
  m_dirtyPartIds : gset string;
  m_dirtyComponentIds : gset string
}.

Definition insertDirtyPart (partId : string) (st : DirtyState) : DirtyState :=
  {| m_dirtyPartIds := {[partId]} ∪ m_dirtyPartIds st;
     m_dirtyComponentIds := m_dirtyComponentIds st |}.

Definition insertDirtyComponent (componentId : string) (st : DirtyState) : DirtyState :=
  {| m_dirtyPartIds := m_dirtyPartIds st;
     m_dirtyComponentIds := {[componentId]} ∪ m_dirtyComponentIds st |}.

(** One loop of [collectParts]: [index[partId].insert(id)] for every
    entry of [table] with a non-empty ["partId"]. *)
Definition indexByPartId (table : gmap string Attributes) : gmap string (gset string) :=
  map_fold
    (fun id attributes index =>
       let partId := valueOrEmpty attributes "partId" in
       if decide (partId = "") then index
       else <[partId := {[id]} ∪ default ∅ (index !! partId)]> index)
    ∅ table.

(** [collectParts]: [m_partNodeIds] and [m_partEdgeIds]. *)
Definition collectParts (snapshot : Snapshot)
  : gmap string (gset string) * gmap string (gset string) :=
  (indexByPartId (nodes snapshot), indexByPartId (edges snapshot)).

Section Model.

(** Declared in [dust3d/base], outside the sources: [String::isTrue],
    [String::split], and [Uuid(s).isNull()]. *)
Variable String_isTrue : string → bool.
Variable String_split : string → ascii → list string.
Variable Uuid_isNull : string → bool.
Variable m_snapshot : Snapshot.

(** [m_partNodeIds[partId]] reads as the empty set for a part id that
    has no entry (the entry that [operator[]] creates is empty). *)
Variable m_partNodeIds : gmap string (gset string).

Definition checkIsPartDirty (partIdString : string) : bool :=
  match parts m_snapshot !! partIdString with
  | None => false
  | Some part => String_isTrue (valueOrEmpty part "__dirty")
  end.

(** The test made on a ["cutFace"] attribute, of a part or of a node:
    it names a part by UUID, and that part is dirty. *)
Definition cutFaceIsDirty (attributes : Attributes) : bool :=
  let cutFaceString := valueOrEmpty attributes "cutFace" in
  negb (Uuid_isNull cutFaceString) && checkIsPartDirty cutFaceString.

Definition checkIsPartDependencyDirty (partIdString : string) : bool :=
  match parts m_snapshot !! partIdString with
  | None => false
  | Some part =>
      if cutFaceIsDirty part then true
      else
        existsb
          (fun nodeIdString =>
             match nodes m_snapshot !! nodeIdString with
             | None => false
             | Some node => cutFaceIsDirty node
             end)
          (elements (default ∅ (m_partNodeIds !! partIdString)))
  end.

(** Lines 230-242 of [checkIsComponentDirty]: the part linked to a leaf. *)
Definition checkLinkedPart (component : Attributes) (isDirty : bool) (st : DirtyState)
  : bool * DirtyState :=
  if decide (valueOrEmpty component "linkDataType" = "partId") then
    let partId := valueOrEmpty component "linkData" in
    let r := if checkIsPartDirty partId then (true, insertDirtyPart partId st)
             else (isDirty, st) in
    if r.1 then r
    else if checkIsPartDependencyDirty partId then (true, r.2) else r
  else (isDirty, st).

(** The loop over the children; [check] is the recursive call. *)
Fixpoint checkChildren (check : string → DirtyState → option (bool * DirtyState))
  (children : list string) (isDirty : bool) (st : DirtyState)
  : option (bool * DirtyState) :=
  match children with
  | [] => Some (isDirty, st)
  | childId :: rest =>
      if decide (childId = "") then checkChildren check rest isDirty st
      else
        match check childId st with
        | None => None
        | Some (childIsDirty, st') =>
            checkChildren check rest (if childIsDirty then true else isDirty) st'
        end
  end.

(** The component a component id stands for; the nil UUID is the root. *)
Definition lookupComponent (componentIdString : string) : option Attributes :=
  if decide (componentIdString ≠ nilUuidString)
  then components m_snapshot !! componentIdString
  else Some (rootComponent m_snapshot).

(** [checkIsComponentDirty].  The C++ recursion is unbounded; [fuel]
    bounds its depth and [None] means that the bound was reached. *)
Fixpoint checkIsComponentDirty (fuel : nat) (componentIdString : string)
  (st : DirtyState) : option (bool * DirtyState) :=
  match fuel with
  | 0 => None
  | S fuel' =>
      match lookupComponent componentIdString with
      | None => Some (false, st)
      | Some component =>
          let isDirty := String_isTrue (valueOrEmpty component "__dirty") in
          let linked := checkLinkedPart component isDirty st in
          match checkChildren (checkIsComponentDirty fuel')
                  (String_split (valueOrEmpty component "children") ","%char)
                  linked.1 linked.2 with
          | None => None
          | Some (isDirty, st') =>
              if isDirty then Some (true, insertDirtyComponent componentIdString st')
              else Some (isDirty, st')
          end
      end
  end.

Definition checkDirtyFlags (fuel : nat) (st : DirtyState) : option DirtyState :=
  snd <$> checkIsComponentDirty fuel nilUuidString st.

(** [child] is listed in the children of [parent]. *)
Definition childOf (parent child : string) : Prop :=
  ∃ component, lookupComponent parent = Some component ∧ child ≠ "" ∧
    child ∈ String_split (valueOrEmpty component "children") ","%char.

(** Every chain of children that starts at [componentIdString] has
    fewer than [depth] components. *)
Fixpoint depthWithin (depth : nat) (componentIdString : string) : bool :=
  match depth with
  | 0 => false
  | S depth' =>
      match lookupComponent componentIdString with
      | None => true
      | Some component =>
          forallb (fun childId => bool_decide (childId = "") || depthWithin depth' childId)
            (String_split (valueOrEmpty component "children") ","%char)
      end
  end.

(** What [checkIsComponentDirty] finds out about a component before it
    looks at the children. *)
Definition locallyDirty (component : Attributes) : bool :=
  String_isTrue (valueOrEmpty component "__dirty") ||
  (bool_decide (valueOrEmpty component "linkDataType" = "partId") &&
   (checkIsPartDirty (valueOrEmpty component "linkData") ||
    checkIsPartDependencyDirty (valueOrEmpty component "linkData"))).

(** A locally dirty component can be reached from [componentIdString]
    through children lists. *)
Inductive dirtyBelow : string → Prop :=
  | dirtyBelow_here componentIdString component :
      lookupComponent componentIdString = Some component →
      locallyDirty component = true →
      dirtyBelow componentIdString
  | dirtyBelow_child componentIdString childId :
      childOf componentIdString childId →
      dirtyBelow childId →
      dirtyBelow componentIdString.

(** What a call of [checkIsComponentDirty] that returns [isDirty] and
    leaves [st'] has established. *)
Definition checkPost (componentIdString : string) (st : DirtyState)
  (isDirty : bool) (st' : DirtyState) : Prop :=
  m_dirtyComponentIds st ⊆ m_dirtyComponentIds st' ∧
  (dirtyBelow componentIdString → isDirty = true) ∧
  (isDirty = true → componentIdString ∈ m_dirtyComponentIds st') ∧
  (∀ d, rtc childOf componentIdString d → dirtyBelow d → d ∈ m_dirtyComponentIds st').

End Model.

(** The sets of a fresh generator. *)
Definition emptyDirtyState : DirtyState :=
  {| m_dirtyPartIds := ∅; m_dirtyComponentIds := ∅ |}.

(** Modelled from the spec: [Uuid(s).isNull()], true of everything but
    a string of the shape of a UUID other than the nil UUID.  Used for
    examples only. *)
Definition Uuid_isNull_model (s : string) : bool :=
  negb (ReverseUuid.isUuidString ReverseUuid.isLowerHexDigit s)
  || bool_decide (s = nilUuidString).

(** Root > arm > hand, and root > leg; the hand is a leaf whose part
    takes its cut face from a dirty part. *)
Definition dirtyExample : Snapshot :=
  {| canvas := ∅; edges := ∅;
     nodes := {[ "n1" := {[ "partId" := "handPart" ]} ]};
     parts := {[ "handPart" := {[ "cutFace" := "{01234567-89ab-cdef-0123-456789abcdef}" ]};
                 "{01234567-89ab-cdef-0123-456789abcdef}" := {[ "__dirty" := "true" ]} ]};
     components :=
       {[ "arm" := {[ "children" := "hand" ]};
          "hand" := {[ "linkDataType" := "partId"; "linkData" := "handPart" ]};
          "leg" := ∅ ]};
     rootComponent := {[ "children" := "arm,leg" ]} |}.

End Dirty.

(** ** combineMultipleMeshes and the routing of child meshes *)
Module Combine.

Import Snapshot.

(** [MeshCombiner::Method]. *)
Inductive Method := Union | Diff.

#[global] Instance Method_eq_dec : EqDecision Method.
Proof. solve_decision. Defined.

Section Model.

(** [MeshCombiner::Mesh], the CSG engine and the recombiner are
    external; a [Mesh *] is an [option Mesh], and copying a mesh gives
    the same value. *)
Context {Mesh Vector3 Source : Type}.
Variable isNull : Mesh → bool.
Variable isCombinable : Mesh → bool.
Variable MeshCombiner_combine : Mesh → Mesh → Method → option (Mesh * list Source).
Variable Mesh_fetch : Mesh → list Vector3 * list (list nat).
Variable Mesh_make : list Vector3 → list (list nat) → Mesh.
Variable MeshRecombiner_recombine :
  list Vector3 → list Source → list (list nat) → option (list Vector3 * list (list nat)).

Definition combineTwoMeshes (first second : Mesh) (method : Method) (recombine : bool)
  : option Mesh :=
  if isNull first || isNull second then None
  else
    match MeshCombiner_combine first second method with
    | None => None
    | Some (csgMesh, combinedVerticesSources) =>
        let newMesh :=
          if negb (isNull csgMesh) && recombine then
            let fetched := Mesh_fetch csgMesh in
            match MeshRecombiner_recombine fetched.1 combinedVerticesSources fetched.2 with
            | Some (regeneratedVertices, regeneratedFaces) =>
                if Watertight.isWatertight regeneratedFaces then
                  let reMesh := Mesh_make regeneratedVertices regeneratedFaces in
                  if negb (isNull reMesh) && isCombinable reMesh then reMesh else csgMesh
                else csgMesh
            | None => csgMesh
            end
          else csgMesh in
        if isNull newMesh then None else Some newMesh
    end.

(** The locals [mesh] and [meshIdStrings] of [combineMultipleMeshes],
    with the two members it updates: the combination cache and
    [m_isSuccessful]. *)
Record CombineState := {
  mesh : option Mesh;
  meshIdStrings : string;
  cachedCombination : gmap string (option Mesh);
  m_isSuccessful : bool
}.

(** One iteration of the loop of [combineMultipleMeshes]. *)
Definition combineStep (recombine : bool) (st : CombineState)
  (it : option Mesh * CombineMode * string) : CombineState :=
  let '(subMesh, childCombineMode, subMeshIdString) := it in
  match subMesh with
  | None => st
  | Some subMesh =>
      if isNull subMesh then st
      else if negb (isCombinable subMesh) then st (* TODO: Collect vertices *)
      else
        match mesh st with
        | None =>
            {| mesh := Some subMesh; meshIdStrings := subMeshIdString;
               cachedCombination := cachedCombination st;
               m_isSuccessful := m_isSuccessful st |}
        | Some accumulated =>
            let combinerMethod :=
              if decide (childCombineMode = Inversion) then Diff else Union in
            let combinerMethodString :=
              if decide (combinerMethod = Union) then "+" else "-" in
            let ids :=
              meshIdStrings st +:+ combinerMethodString +:+ subMeshIdString
                +:+ (if recombine then "!" else "") in
            let lookedUp :=
              match cachedCombination st !! ids with
              | Some cached => (cached, cachedCombination st)
              | None =>
                  let newMesh := combineTwoMeshes accumulated subMesh combinerMethod recombine in
                  (newMesh, <[ids := newMesh]> (cachedCombination st))
              end in
            match lookedUp.1 with
            | Some newMesh =>
                if negb (isNull newMesh) then
                  {| mesh := Some newMesh; meshIdStrings := ids;
                     cachedCombination := lookedUp.2;
                     m_isSuccessful := m_isSuccessful st |}
                else
                  {| mesh := mesh st; meshIdStrings := ids;
                     cachedCombination := lookedUp.2; m_isSuccessful := false |}
            | None =>
                {| mesh := mesh st; meshIdStrings := ids;
                   cachedCombination := lookedUp.2; m_isSuccessful := false |}
            end
        end
  end.

(** [mesh = nullptr] and an empty [meshIdStrings]. *)
Definition combineInit (cache : gmap string (option Mesh)) (successful : bool)
  : CombineState :=
  {| mesh := None; meshIdStrings := ""; cachedCombination := cache;
     m_isSuccessful := successful |}.

(** The last lines: a null accumulator is returned as [nullptr]. *)
Definition combineResult (st : CombineState) : option Mesh :=
  match mesh st with
  | Some m => if isNull m then None else Some m
  | None => None
  end.

(** [combineMultipleMeshes]: the returned mesh, with the cache and
    [m_isSuccessful] as the call leaves them. *)
Definition combineMultipleMeshes
  (multipleMeshes : list (option Mesh * CombineMode * string)) (recombine : bool)
  (cache : gmap string (option Mesh)) (successful : bool)
  : option Mesh * gmap string (option Mesh) * bool :=
  let st := fold_left (combineStep recombine) multipleMeshes (combineInit cache successful) in
  (combineResult st, cachedCombination st, m_isSuccessful st).

(** Lines 1071-1098 of [combineComponentChildGroupMesh], for one child:
    [childResult] is what [combineComponentMesh] returned for it.  The
    state is [componentCache.incombinableMeshes] and the vector
    [multipleMeshes]; the copies of the child's vertex, edge and node
    tables into [componentCache] are left out. *)
Definition routeChildMesh
  (st : list Mesh * list (option Mesh * CombineMode * string))
  (childResult : option Mesh * CombineMode * string)
  : list Mesh * list (option Mesh * CombineMode * string) :=
  let '(subMesh, childCombineMode, childIdString) := childResult in
  if decide (childCombineMode = Uncombined) then st
  else
    match subMesh with
    | None => st
    | Some subMesh =>
        if isNull subMesh then st
        else if negb (isCombinable subMesh) then (st.1 ++ [subMesh], st.2)
        else (st.1, st.2 ++ [(Some subMesh, childCombineMode, childIdString)])
    end.

(** An entry the loop passes over: [nullptr], a null mesh, or a mesh
    that is not combinable. *)
Definition passedOver (it : option Mesh * CombineMode * string) : Prop :=
  match it.1.1 with
  | None => True
  | Some subMesh => isNull subMesh = true ∨ isCombinable subMesh = false
  end.

(** Once a mesh is accumulated, every key the loop builds extends the
    id of the first mesh, and only such keys enter the cache. *)
Definition keysExtend (id : string) (cache : gmap string (option Mesh))
  (st : CombineState) : Prop :=
  is_Some (mesh st) ∧
  Cache.startsWith id (meshIdStrings st) = true ∧
  ∀ key, is_Some (cachedCombination st !! key) →
         is_Some (cache !! key) ∨ Cache.startsWith id key = true.

End Model.

(** A toy mesh for the examples: a name and the two flags; the toy CSG
    engine names its result after the operands. *)
Record ToyMesh := { toyName : string; toyNull : bool; toyCombinable : bool }.

Definition toyCombine (first second : ToyMesh) (method : Method)
  : option (ToyMesh * list unit) :=
  Some ({| toyName := "(" +:+ toyName first +:+
                      (if decide (method = Union) then "+" else "-") +:+
                      toyName second +:+ ")";
           toyNull := false; toyCombinable := true |}, []).

(** [combineMultipleMeshes] over toy meshes, with a recombiner that
    always gives up. *)
Definition toyCombineMultipleMeshes :=
  combineMultipleMeshes (Vector3 := unit) toyNull toyCombinable toyCombine
    (fun _ => ([], [])) (fun _ _ => {| toyName := ""; toyNull := true; toyCombinable := false |})
    (fun _ _ _ => None).

Definition solid (name : string) : ToyMesh :=
  {| toyName := name; toyNull := false; toyCombinable := true |}.


End Combine.

(** ** combineMultipleMeshes: the loop over another cache *)
Module CombineReplay.
Import Combine.

(** The state [st] of the loop of [combineMultipleMeshes], with [big] in
    the place of the combination cache. *)
Definition withCache {Mesh : Type} (big : gmap string (option Mesh))
  (st : @CombineState Mesh) : CombineState :=
  {| mesh := mesh st; meshIdStrings := meshIdStrings st;
     cachedCombination := big; m_isSuccessful := m_isSuccessful st |}.

End CombineReplay.

(** ** checkIsComponentDirty: what is marked, and only that *)
Module DirtyExact.

Import Snapshot Dirty.

Section Model.

Variable String_isTrue : string → bool.
Variable String_split : string → ascii → list string.
Variable Uuid_isNull : string → bool.
Variable m_snapshot : Snapshot.
Variable m_partNodeIds : gmap string (gset string).

(** [partId] is a dirty part linked from a component that is
    [componentIdString] or one of its descendants. *)
Definition linkedDirtyPart (componentIdString partId : string) : Prop :=
  ∃ C component,
    rtc (childOf String_split m_snapshot) componentIdString C ∧
    lookupComponent m_snapshot C = Some component ∧
    valueOrEmpty component "linkDataType" = "partId" ∧
    valueOrEmpty component "linkData" = partId ∧
    checkIsPartDirty String_isTrue m_snapshot partId = true.

(** What a call of [checkIsComponentDirty] that returns [isDirty] and
    leaves [st'] has not done: it marks no component without a cause,
    and the parts it marks are the dirty parts linked below. *)
Definition checkExact (componentIdString : string) (st : DirtyState)
  (isDirty : bool) (st' : DirtyState) : Prop :=
  (isDirty = true →
   dirtyBelow String_isTrue String_split Uuid_isNull m_snapshot m_partNodeIds
     componentIdString) ∧
  (∀ d, d ∈ m_dirtyComponentIds st' →
     d ∈ m_dirtyComponentIds st ∨
     (rtc (childOf String_split m_snapshot) componentIdString d ∧
      dirtyBelow String_isTrue String_split Uuid_isNull m_snapshot m_partNodeIds d)) ∧
  (∀ p, p ∈ m_dirtyPartIds st' ↔
     p ∈ m_dirtyPartIds st ∨ linkedDirtyPart componentIdString p).

End Model.

End DirtyExact.

(** ** A quad cut into two triangles *)
Module QuadSplit.

(** [t] lists the vertices of the triangle [x -> y -> z], starting
    anywhere. *)
Definition isRotation (t : list nat) (x y z : nat) : Prop :=
  t = [x; y; z] ∨ t = [y; z; x] ∨ t = [z; x; y].

(** [triangles] are the two halves of a quad cut along the diagonal
    [x - y], in either order: one triangle has the directed edge
    [(x, y)] and the third vertex [o1], the other has [(y, x)] and the
    third vertex [o2]. *)
Definition splitsInto (triangles : list (list nat)) (x y o1 o2 : nat) : Prop :=
  ∃ t1 t2, isRotation t1 x y o1 ∧ isRotation t2 y x o2 ∧
           (triangles = [t1; t2] ∨ triangles = [t2; t1]).

End QuadSplit.

(** ** makeXmirror *)
Module Mirror.

(** The second loop of [makeXmirror]: a copy of every face, turned
    round by [std::reverse]. *)
Definition reverseFaces (sourceFaces : list (list nat)) : list (list nat) :=
  map (fun mirrorFrom => rev mirrorFrom) sourceFaces.

Section Model.

(** [Vector3] is declared in [dust3d/base/vector3.h], outside the
    sources: [Vector3_make] is its constructor from three coordinates,
    [Vector3_x], [Vector3_y], [Vector3_z] the accessors, and [negate] the
    unary minus of the coordinate type. *)
Context {Vector3 Scalar : Type}.
Variable Vector3_make : Scalar → Scalar → Scalar → Vector3.
Variables Vector3_x Vector3_y Vector3_z : Vector3 → Scalar.
Variable negate : Scalar → Scalar.

(** [makeXmirror]: the result is the content of [*destVertices] and
    [*destFaces] after the call; both vectors are appended to.  The
    local [newFaces] of the C++ function is never used. *)
Definition makeXmirror (sourceVertices : list Vector3) (sourceFaces : list (list nat))
  (destVertices : list Vector3) (destFaces : list (list nat))
  : list Vector3 * list (list nat) :=
  (destVertices ++
     map (fun mirrorFrom =>
            Vector3_make (negate (Vector3_x mirrorFrom)) (Vector3_y mirrorFrom)
              (Vector3_z mirrorFrom)) sourceVertices,
   destFaces ++ reverseFaces sourceFaces).

End Model.

(** The half-edge [(b, a)] opposite to [(a, b)]. *)
Definition oppositeHalfEdge (e : nat * nat) : nat * nat := (e.2, e.1).

(** The position, in a face of [n] vertices, of the half-edge that the
    reversed face has, reversed, at position [i]. *)
Definition mirroredPosition (n i : nat) : nat :=
  if decide (S i = n) then i else n - 2 - i.

End Mirror.

(** ** combineComponentMesh: sub-grouping a group by colour *)
Module SubGrouping.

(** The locals of the loop "Secondly, sub group by color", for one
    group: [group.second] is the list of (child id, colour name) pairs
    that the first loop has built. *)
Record SubGroupState := {
  used : gset nat;
  componentIdStrings : list (list string);
  currentSubGroupIndex : Z;
  lastColorName : string
}.

(** [currentSubGroupIndex = -1], [lastColorName = std::string()]. *)
Definition subGroupInit : SubGroupState :=
  {| used := ∅; componentIdStrings := []; currentSubGroupIndex := -1;
     lastColorName := "" |}.

(** [const std::string colorName = "white"]: the colour of the child is
    not read ("Force to use the same color"). *)
Definition forcedColorName : string := "white".

(** [componentIdStrings[currentSubGroupIndex].push_back(id)]. *)
Definition pushToSubGroup (subGroups : list (list string)) (index : Z) (id : string)
  : list (list string) :=
  alter (fun subGroup => subGroup ++ [id]) (Z.to_nat index) subGroups.

(** [used.insert(k)] followed by the [push_back] of the id of member [k]. *)
Definition takeMember (members : list (string * string)) (k : nat) (st : SubGroupState)
  : SubGroupState :=
  {| used := {[k]} ∪ used st;
     componentIdStrings :=
       pushToSubGroup (componentIdStrings st) (currentSubGroupIndex st)
         (nth k members ("", "")).1;
     currentSubGroupIndex := currentSubGroupIndex st;
     lastColorName := lastColorName st |}.

(** One iteration of [for (size_t j = i + 1; j < group.second.size(); ++j)]. *)
Definition innerStep (members : list (string * string)) (colorName : string)
  (st : SubGroupState) (j : nat) : SubGroupState :=
  if decide (j ∈ used st) then st
  else
    let otherColorName := (nth j members ("", "")).2 in
    if decide (otherColorName = "") then st
    else if decide (otherColorName ≠ colorName) then st
    else takeMember members j st.

(** One iteration of [for (size_t i = 0; i < group.second.size(); ++i)]. *)
Definition outerStep (members : list (string * string)) (st : SubGroupState) (i : nat)
  : SubGroupState :=
  if decide (i ∈ used st) then st
  else
    let colorName := forcedColorName in
    let st1 :=
      if decide (lastColorName st ≠ colorName ∨ lastColorName st = "")
      then {| used := used st;
              componentIdStrings := componentIdStrings st ++ [[]];
              currentSubGroupIndex := currentSubGroupIndex st + 1;
              lastColorName := colorName |}
      else st in
    if decide (currentSubGroupIndex st1 = -1)%Z then st1
    else
      let st2 := takeMember members i st1 in
      if decide (colorName = "") then st2
      else fold_left (innerStep members colorName)
             (seq (i + 1) (length members - (i + 1))) st2.

(** The sub-groups of one group: the vector [componentIdStrings] after
    the loop. *)
Definition subGroupByColor (members : list (string * string)) : list (list string) :=
  componentIdStrings
    (fold_left (outerStep members) (seq 0 (length members)) subGroupInit).

(** The member carries the colour name that the loop compares with. *)
Definition isForcedColor (member : string * string) : Prop :=
  member.2 = forcedColorName.

#[global] Instance isForcedColor_dec member : Decision (isForcedColor member).
Proof. unfold isForcedColor. apply _. Defined.

(** What holds between two iterations of the outer loop, from the
    second iteration on: one sub-group, and every later member of the
    forced colour already taken. *)
Definition outerInv (members : list (string * string)) (k : nat) (group : list string)
  (st : SubGroupState) : Prop :=
  componentIdStrings st = [group] ∧ currentSubGroupIndex st = 0%Z ∧
  lastColorName st = forcedColorName ∧
  ∀ j member, k ≤ j → members !! j = Some member →
              (j ∈ used st ↔ isForcedColor member).

End SubGrouping.

(** ** The generated object, and the meshes appended to it *)
Module Object.

(** The members of [dust3d::Object] (declared in [dust3d/base/object.h])
    that the collecting functions write. *)
Record Object {Vector3 ObjectNode ObjectEdge : Type} := {
  vertices : list Vector3;
  triangles : list (list nat);
  triangleAndQuads : list (list nat);
  nodes : list ObjectNode;
  edges : list ObjectEdge
}.
Arguments Object : clear implicits.

End Object.

Module GeneratedPart.

(** The members of [GeneratedPart], an entry of [m_cacheContext->parts],
    that [collectErroredParts] reads. *)
Record GeneratedPart {Vector3 : Type} := {
  vertices : list Vector3;
  faces : list (list nat);
  previewVertices : list Vector3;
  previewTriangles : list (list nat);
  isSuccessful : bool;
  joined : bool
}.
Arguments GeneratedPart : clear implicits.

End GeneratedPart.

Module Collect.

Section Model.

(** The width of [size_t] in bits; sums of indices wrap at
    [2 ^ size_bits]. *)
Variable size_bits : N.

(** [a += b] on [size_t]. *)
Definition size_add (a b : nat) : nat :=
  N.to_nat ((N.of_nat a + N.of_nat b) mod 2 ^ size_bits).

(** The lambda [updateVertexIndices] of [collectErroredParts] and
    [collectIncombinableMesh]: every index of every face is moved by
    [vertexStartIndex]. *)
Definition updateVertexIndices (faces : list (list nat)) (vertexStartIndex : nat)
  : list (list nat) :=
  map (fun it => map (fun subIt => size_add subIt vertexStartIndex) it) faces.

Context {Vector3 PositionKey ObjectNode ObjectEdge Mesh : Type} `{Countable PositionKey}.
Variable positionKey : Vector3 → PositionKey.
Variable Mesh_fetch : Mesh → list Vector3 * list (list nat).

Local Abbreviation Object := (Object.Object Vector3 ObjectNode ObjectEdge).
Local Abbreviation GeneratedPart := (GeneratedPart.GeneratedPart Vector3).

(** [collectIncombinableMesh]: [mesh] is a pointer, [sharedQuadEdges]
    the set of the component cache that is passed along.  [None] stands
    for the undefined behaviour of an index out of range inside
    [recoverQuads]. *)
Definition collectIncombinableMesh (mesh : option Mesh)
  (sharedQuadEdges : gset (PositionKey * PositionKey)) (m_object : Object)
  : option Object :=
  match mesh with
  | None => Some m_object
  | Some mesh =>
      let '(uncombinedVertices, uncombinedFaces) := Mesh_fetch mesh in
      uncombinedTriangleAndQuads ←
        Quads.recoverQuads positionKey uncombinedVertices uncombinedFaces
          sharedQuadEdges [];
      let vertexStartIndex := length (Object.vertices m_object) in
      Some {| Object.vertices := Object.vertices m_object ++ uncombinedVertices;
              Object.triangles :=
                Object.triangles m_object
                  ++ updateVertexIndices uncombinedFaces vertexStartIndex;
              Object.triangleAndQuads :=
                Object.triangleAndQuads m_object
                  ++ updateVertexIndices uncombinedTriangleAndQuads vertexStartIndex;
              Object.nodes := Object.nodes m_object;
              Object.edges := Object.edges m_object |}
  end.

(** One iteration of the loop of [collectErroredParts], for the cache
    entry [part]. *)
Definition collectErroredPart (m_object : Object) (part : GeneratedPart) : Object :=
  if GeneratedPart.isSuccessful part then m_object
  else if negb (GeneratedPart.joined part) then m_object
  else
    let errorTriangleAndQuads :=
      updateVertexIndices (GeneratedPart.faces part) (length (Object.vertices m_object)) in
    let vertices1 := Object.vertices m_object ++ GeneratedPart.vertices part in
    let errorTriangles :=
      updateVertexIndices (GeneratedPart.previewTriangles part) (length vertices1) in
    {| Object.vertices := vertices1 ++ GeneratedPart.previewVertices part;
       Object.triangles := Object.triangles m_object ++ errorTriangles;
       Object.triangleAndQuads := Object.triangleAndQuads m_object ++ errorTriangleAndQuads;
       Object.nodes := Object.nodes m_object;
       Object.edges := Object.edges m_object |}.

(** [collectErroredParts]: [parts] are the entries of
    [m_cacheContext->parts] in the order of the map, that is, by part
    id. *)
Definition collectErroredParts (parts : list (string * GeneratedPart))
  (m_object : Object) : Object :=
  fold_left (fun object it => collectErroredPart object it.2) parts m_object.

(** Every index of every face is below [n]. *)
Definition indicesBelow (n : nat) (faces : list (list nat)) : Prop :=
  Forall (Forall (fun index => index < n)) faces.

(** The faces of the object address vertices of the object. *)
Definition wellIndexed (m_object : Object) : Prop :=
  indicesBelow (length (Object.vertices m_object)) (Object.triangles m_object) ∧
  indicesBelow (length (Object.vertices m_object)) (Object.triangleAndQuads m_object).




End Model.

(** An object of one vertex and no face, for the examples. *)
Definition pointObject : Object.Object (Z * Z * Z) unit unit :=
  {| Object.vertices := [(5, 5, 5)%Z]; Object.triangles := [];
     Object.triangleAndQuads := []; Object.nodes := []; Object.edges := [] |}.

(** A cached part that failed: one triangle, and the same triangle as
    preview. *)
Definition failedPart : GeneratedPart.GeneratedPart (Z * Z * Z) :=
  {| GeneratedPart.vertices := [(0, 0, 0); (1, 0, 0); (1, 1, 0)]%Z;
     GeneratedPart.faces := [[0; 1; 2]];
     GeneratedPart.previewVertices := [(0, 0, 0); (1, 0, 0); (1, 1, 0)]%Z;
     GeneratedPart.previewTriangles := [[2; 0; 1]];
     GeneratedPart.isSuccessful := false;
     GeneratedPart.joined := true |}.

End Collect.

(** ** collectUncombinedComponent and collectIncombinableComponentMeshes *)
Module GeneratedComponent.

(** The members of [GeneratedComponent], an entry of
    [m_cacheContext->components], that the collecting functions read. *)
Record GeneratedComponent
  {Mesh PositionKey ObjectNode ObjectEdge NodeVertex : Type}
  `{Countable PositionKey} := {
  mesh : option Mesh;
  sharedQuadEdges : gset (PositionKey * PositionKey);
  objectNodes : list ObjectNode;
  objectEdges : list ObjectEdge;
  objectNodeVertices : list NodeVertex;
  incombinableMeshes : list (option Mesh)
}.
Arguments GeneratedComponent _ _ _ _ _ {_ _}.

End GeneratedComponent.

Module Traverse.

Import Snapshot.

(** How a call ends: it returns, or it runs into undefined behaviour (a
    null pointer is dereferenced, a vector is indexed out of range), or
    the recursion is deeper than the bound of the model. *)
Inductive Outcome (A : Type) :=
  | Done (a : A)
  | Undefined
  | OutOfFuel.
Arguments Done {A} a.
Arguments Undefined {A}.
Arguments OutOfFuel {A}.

Definition andThen {A B} (first : Outcome A) (next : A → Outcome B) : Outcome B :=
  match first with
  | Done a => next a
  | Undefined => Undefined
  | OutOfFuel => OutOfFuel
  end.

(** [for (const auto &childId: children) { if (childId.empty()) continue;
    visit(childId); }] *)
Fixpoint forEachChild {S} (visit : string → S → Outcome S) (children : list string)
  (st : S) : Outcome S :=
  match children with
  | [] => Done st
  | childId :: rest =>
      if decide (childId = "") then forEachChild visit rest st
      else andThen (visit childId st) (forEachChild visit rest)
  end.

Section Model.

Variable size_bits : N.
Context {Vector3 PositionKey ObjectNode ObjectEdge NodeVertex Mesh : Type}
  `{Countable PositionKey}.
Variable positionKey : Vector3 → PositionKey.
Variable Mesh_fetch : Mesh → list Vector3 * list (list nat).
Variable isNull : Mesh → bool.

(** Declared in [dust3d/base], outside the sources. *)
Variable String_isTrue : string → bool.
Variable String_split : string → ascii → list string.
Variable CombineModeFromString : string → CombineMode.
Variable m_snapshot : Snapshot.

Local Abbreviation Object := (Object.Object Vector3 ObjectNode ObjectEdge).
Local Abbreviation GeneratedComponent :=
  (GeneratedComponent.GeneratedComponent Mesh PositionKey ObjectNode ObjectEdge NodeVertex).

(** A default-constructed [GeneratedComponent], which
    [m_cacheContext->components[id]] inserts when the id has no entry;
    the struct is declared outside the sources. *)
Variable GeneratedComponent_default : GeneratedComponent.

(** What the two functions write: [m_object], [m_nodeVertices],
    [m_isSuccessful] and the component cache. *)
Record State := {
  m_object : Object;
  m_nodeVertices : list NodeVertex;
  m_isSuccessful : bool;
  m_cacheContext_components : gmap string GeneratedComponent
}.

(** [m_cacheContext->components[componentIdString]]: the entry, and the
    cache with the entry in it. *)
Definition componentCacheAt (componentIdString : string)
  (cache : gmap string GeneratedComponent)
  : GeneratedComponent * gmap string GeneratedComponent :=
  let componentCache := default GeneratedComponent_default (cache !! componentIdString) in
  (componentCache, <[componentIdString := componentCache]> cache).

Local Abbreviation findComponent := (Grouping.findComponent m_snapshot).
Local Abbreviation componentCombineMode :=
  (Grouping.componentCombineMode String_isTrue CombineModeFromString).

(** [collectUncombinedComponent]; [fuel] bounds the depth of the
    recursion. *)
Fixpoint collectUncombinedComponent (fuel : nat) (componentIdString : string)
  (st : State) : Outcome State :=
  match fuel with
  | 0 => OutOfFuel
  | S fuel' =>
      let component := findComponent componentIdString in
      if decide (componentCombineMode component = Uncombined) then
        let '(componentCache, cache) :=
          componentCacheAt componentIdString (m_cacheContext_components st) in
        let st1 := {| m_object := m_object st; m_nodeVertices := m_nodeVertices st;
                      m_isSuccessful := m_isSuccessful st;
                      m_cacheContext_components := cache |} in
        match GeneratedComponent.mesh componentCache with
        | None => Done st1
        | Some mesh =>
            if isNull mesh then Done st1
            else
              let object1 : Object :=
                {| Object.vertices := Object.vertices (m_object st);
                   Object.triangles := Object.triangles (m_object st);
                   Object.triangleAndQuads := Object.triangleAndQuads (m_object st);
                   Object.nodes :=
                     Object.nodes (m_object st)
                       ++ GeneratedComponent.objectNodes componentCache;
                   Object.edges :=
                     Object.edges (m_object st)
                       ++ GeneratedComponent.objectEdges componentCache |} in
              match Collect.collectIncombinableMesh size_bits positionKey Mesh_fetch
                      (Some mesh) (GeneratedComponent.sharedQuadEdges componentCache)
                      object1 with
              | None => Undefined
              | Some object2 =>
                  Done {| m_object := object2;
                          m_nodeVertices :=
                            m_nodeVertices st
                              ++ GeneratedComponent.objectNodeVertices componentCache;
                          m_isSuccessful := m_isSuccessful st;
                          m_cacheContext_components := cache |}
              end
        end
      else
        match component with
        | None => Undefined (* *component, with component == nullptr *)
        | Some component =>
            forEachChild (collectUncombinedComponent fuel')
              (String_split (valueOrEmpty component "children") ","%char) st
        end
  end.

(** The loop over [componentCache.incombinableMeshes]. *)
Fixpoint collectIncombinableMeshes (meshes : list (option Mesh))
  (sharedQuadEdges : gset (PositionKey * PositionKey)) (object : Object) (successful : bool)
  : Outcome (Object * bool) :=
  match meshes with
  | [] => Done (object, successful)
  | mesh :: rest =>
      match Collect.collectIncombinableMesh size_bits positionKey Mesh_fetch mesh
              sharedQuadEdges object with
      | None => Undefined
      | Some object' => collectIncombinableMeshes rest sharedQuadEdges object' false
      end
  end.

(** [collectIncombinableComponentMeshes]. *)
Fixpoint collectIncombinableComponentMeshes (fuel : nat) (componentIdString : string)
  (st : State) : Outcome State :=
  match fuel with
  | 0 => OutOfFuel
  | S fuel' =>
      let component := findComponent componentIdString in
      if decide (componentCombineMode component = Uncombined) then Done st
      else
        let '(componentCache, cache) :=
          componentCacheAt componentIdString (m_cacheContext_components st) in
        andThen
          (collectIncombinableMeshes (GeneratedComponent.incombinableMeshes componentCache)
             (GeneratedComponent.sharedQuadEdges componentCache)
             (m_object st) (m_isSuccessful st))
          (fun r =>
             let st1 := {| m_object := r.1; m_nodeVertices := m_nodeVertices st;
                           m_isSuccessful := r.2;
                           m_cacheContext_components := cache |} in
             match component with
             | None => Undefined (* *component, with component == nullptr *)
             | Some component =>
                 forEachChild (collectIncombinableComponentMeshes fuel')
                   (String_split (valueOrEmpty component "children") ","%char) st1
             end)
  end.

(** *** Notions used to state what the traversals reach *)

(** [child] is listed in the children of [parent], and [parent] is a
    component that the traversals walk through: it exists and its
    combine mode is not [Uncombined]. *)
Definition walksTo (parent child : string) : Prop :=
  ∃ component,
    findComponent parent = Some component ∧
    componentCombineMode (Some component) ≠ Uncombined ∧
    child ≠ "" ∧
    child ∈ String_split (valueOrEmpty component "children") ","%char.

(** The entry of the component cache as the traversals read it. *)
Definition cached (cache : gmap string GeneratedComponent) (componentIdString : string)
  : GeneratedComponent :=
  default GeneratedComponent_default (cache !! componentIdString).

(** The component is [Uncombined] and its cached mesh is a mesh that is
    not null. *)
Definition isCollected (cache : gmap string GeneratedComponent)
  (componentIdString : string) : Prop :=
  componentCombineMode (findComponent componentIdString) = Uncombined ∧
  ∃ mesh, GeneratedComponent.mesh (cached cache componentIdString) = Some mesh ∧
          isNull mesh = false.

(** The list [field] of the state has gained exactly the members of
    the lists [part] of the collected components that can be walked to
    from [componentIdString]. *)
Definition gathers {X} (field : State → list X) (part : GeneratedComponent → list X)
  (componentIdString : string) (st st' : State) : Prop :=
  ∀ x, x ∈ field st' ↔
       x ∈ field st ∨
       ∃ d, rtc walksTo componentIdString d ∧
            isCollected (m_cacheContext_components st) d ∧
            x ∈ part (cached (m_cacheContext_components st) d).

(** What a call of [collectUncombinedComponent] that returns [st'] has
    done. *)
Definition uncombinedPost (componentIdString : string) (st st' : State) : Prop :=
  (∀ d, cached (m_cacheContext_components st') d
        = cached (m_cacheContext_components st) d) ∧
  m_isSuccessful st' = m_isSuccessful st ∧
  (∀ d, rtc walksTo componentIdString d → is_Some (findComponent d)) ∧
  gathers (fun st => Object.nodes (m_object st)) GeneratedComponent.objectNodes
    componentIdString st st' ∧
  gathers (fun st => Object.edges (m_object st)) GeneratedComponent.objectEdges
    componentIdString st st' ∧
  gathers m_nodeVertices GeneratedComponent.objectNodeVertices componentIdString st st'.

(** A component that [collectIncombinableComponentMeshes] visits and
    that has a mesh in [incombinableMeshes]. *)
Definition hasIncombinable (cache : gmap string GeneratedComponent)
  (componentIdString : string) : Prop :=
  componentCombineMode (findComponent componentIdString) ≠ Uncombined ∧
  GeneratedComponent.incombinableMeshes (cached cache componentIdString) ≠ [].

(** What a call of [collectIncombinableComponentMeshes] that returns
    [st'] has done. *)
Definition incombinablePost (componentIdString : string) (st st' : State) : Prop :=
  (∀ d, cached (m_cacheContext_components st') d
        = cached (m_cacheContext_components st) d) ∧
  (∀ d, rtc walksTo componentIdString d → is_Some (findComponent d)) ∧
  Object.nodes (m_object st') = Object.nodes (m_object st) ∧
  Object.edges (m_object st') = Object.edges (m_object st) ∧
  m_nodeVertices st' = m_nodeVertices st ∧
  (m_isSuccessful st' = false ↔
   m_isSuccessful st = false ∨
   ∃ d, rtc walksTo componentIdString d ∧
        hasIncombinable (m_cacheContext_components st) d).


End Model.

(** The example: under the root, a component [body] that is combined
    and a component [hat] that is [Uncombined]; [body] has a child
    [hair], also [Uncombined], and the root lists a child [ghost] that
    names no component. *)
Definition hatSnapshot (rootChildren : string) : Snapshot :=
  {| canvas := ∅; nodes := ∅; edges := ∅; parts := ∅;
     components :=
       {[ "body" := {[ "children" := "hair" ]};
          "hat" := {[ "combineMode" := "Uncombined" ]};
          "hair" := {[ "combineMode" := "Uncombined" ]} ]};
     rootComponent := {[ "children" := rootChildren ]} |}.

(** Cache entries for the example: meshes are their fetched content,
    nodes are names.  The body has a mesh that could not be combined,
    and so has the hat. *)
Definition toyComponent (mesh : option (list (Z * Z * Z) * list (list nat)))
  (nodeNames : list string)
  (incombinable : list (option (list (Z * Z * Z) * list (list nat))))
  : GeneratedComponent.GeneratedComponent (list (Z * Z * Z) * list (list nat))
      (Z * Z * Z) string unit unit :=
  {| GeneratedComponent.mesh := mesh;
     GeneratedComponent.sharedQuadEdges := ∅;
     GeneratedComponent.objectNodes := nodeNames;
     GeneratedComponent.objectEdges := [];
     GeneratedComponent.objectNodeVertices := [];
     GeneratedComponent.incombinableMeshes := incombinable |}.

Definition toyState : @State (Z * Z * Z) (Z * Z * Z) string unit unit
                         (list (Z * Z * Z) * list (list nat)) _ _ :=
  {| m_object := {| Object.vertices := []; Object.triangles := [];
                    Object.triangleAndQuads := []; Object.nodes := [];
                    Object.edges := [] |};
     m_nodeVertices := []; m_isSuccessful := true;
     m_cacheContext_components :=
       {[ "hat" := toyComponent (Some (Quads.squareVertices, [[0; 1; 2]])) ["hatNode"]
                     [Some (Quads.squareVertices, [[3; 4; 5]])];
          "hair" := toyComponent (Some (Quads.squareVertices, [[0; 2; 3]])) ["hairNode"] [];
          "body" := toyComponent (Some (Quads.squareVertices, [[1; 2; 3]])) ["bodyNode"]
                      [None; Some (Quads.squareVertices, [[0; 1; 3]])] ]} |}.

Definition toyCollectUncombined (rootChildren : string) (fuel : nat) :=
  collectUncombinedComponent 64 Quads.latticeKey (fun mesh => mesh)
    (fun mesh => bool_decide (mesh.2 = [])) isTrueModel splitModel
    CombineModeFromStringModel (hatSnapshot rootChildren) (toyComponent None [] [])
    fuel nilUuidString toyState.

Definition toyCollectIncombinable (rootChildren : string) (fuel : nat) :=
  collectIncombinableComponentMeshes 64 Quads.latticeKey (fun mesh => mesh)
    isTrueModel splitModel CombineModeFromStringModel (hatSnapshot rootChildren)
    (toyComponent None [] []) fuel nilUuidString toyState.

End Traverse.

(** ** generate: dropping the cache entries of parts and components that are gone *)
Module CacheCleanup.

Import Snapshot.

Section Model.

(** The cached parts and components are kept abstract; the cached
    combinations are [MeshCombiner::Mesh *], possibly [nullptr]. *)
Context {GeneratedPart GeneratedComponent Mesh : Type}.

(** The snapshot has the part [partId], or the cache knows [partId] as
    the mirror of a part that the snapshot has. *)
Definition partIsLive (snapshotParts : gmap string Attributes)
  (partMirrorIdMap : gmap string string) (partId : string) : bool :=
  bool_decide (is_Some (snapshotParts !! partId)) ||
  match partMirrorIdMap !! partId with
  | Some mirrorFrom => bool_decide (is_Some (snapshotParts !! mirrorFrom))
  | None => false
  end.

(** One iteration of the loop over [m_cacheContext->parts], at the entry
    of key [partId]; the state is the part cache and [partMirrorIdMap]. *)
Definition evictStalePart (snapshotParts : gmap string Attributes) (partId : string)
  (st : gmap string GeneratedPart * gmap string string)
  : gmap string GeneratedPart * gmap string string :=
  if decide (snapshotParts !! partId = None) then
    match st.2 !! partId with
    | Some mirrorFrom =>
        if decide (snapshotParts !! mirrorFrom ≠ None) then st
        else (delete partId st.1, delete partId st.2)
    | None => (delete partId st.1, st.2)
    end
  else st.

(** The loop over [m_cacheContext->parts] (lines 1462-1477). *)
Definition evictStaleParts (snapshotParts : gmap string Attributes)
  (parts : gmap string GeneratedPart) (partMirrorIdMap : gmap string string)
  : gmap string GeneratedPart * gmap string string :=
  map_fold (fun partId _ st => evictStalePart snapshotParts partId st)
    (parts, partMirrorIdMap) parts.

(** One iteration of the loop over [m_cacheContext->components]; the
    state is the component cache and [cachedCombination]. *)
Definition evictStaleComponent (snapshotComponents : gmap string Attributes)
  (componentId : string)
  (st : gmap string GeneratedComponent * gmap string (option Mesh))
  : gmap string GeneratedComponent * gmap string (option Mesh) :=
  if decide (snapshotComponents !! componentId = None) then
    (delete componentId st.1, Cache.evictCombinations componentId st.2)
  else st.

(** The loop over [m_cacheContext->components] (lines 1478-1493). *)
Definition evictStaleComponents (snapshotComponents : gmap string Attributes)
  (components : gmap string GeneratedComponent)
  (cachedCombination : gmap string (option Mesh))
  : gmap string GeneratedComponent * gmap string (option Mesh) :=
  map_fold (fun componentId _ st => evictStaleComponent snapshotComponents componentId st)
    (components, cachedCombination) components.

(** A component id that is cached and that the snapshot does not have. *)
Definition isStale (snapshotComponents : gmap string Attributes)
  (components : gmap string GeneratedComponent) (componentId : string) : Prop :=
  is_Some (components !! componentId) ∧ snapshotComponents !! componentId = None.

End Model.

End CacheCleanup.

(** ** generateSmoothTriangleVertexNormals *)
Module Normals.

(** [v.resize(n, filler)]: the first [n] elements, followed by copies of
    [filler] when there were fewer. *)
Definition resize {A} (n : nat) (filler : A) (v : list A) : list A :=
  take n v ++ replicate (n - length v) filler.

Section Model.

(** [zero] is [Vector3()]. *)
Context {Vector3 : Type}.
Variable zero : Vector3.

(** The body of the loop over [j]: the state is [index] and the three
    normals of the triangle.  [None] stands for [normals[j]] out of
    range.  [index] counts up to three times the number of triangles,
    each of which has a vector of its own in [*triangleVertexNormals],
    so the counter cannot wrap. *)
Definition assignNormal (smoothNormals : list Vector3) (st : nat * list Vector3)
  (j : nat) : option (nat * list Vector3) :=
  let '(index, normals) := st in
  if decide (index < length smoothNormals) then
    if decide (j < length normals)
    then Some (S index, <[j := nth index smoothNormals zero]> normals)
    else None
  else Some (S index, normals).

Fixpoint assignNormals (smoothNormals : list Vector3) (js : list nat)
  (st : nat * list Vector3) : option (nat * list Vector3) :=
  match js with
  | [] => Some st
  | j :: rest =>
      st' ← assignNormal smoothNormals st j;
      assignNormals smoothNormals rest st'
  end.

(** The loop over the triangles, from [index] on, over the entries
    [triangleVertexNormals] that the [resize] has left. *)
Fixpoint fillNormals (smoothNormals : list Vector3) (index : nat)
  (triangleVertexNormals : list (list Vector3)) : option (list (list Vector3)) :=
  match triangleVertexNormals with
  | [] => Some []
  | normals :: rest =>
      st ← assignNormals smoothNormals [0; 1; 2] (index, normals);
      filled ← fillNormals smoothNormals st.1 rest;
      Some (st.2 :: filled)
  end.

(** [generateSmoothTriangleVertexNormals], after the call of
    [smoothNormal] (declared in [dust3d/mesh/smooth_normal.h], outside
    the sources), whose output is [smoothNormals]; [trianglesSize] is
    [triangles.size()], and the result is the content of
    [*triangleVertexNormals] after the call. *)
Definition generateSmoothTriangleVertexNormals (smoothNormals : list Vector3)
  (trianglesSize : nat) (triangleVertexNormals : list (list Vector3))
  : option (list (list Vector3)) :=
  fillNormals smoothNormals 0
    (resize trianglesSize [zero; zero; zero] triangleVertexNormals).

(** The normal number [k] of the output of [smoothNormal], [Vector3()]
    when there is none. *)
Definition smoothNormalAt (smoothNormals : list Vector3) (k : nat) : Vector3 :=
  default zero (smoothNormals !! k).

End Model.

End Normals.

(** ** preprocessMirror *)
Module MirrorPreprocess.
Import Snapshot ReverseUuid.

(** The entries of a [std::map] with string keys in the order in which a
    range-based [for] visits them: by key, compared as
    [std::less<std::string>] does, character by character on the
    character codes. *)
Definition keyLe {A} (a b : string * A) : Prop := String.leb a.1 b.1.

Definition entries {A} (m : gmap string A) : list (string * A) :=
  merge_sort keyLe (map_to_list m).

(** [m[key]] read on a [std::map<std::string, std::string>] that is not
    const: the value, and the map, in which a key that was absent now
    has the empty string. *)
Definition subscript (m : Attributes) (key : string) : string * Attributes :=
  match m !! key with
  | Some value => (value, m)
  | None => ("", <[key := ""]> m)
  end.

(** A loop whose body may throw. *)
Fixpoint forEach {A B} (body : B → A → option B) (l : list A) (b : B) : option B :=
  match l with
  | [] => Some b
  | a :: rest => b' ← body b a; forEach body rest b'
  end.

Section Model.

(** Declared in [dust3d/base], outside the sources. *)
Variable String_isTrue : string → bool.
Variable String_split : string → ascii → list string.
Variable Uuid_to_string : string → string.

(** The body of the first loop; the state is [newParts] and
    [partOldToNewMap].  [std::map::insert] leaves an entry that exists
    as it is. *)
Definition mirrorPart (acc : list Attributes * gmap string string)
  (partIt : string * Attributes) : option (list Attributes * gmap string string) :=
  let '(newParts, partOldToNewMap) := acc in
  let xMirrored := String_isTrue (valueOrEmpty partIt.2 "xMirrored") in
  if negb xMirrored then Some acc
  else
    let mirroredPart := partIt.2 in
    let '(id, mirroredPart) := subscript mirroredPart "id" in
    newPartIdString ← reverseUuid Uuid_to_string id;
    let '(id, mirroredPart) := subscript mirroredPart "id" in
    let partOldToNewMap :=
      match partOldToNewMap !! id with
      | Some _ => partOldToNewMap
      | None => <[id := newPartIdString]> partOldToNewMap
      end in
    let '(id, mirroredPart) := subscript mirroredPart "id" in
    let mirroredPart := <["__mirrorFromPartId" := id]> mirroredPart in
    let mirroredPart := <["id" := newPartIdString]> mirroredPart in
    let mirroredPart := <["__dirty" := "true"]> mirroredPart in
    Some (newParts ++ [mirroredPart], partOldToNewMap).

(** [m_snapshot->parts[it.second]["__mirroredByPartId"] = it.first]:
    both subscripts create what is absent. *)
Definition markMirroredBy (parts : gmap string Attributes) (it : string * string)
  : gmap string Attributes :=
  <[it.2 := <["__mirroredByPartId" := it.1]> (default ∅ (parts !! it.2))]> parts.

(** The loop over the children named by a [children] attribute, which
    records [parent] for each of them. *)
Definition recordParent (parent : string) (parentMap : Attributes) (childId : string)
  : Attributes :=
  if decide (childId = "") then parentMap else <[childId := parent]> parentMap.

Definition recordParents (parent : string) (children : string) (parentMap : Attributes)
  : Attributes :=
  fold_left (recordParent parent) (String_split children ","%char) parentMap.

Definition buildParentMap (components : gmap string Attributes) (rootComponent : Attributes)
  : Attributes :=
  let parentMap :=
    fold_left (fun parentMap (componentIt : string * Attributes) =>
                 recordParents componentIt.1 (valueOrEmpty componentIt.2 "children") parentMap)
      (entries components) ∅ in
  recordParents "" (valueOrEmpty rootComponent "children") parentMap.

(** The body of the loop that copies the components of the mirrored
    parts; the state is [newComponents] and [parentMap]. *)
Definition mirrorComponent (partOldToNewMap : gmap string string)
  (acc : list Attributes * Attributes) (componentIt : string * Attributes)
  : option (list Attributes * Attributes) :=
  let '(newComponents, parentMap) := acc in
  let linkDataType := valueOrEmpty componentIt.2 "linkDataType" in
  if decide ("partId" ≠ linkDataType) then Some acc
  else
    let partIdString := valueOrEmpty componentIt.2 "linkData" in
    match partOldToNewMap !! partIdString with
    | None => Some acc
    | Some findPart =>
        let mirroredComponent := componentIt.2 in
        let '(id, mirroredComponent) := subscript mirroredComponent "id" in
        newComponentIdString ← reverseUuid Uuid_to_string id;
        let mirroredComponent := <["linkData" := findPart]> mirroredComponent in
        let mirroredComponent := <["id" := newComponentIdString]> mirroredComponent in
        let mirroredComponent := <["__dirty" := "true"]> mirroredComponent in
        let '(parent, parentMap) := subscript parentMap (valueOrEmpty componentIt.2 "id") in
        let parentMap := <[newComponentIdString := parent]> parentMap in
        Some (newComponents ++ [mirroredComponent], parentMap)
    end.

(** [m_snapshot->parts[String::valueOrEmpty(it, "id")] = it]. *)
Definition addPart (parts : gmap string Attributes) (it : Attributes)
  : gmap string Attributes :=
  <[valueOrEmpty it "id" := it]> parts.

(** [attributes["children"] += "," + idString]. *)
Definition appendChild (attributes : Attributes) (idString : string) : Attributes :=
  <["children" := valueOrEmpty attributes "children" +:+ ("," +:+ idString)]> attributes.

(** The body of the last loop; the state is [parentMap], the components
    and the root component of the snapshot. *)
Definition addComponent (st : Attributes * gmap string Attributes * Attributes)
  (it : Attributes) : Attributes * gmap string Attributes * Attributes :=
  let '(parentMap, components, rootComponent) := st in
  let idString := valueOrEmpty it "id" in
  let '(parentIdString, parentMap) := subscript parentMap idString in
  let components := <[idString := it]> components in
  if decide (parentIdString = "") then
    (parentMap, components, appendChild rootComponent idString)
  else
    (parentMap,
     <[parentIdString := appendChild (default ∅ (components !! parentIdString)) idString]>
       components,
     rootComponent).

(** [preprocessMirror], on [*m_snapshot]; [None] when [reverseUuid]
    throws. *)
Definition preprocessMirror (m_snapshot : Snapshot) : option Snapshot :=
  '(newParts, partOldToNewMap) ←
    forEach mirrorPart (entries (parts m_snapshot)) ([], ∅);
  let parts := fold_left markMirroredBy (entries partOldToNewMap) (parts m_snapshot) in
  let parentMap := buildParentMap (components m_snapshot) (rootComponent m_snapshot) in
  '(newComponents, parentMap) ←
    forEach (mirrorComponent partOldToNewMap) (entries (components m_snapshot))
      ([], parentMap);
  let parts := fold_left addPart newParts parts in
  let '(_, components, rootComponent) :=
    fold_left addComponent newComponents
      (parentMap, components m_snapshot, rootComponent m_snapshot) in
  Some {| canvas := canvas m_snapshot; nodes := nodes m_snapshot;
          edges := edges m_snapshot; parts := parts;
          components := components; rootComponent := rootComponent |}.

(** *** Notions used to state what the function does *)

(** The part is x-mirrored and its mirror has the id [newId]. *)
Definition partMirrorsTo (part : Attributes) (newId : string) : Prop :=
  String_isTrue (valueOrEmpty part "xMirrored") = true ∧
  reverseUuid Uuid_to_string (valueOrEmpty part "id") = Some newId.

(** The mirror of a part. *)
Definition mirroredPartOf (part : Attributes) (newId : string) : Attributes :=
  <["__dirty" := "true"]>
    (<["id" := newId]> (<["__mirrorFromPartId" := valueOrEmpty part "id"]> part)).

(** Some x-mirrored part of the snapshot has the id [partId]. *)
Definition isMirroredPartId (m_snapshot : Snapshot) (partId : string) : Prop :=
  ∃ key part, parts m_snapshot !! key = Some part ∧
    String_isTrue (valueOrEmpty part "xMirrored") = true ∧
    valueOrEmpty part "id" = partId.

(** The component links to an x-mirrored part, whose mirror has the id
    [newPartId], and its own copy has the id [newId]. *)
Definition componentMirrorsTo (m_snapshot : Snapshot) (component : Attributes)
  (newPartId newId : string) : Prop :=
  valueOrEmpty component "linkDataType" = "partId" ∧
  isMirroredPartId m_snapshot (valueOrEmpty component "linkData") ∧
  reverseUuid Uuid_to_string (valueOrEmpty component "linkData") = Some newPartId ∧
  reverseUuid Uuid_to_string (valueOrEmpty component "id") = Some newId.

(** The copy of a component. *)
Definition mirroredComponentOf (component : Attributes) (newPartId newId : string)
  : Attributes :=
  <["__dirty" := "true"]> (<["id" := newId]> (<["linkData" := newPartId]> component)).

(** Every parent recorded in [parentMap] is the root (the empty string)
    or a component of the snapshot. *)
Definition parentsKnown (components : gmap string Attributes) (parentMap : Attributes)
  : Prop :=
  ∀ child parent, parentMap !! child = Some parent →
    parent = "" ∨ is_Some (components !! parent).

(** The same attributes, [children] apart. *)
Definition sameButChildren (a b : Attributes) : Prop :=
  ∀ key, key ≠ "children" → a !! key = b !! key.

(** *** Invariants of the loops *)

(** What the first loop has collected after the entries [visited]. *)
Definition partsCollected (visited : list (string * Attributes))
  (acc : list Attributes * gmap string string) : Prop :=
  (∀ it, it ∈ acc.1 ↔
     ∃ key part newId, (key, part) ∈ visited ∧ partMirrorsTo part newId ∧
                       it = mirroredPartOf part newId) ∧
  (∀ old newId, acc.2 !! old = Some newId ↔
     (∃ key part, (key, part) ∈ visited ∧
                  String_isTrue (valueOrEmpty part "xMirrored") = true ∧
                  valueOrEmpty part "id" = old) ∧
     reverseUuid Uuid_to_string old = Some newId).

(** What the loop over the components has collected after the entries
    [visited]. *)
Definition componentsCollected (components : gmap string Attributes)
  (partOldToNewMap : gmap string string) (visited : list (string * Attributes))
  (acc : list Attributes * Attributes) : Prop :=
  (∀ it, it ∈ acc.1 ↔
     ∃ key component newPartId newId,
       (key, component) ∈ visited ∧
       valueOrEmpty component "linkDataType" = "partId" ∧
       partOldToNewMap !! valueOrEmpty component "linkData" = Some newPartId ∧
       reverseUuid Uuid_to_string (valueOrEmpty component "id") = Some newId ∧
       it = mirroredComponentOf component newPartId newId) ∧
  parentsKnown components acc.2.

(** What the last loop has done after the new components [visited]. *)
Definition componentsAdded (components : gmap string Attributes) (rootComponent : Attributes)
  (visited : list Attributes)
  (st : Attributes * gmap string Attributes * Attributes) : Prop :=
  parentsKnown components st.1.1 ∧
  (∀ k,
     (∃ it c', it ∈ visited ∧ valueOrEmpty it "id" = k ∧
               st.1.2 !! k = Some c' ∧ sameButChildren c' it) ∨
     ((∀ it, it ∈ visited → valueOrEmpty it "id" ≠ k) ∧
      option_Forall2 sameButChildren (st.1.2 !! k) (components !! k))) ∧
  sameButChildren st.2 rootComponent.

End Model.

(** A snapshot with one x-mirrored part, linked by the component [arm]
    under the root, and one part that is not mirrored. *)
Definition armPartId : string := "{01234567-89ab-cdef-0123-456789abcdef}".
Definition legPartId : string := "{11111111-2222-3333-4444-555555555555}".
Definition armComponentId : string := "{aaaaaaaa-bbbb-cccc-dddd-eeeeeeeeeeee}".

Definition mirrorSnapshot : Snapshot :=
  {| canvas := ∅; nodes := ∅; edges := ∅;
     parts := {[ armPartId := {[ "id" := armPartId; "xMirrored" := "true" ]};
                 legPartId := {[ "id" := legPartId ]} ]};
     components := {[ armComponentId :=
                        {[ "id" := armComponentId; "linkDataType" := "partId";
                           "linkData" := armPartId ]} ]};
     rootComponent := {[ "children" := armComponentId ]} |}.

(** A snapshot without mirrored parts. *)
Definition plainSnapshot : Snapshot :=
  {| canvas := ∅; nodes := ∅; edges := ∅;
     parts := {[ legPartId := {[ "id" := legPartId ]} ]};
     components := {[ armComponentId :=
                        {[ "id" := armComponentId; "linkDataType" := "partId";
                           "linkData" := legPartId ]} ]};
     rootComponent := {[ "children" := armComponentId ]} |}.

End MirrorPreprocess.

(** * Part II: properties of the model *)

(** ** isWatertight *)
Module WatertightFacts.
Import Watertight.

Example isWatertight_tetrahedron :
  isWatertight [[0; 1; 2]; [0; 3; 1]; [1; 3; 2]; [2; 3; 0]] = true.
Proof. vm_compute. reflexivity. Qed.

Example isWatertight_open_triangle : isWatertight [[0; 1; 2]] = false.
Proof. vm_compute. reflexivity. Qed.

Example isWatertight_repeated_edge :
  isWatertight [[0; 1; 2]; [0; 1; 3]] = false.
Proof. vm_compute. reflexivity. Qed.

Lemma insertAll_app es1 es2 s :
  insertAll (es1 ++ es2) s =
  match insertAll es1 s with None => None | Some s' => insertAll es2 s' end.
Proof.
  revert s. induction es1 as [|e es1 IH]; intros s; simpl; [done|].
  destruct (insertHalfEdge e s); [apply IH | done].
Qed.

Lemma insertFaceHalfEdges_insertAll face idxs s :
  insertFaceHalfEdges face idxs s = insertAll (map (faceHalfEdge face) idxs) s.
Proof.
  revert s. induction idxs as [|i idxs IH]; intros s; simpl; [done|].
  destruct (insertHalfEdge _ s); [apply IH | done].
Qed.

Lemma insertFacesHalfEdges_insertAll faces s :
  insertFacesHalfEdges faces s = insertAll (halfEdgeList faces) s.
Proof.
  revert s. induction faces as [|face rest IH]; intros s; simpl; [done|].
  rewrite insertAll_app, insertFaceHalfEdges_insertAll.
  unfold faceHalfEdgeList. destruct (insertAll _ s); [apply IH | done].
Qed.

Lemma insertAll_Some es s s' :
  insertAll es s = Some s' ↔
  NoDup es ∧ (∀ e, e ∈ es → e ∉ s) ∧ s' = list_to_set es ∪ s.
Proof.
  revert s s'. induction es as [|e es IH]; intros s s'; simpl.
  - split.
    + intros [= <-]. split; [constructor|]. split; [set_solver|set_solver].
    + intros (_ & _ & ->). f_equal. set_solver.
  - unfold insertHalfEdge. destruct (decide (e ∈ s)) as [Hin|Hnin].
    + split; [done|]. intros (_ & Hd & _). exfalso. apply (Hd e); [left|done].
    + rewrite IH. rewrite NoDup_cons. split.
      * intros (Hnd & Hd & ->). split; [split; [|done]|split].
        -- intros He. apply (Hd e He). set_solver.
        -- intros x Hx. apply elem_of_cons in Hx as [->|Hx]; [done|].
           intros Hxs. apply (Hd x Hx). set_solver.
        -- set_solver.
      * intros ((He & Hnd) & Hd & ->). split; [done|]. split.
        -- intros x Hx Hxs. apply elem_of_union in Hxs as [Hxs|Hxs].
           ++ apply elem_of_singleton in Hxs as ->. done.
           ++ apply (Hd x); [by right|done].
        -- set_solver.
Qed.

Lemma allOppositesPresent_true s :
  allOppositesPresent s = true ↔ ∀ a b, (a, b) ∈ s → (b, a) ∈ s.
Proof.
  unfold allOppositesPresent. rewrite forallb_forall. split.
  - intros H a b Hab. specialize (H (a, b)).
    rewrite bool_decide_eq_true in H. apply H.
    apply list_elem_of_In, elem_of_elements, Hab.
  - intros H [a b] Hin. apply bool_decide_eq_true. simpl. apply H.
    apply elem_of_elements, list_elem_of_In, Hin.
Qed.

Lemma isWatertight_list faces :
  isWatertight faces = true ↔
  NoDup (halfEdgeList faces) ∧
  ∀ a b, (a, b) ∈ halfEdgeList faces → (b, a) ∈ halfEdgeList faces.
Proof.
  unfold isWatertight. rewrite insertFacesHalfEdges_insertAll.
  destruct (insertAll (halfEdgeList faces) ∅) as [s|] eqn:E.
  - apply insertAll_Some in E as (Hnd & _ & ->).
    rewrite allOppositesPresent_true. split.
    + intros H. split; [done|]. intros a b Hab.
      specialize (H a b). set_solver.
    + intros [_ H] a b Hab. specialize (H a b). set_solver.
  - split; [done|]. intros [Hnd _]. exfalso.
    assert (is_Some (insertAll (halfEdgeList faces) ∅)) as [s Hs].
    { exists (list_to_set (halfEdgeList faces) ∪ ∅). apply insertAll_Some.
      split; [done|]. split; [set_solver|done]. }
    congruence.
Qed.

Lemma faceHalfEdgeList_lookup face i e :
  faceHalfEdgeList face !! i = Some e ↔ i < length face ∧ e = faceHalfEdge face i.
Proof.
  unfold faceHalfEdgeList. change (map ?f ?l) with (f <$> l).
  rewrite list_lookup_fmap. split.
  - destruct (seq 0 (length face) !! i) as [j|] eqn:E; simpl; [|done].
    apply lookup_seq in E as [-> ?]. intros [= <-]. done.
  - intros [Hlt ->]. rewrite (lookup_seq_lt _ _ _ Hlt). done.
Qed.

Lemma halfEdgeAt_cons_0 face rest i :
  halfEdgeAt (face :: rest) 0 i =
  if decide (i < length face) then Some (faceHalfEdge face i) else None.
Proof. reflexivity. Qed.

Lemma halfEdgeAt_cons_S face rest f i :
  halfEdgeAt (face :: rest) (S f) i = halfEdgeAt rest f i.
Proof. reflexivity. Qed.

Lemma elem_of_faceHalfEdgeList face e :
  e ∈ faceHalfEdgeList face ↔ ∃ i, i < length face ∧ e = faceHalfEdge face i.
Proof.
  rewrite list_elem_of_lookup. split.
  - intros [i Hi]. exists i. by apply faceHalfEdgeList_lookup.
  - intros [i Hi]. exists i. by apply faceHalfEdgeList_lookup.
Qed.

Lemma elem_of_halfEdgeList faces e :
  e ∈ halfEdgeList faces ↔ ∃ f i, halfEdgeAt faces f i = Some e.
Proof.
  induction faces as [|face rest IH]; simpl.
  - split; [by intros ?%elem_of_nil|]. intros (f & i & H). by destruct f.
  - rewrite elem_of_app, IH, elem_of_faceHalfEdgeList. split.
    + intros [(i & Hlt & ->)|(f & i & H)].
      * exists 0, i. rewrite halfEdgeAt_cons_0. by rewrite decide_True.
      * exists (S f), i. by rewrite halfEdgeAt_cons_S.
    + intros (f & i & H). destruct f as [|f].
      * rewrite halfEdgeAt_cons_0 in H. case_decide; [|done].
        left. exists i. split; [done|congruence].
      * right. exists f, i. by rewrite halfEdgeAt_cons_S in H.
Qed.

Lemma NoDup_faceHalfEdgeList face :
  NoDup (faceHalfEdgeList face) ↔
  ∀ i j, i < length face → j < length face →
         faceHalfEdge face i = faceHalfEdge face j → i = j.
Proof.
  rewrite NoDup_alt. split.
  - intros H i j Hi Hj Heq. apply (H i j (faceHalfEdge face i)).
    + by apply faceHalfEdgeList_lookup.
    + apply faceHalfEdgeList_lookup. by split.
  - intros H i j e [Hi ->]%faceHalfEdgeList_lookup [Hj Heq]%faceHalfEdgeList_lookup.
    by apply H.
Qed.

Lemma NoDup_halfEdgeList faces :
  NoDup (halfEdgeList faces) ↔
  ∀ f i f' i' e, halfEdgeAt faces f i = Some e →
                 halfEdgeAt faces f' i' = Some e → f = f' ∧ i = i'.
Proof.
  induction faces as [|face rest IH]; simpl.
  - split; [|constructor]. intros _ f i f' i' e H. by destruct f.
  - rewrite NoDup_app, IH, NoDup_faceHalfEdgeList. split.
    + intros (Hface & Hdisj & Hrest) f i f' i' e H H'.
      destruct f as [|f], f' as [|f'].
      * rewrite halfEdgeAt_cons_0 in H, H'. repeat case_decide; try done.
        split; [done|]. apply Hface; [done|done|congruence].
      * exfalso. rewrite halfEdgeAt_cons_0 in H. rewrite halfEdgeAt_cons_S in H'.
        case_decide; [|done]. apply (Hdisj e).
        -- apply elem_of_faceHalfEdgeList. exists i. split; [done|congruence].
        -- apply elem_of_halfEdgeList. eauto.
      * exfalso. rewrite halfEdgeAt_cons_0 in H'. rewrite halfEdgeAt_cons_S in H.
        case_decide; [|done]. apply (Hdisj e).
        -- apply elem_of_faceHalfEdgeList. exists i'. split; [done|congruence].
        -- apply elem_of_halfEdgeList. eauto.
      * rewrite halfEdgeAt_cons_S in H, H'.
        destruct (Hrest f i f' i' e H H') as [-> ->]. done.
    + intros H. split; [|split].
      * intros i j Hi Hj Heq.
        apply (H 0 i 0 j (faceHalfEdge face i)).
        -- rewrite halfEdgeAt_cons_0. by rewrite decide_True.
        -- rewrite halfEdgeAt_cons_0. rewrite decide_True by done. by f_equal.
      * intros e (i & Hi & ->)%elem_of_faceHalfEdgeList (f & j & Hj)%elem_of_halfEdgeList.
        assert (0 = S f ∧ i = j) as [? _]; [|done].
        apply (H 0 i (S f) j (faceHalfEdge face i)).
        -- rewrite halfEdgeAt_cons_0. by rewrite decide_True.
        -- by rewrite halfEdgeAt_cons_S.
      * intros f i f' i' e Hf Hf'.
        assert (S f = S f' ∧ i = i') as [[= ->] ->]; [|done].
        apply (H (S f) i (S f') i' e); by rewrite halfEdgeAt_cons_S.
Qed.

(** C2. [isWatertight] answers [true] exactly when (1) every directed
    half-edge occurring in some face has the opposite directed half-edge
    occurring in some face, and (2) no directed half-edge occurs twice,
    whether in two faces or at two positions of one face. *)
Theorem isWatertight_iff (faces : list (list nat)) :
  isWatertight faces = true ↔
  (∀ f i a b, halfEdgeAt faces f i = Some (a, b) →
              ∃ f' i', halfEdgeAt faces f' i' = Some (b, a)) ∧
  (∀ f i f' i' e, halfEdgeAt faces f i = Some e →
                  halfEdgeAt faces f' i' = Some e → f = f' ∧ i = i').
Proof.
  rewrite isWatertight_list, NoDup_halfEdgeList. split.
  - intros [Hnd Hopp]. split; [|done]. intros f i a b H.
    apply elem_of_halfEdgeList, Hopp, elem_of_halfEdgeList. eauto.
  - intros [Hopp Hnd]. split; [done|]. intros a b (f & i & H)%elem_of_halfEdgeList.
    apply elem_of_halfEdgeList. eauto.
Qed.

End WatertightFacts.

(** ** chamferFace *)
Module ChamferFacts.
Import Chamfer.

(** A square on the integer lattice, with weights counted in tenths. *)
Example chamferFace_square :
  chamferFace (fun p k => (p.1 * k, p.2 * k)%Z) (fun p q => (p.1 + q.1, p.2 + q.2)%Z)
    8%Z 2%Z (0, 0)%Z [(10, 10); (-10, 10); (-10, -10); (10, -10)]%Z
  = [(60, 100); (-60, 100); (-100, 60); (-100, -60);
     (-60, -100); (60, -100); (100, -60); (100, 60)]%Z.
Proof. reflexivity. Qed.

Section Proofs.

Context {Vector2 Scalar : Type}.
Variable scale : Vector2 → Scalar → Vector2.
Variable add : Vector2 → Vector2 → Vector2.
Variables k08 k02 : Scalar.
Variable origin : Vector2.

Lemma flat_map_pairs_length {A B} (f : A → list B) (l : list A) :
  (∀ x, length (f x) = 2) → length (flat_map f l) = 2 * length l.
Proof.
  intros Hf. induction l as [|x l IH]; simpl; [done|].
  rewrite length_app, Hf, IH. lia.
Qed.

Lemma flat_map_pairs_lookup {A B} (f : A → list B) (l : list A) i x :
  (∀ y, length (f y) = 2) → l !! i = Some x →
  flat_map f l !! (2 * i) = f x !! 0 ∧ flat_map f l !! (2 * i + 1) = f x !! 1.
Proof.
  intros Hf. revert i. induction l as [|y l IH]; intros i Hi; [done|].
  change (flat_map f (y :: l)) with (f y ++ flat_map f l). destruct i as [|i].
  - injection Hi as ->. specialize (Hf x).
    destruct (f x) as [|u [|v [|]]]; simpl in Hf; try lia. split; reflexivity.
  - simpl in Hi. destruct (IH i Hi) as [H0 H1]. specialize (Hf y).
    destruct (f y) as [|u [|v [|]]]; simpl in Hf; try lia.
    replace (2 * S i) with (S (S (2 * i))) by lia.
    replace (S (S (2 * i)) + 1) with (S (S (2 * i + 1))) by lia.
    split; [exact H0 | exact H1].
Qed.

(** C8. Chamfering a polygon of [n] vertices yields [2 * n] vertices,
    and for every edge [(p_i, p_j)] with [j = (i + 1) mod n] the points
    [0.8 * p_i + 0.2 * p_j] and [0.2 * p_i + 0.8 * p_j] stand, in this
    order, at positions [2 * i] and [2 * i + 1]: the edges are replaced
    one by one in the order of the input polygon, which is how the
    winding is kept.  The arithmetic is that of [Vector2]. *)
Theorem chamferFace_doubles (face : list Vector2) :
  length (chamferFace scale add k08 k02 origin face) = 2 * length face ∧
  ∀ i p q, face !! i = Some p → face !! ((i + 1) mod length face) = Some q →
    chamferFace scale add k08 k02 origin face !! (2 * i) = Some (add (scale p k08) (scale q k02)) ∧
    chamferFace scale add k08 k02 origin face !! (2 * i + 1) = Some (add (scale p k02) (scale q k08)).
Proof.
  unfold chamferFace. split.
  - rewrite flat_map_pairs_length by done. by rewrite length_seq.
  - intros i p q Hp Hq.
    assert (Hi : i < length face) by (by apply lookup_lt_Some in Hp).
    destruct (flat_map_pairs_lookup (chamferEdge scale add k08 k02 origin face)
                (seq 0 (length face)) i i) as [H0 H1]; [done| |].
    { by apply lookup_seq_lt. }
    rewrite H0, H1. unfold chamferEdge. simpl.
    rewrite (nth_lookup_Some _ _ _ _ Hp), (nth_lookup_Some _ _ _ _ Hq). done.
Qed.

End Proofs.

End ChamferFacts.

(** ** collectSharedQuadEdges and recoverQuads *)
Module QuadsFacts.
Import Quads.

Example buildTriangleEdgeMap_sorted :
  buildTriangleEdgeMap [[0; 1; 2]; [0; 2; 3]] 0 [] =
  [((0, 1), (0, 2)); ((0, 2), (1, 3)); ((1, 2), (0, 0));
   ((2, 0), (0, 1)); ((2, 3), (1, 0)); ((3, 0), (1, 2))].
Proof. reflexivity. Qed.

Example collectSharedQuadEdges_square :
  (fun edges => (size edges,
                 bool_decide (((0, 0, 0), (1, 1, 0))%Z ∈ edges),
                 bool_decide (((1, 0, 0), (0, 1, 0))%Z ∈ edges))) <$>
    collectSharedQuadEdges latticeKey squareVertices [[0; 1; 2; 3]; [1; 4; 5]] ∅
  = Some (2, true, true).
Proof. vm_compute. reflexivity. Qed.

Example recoverQuads_square :
  recoverQuads latticeKey squareVertices [[0; 1; 2]; [0; 2; 3]; [1; 4; 5]]
    {[ ((0, 0, 0), (1, 1, 0)); ((1, 0, 0), (0, 1, 0)) ]}%Z []
  = Some [[3; 0; 1; 2]; [1; 4; 5]].
Proof. vm_compute. reflexivity. Qed.

Lemma elem_of_mapAssign k v m e :
  e ∈ mapAssign k v m → e = (k, v) ∨ e ∈ m.
Proof.
  induction m as [|[k' v'] m IH]; simpl.
  - intros ->%list_elem_of_singleton. by left.
  - destruct (edgeLt k k'); [|destruct (decide (k = k'))].
    + intros [->|?]%elem_of_cons; [by left|by right].
    + intros [->|?]%elem_of_cons; [by left|]. right. by right.
    + intros [->|?]%elem_of_cons; [right; by left|].
      destruct IH as [->|?]; [done|by left|]. right. by right.
Qed.

Lemma mapFind_mapAssign k k' v m :
  mapFind k (mapAssign k' v m) = if decide (k = k') then Some v else mapFind k m.
Proof.
  induction m as [|[k'' v''] m IH]; simpl.
  - done.
  - destruct (edgeLt k' k''); [|destruct (decide (k' = k'')) as [<-|Hne]]; simpl.
    + destruct (decide (k = k')); done.
    + destruct (decide (k = k')); done.
    + rewrite IH. destruct (decide (k = k'')) as [->|]; [|done].
      by rewrite decide_False.
Qed.

Lemma mapFind_elem k v m : mapFind k m = Some v → (k, v) ∈ m.
Proof.
  induction m as [|[k' v'] m IH]; simpl; [done|].
  destruct (decide (k = k')) as [->|].
  - intros [= ->]. by left.
  - intros ?. right. by apply IH.
Qed.

Lemma elem_mapFind_is_Some k v m : (k, v) ∈ m → is_Some (mapFind k m).
Proof.
  induction m as [|[k' v'] m IH]; simpl; [by intros ?%elem_of_nil|].
  destruct (decide (k = k')); [eauto|].
  intros [[= ]|?]%elem_of_cons; [done|by apply IH].
Qed.

Lemma elem_of_buildTriangleEdgeMap triangles i m a b f o :
  ((a, b), (f, o)) ∈ buildTriangleEdgeMap triangles i m →
  ((a, b), (f, o)) ∈ m ∨ ∃ j, f = i + j ∧ hasEdge triangles j a b o.
Proof.
  revert i m. induction triangles as [|face rest IH]; intros i m; simpl; [by left|].
  intros Hin. apply IH in Hin as [Hin|(j & -> & v0 & v1 & v2 & Hj & Hrot)].
  - destruct face as [|v0 [|v1 [|v2 [|]]]]; try by left.
    apply elem_of_mapAssign in Hin as [Heq|Hin];
      [|apply elem_of_mapAssign in Hin as [Heq|Hin];
        [|apply elem_of_mapAssign in Hin as [Heq|Hin]; [|by left]]];
      injection Heq as -> -> -> ->; right; exists 0;
      (split; [lia|]); exists v0, v1, v2; (split; [done|]); auto.
  - right. exists (S j). split; [lia|]. exists v0, v1, v2. done.
Qed.

Lemma mapFind_buildTriangleEdgeMap_is_Some triangles i m k :
  is_Some (mapFind k m) → is_Some (mapFind k (buildTriangleEdgeMap triangles i m)).
Proof.
  revert i m. induction triangles as [|face rest IH]; intros i m Hm; simpl; [done|].
  apply IH. destruct face as [|v0 [|v1 [|v2 [|]]]]; try done.
  rewrite !mapFind_mapAssign. repeat case_decide; eauto.
Qed.

(** Every directed edge of a three-vertex face is recorded in the map
    (for the last face that has it). *)
Lemma hasEdge_recorded triangles n m i a b o :
  hasEdge triangles i a b o →
  is_Some (mapFind (a, b) (buildTriangleEdgeMap triangles n m)).
Proof.
  revert i m n. induction triangles as [|face rest IH]; intros i m n (v0 & v1 & v2 & Hi & Hrot).
  - done.
  - destruct i as [|i]; simpl.
    + injection Hi as ->. apply mapFind_buildTriangleEdgeMap_is_Some.
      rewrite !mapFind_mapAssign.
      destruct Hrot as [[= -> -> ->]|[[= -> -> ->]|[= -> -> ->]]];
        repeat case_decide; eauto; congruence.
    + apply (IH i). exists v0, v1, v2. done.
Qed.

Lemma elem_of_remainingFaces triangles i U face :
  face ∈ remainingFaces triangles i U ↔
  ∃ j, triangles !! j = Some face ∧ i + j ∉ U.
Proof.
  revert i. induction triangles as [|t rest IH]; intros i; simpl.
  - split; [by intros ?%elem_of_nil|]. by intros (j & ? & _).
  - destruct (decide (i ∈ U)) as [Hi|Hi].
    + rewrite IH. split.
      * intros (j & Hj & Hn). exists (S j). split; [done|].
        by replace (i + S j) with (S i + j) by lia.
      * intros ([|j] & Hj & Hn).
        -- by replace (i + 0) with i in Hn by lia.
        -- exists j. split; [done|]. by replace (S i + j) with (i + S j) by lia.
    + rewrite elem_of_cons, IH. split.
      * intros [->|(j & Hj & Hn)].
        -- exists 0. split; [done|]. by replace (i + 0) with i by lia.
        -- exists (S j). split; [done|].
           by replace (i + S j) with (S i + j) by lia.
      * intros ([|j] & Hj & Hn).
        -- left. by injection Hj.
        -- right. exists j. split; [done|].
           by replace (S i + j) with (i + S j) by lia.
Qed.

Section Proofs.

Context {Vector3 PositionKey : Type} `{Countable PositionKey}.
Variable positionKey : Vector3 → PositionKey.

(** C4. When the indices of every four-vertex face are in range,
    [collectSharedQuadEdges] returns, and the set then holds what it
    held before plus exactly the two diagonals (vertex 0 with vertex 2,
    vertex 1 with vertex 3) of every face of exactly four vertices:
    faces of any other size, triangles among them, add nothing. *)
Theorem collectSharedQuadEdges_diagonals (vertices : list Vector3)
  (faces : list (list nat)) (sharedQuadEdges : gset (PositionKey * PositionKey)) :
  Forall (fun face => length face = 4 → Forall (fun v => v < length vertices) face) faces →
  ∃ result, collectSharedQuadEdges positionKey vertices faces sharedQuadEdges = Some result ∧
    ∀ d, d ∈ result ↔
      d ∈ sharedQuadEdges ∨
      ∃ f0 f1 f2 f3 p0 p1 p2 p3,
        [f0; f1; f2; f3] ∈ faces ∧
        vertices !! f0 = Some p0 ∧ vertices !! f1 = Some p1 ∧
        vertices !! f2 = Some p2 ∧ vertices !! f3 = Some p3 ∧
        (d = (positionKey p0, positionKey p2) ∨ d = (positionKey p1, positionKey p3)).
Proof.
  revert sharedQuadEdges.
  induction faces as [|face rest IH]; intros shared Hrange.
  - exists shared. split; [done|]. intros d. split; [by left|].
    intros [?|(f0 & f1 & f2 & f3 & ? & ? & ? & ? & Hin%elem_of_nil & _)]; done.
  - apply Forall_cons in Hrange as [Hface Hrest].
    assert (Hskip : length face ≠ 4 →
      collectSharedQuadEdges positionKey vertices (face :: rest) shared =
      collectSharedQuadEdges positionKey vertices rest shared).
    { destruct face as [|f0 [|f1 [|f2 [|f3 [|]]]]]; simpl; done. }
    destruct (decide (length face = 4)) as [Hlen|Hlen].
    + destruct face as [|f0 [|f1 [|f2 [|f3 [|]]]]]; try done.
      specialize (Hface eq_refl).
      apply Forall_cons in Hface as [[p0 Hp0]%lookup_lt_is_Some Hface].
      apply Forall_cons in Hface as [[p1 Hp1]%lookup_lt_is_Some Hface].
      apply Forall_cons in Hface as [[p2 Hp2]%lookup_lt_is_Some Hface].
      apply Forall_cons in Hface as [[p3 Hp3]%lookup_lt_is_Some _].
      simpl. rewrite Hp0, Hp1, Hp2, Hp3. simpl.
      destruct (IH ({[(positionKey p1, positionKey p3)]} ∪
                    ({[(positionKey p0, positionKey p2)]} ∪ shared)) Hrest)
        as (result & -> & Hres).
      exists result. split; [done|]. intros d. rewrite Hres. split.
      * intros [Hd|(g0 & g1 & g2 & g3 & q0 & q1 & q2 & q3 & Hin & Hq)].
        -- apply elem_of_union in Hd as [Hd|Hd];
             [|apply elem_of_union in Hd as [Hd|Hd]; [|by left]];
             apply elem_of_singleton in Hd as ->; right;
             exists f0, f1, f2, f3, p0, p1, p2, p3;
             (split; [by left|]); auto 10.
        -- right. exists g0, g1, g2, g3, q0, q1, q2, q3. split; [by right|done].
      * intros [Hd|(g0 & g1 & g2 & g3 & q0 & q1 & q2 & q3 & Hin & Hq0 & Hq1 & Hq2 & Hq3 & Hd)].
        -- left. set_solver.
        -- apply elem_of_cons in Hin as [[= -> -> -> ->]|Hin].
           ++ left. rewrite Hp0 in Hq0. rewrite Hp1 in Hq1.
              rewrite Hp2 in Hq2. rewrite Hp3 in Hq3.
              injection Hq0 as ->. injection Hq1 as ->.
              injection Hq2 as ->. injection Hq3 as ->.
              destruct Hd as [->| ->]; set_solver.
           ++ right. exists g0, g1, g2, g3, q0, q1, q2, q3. done.
    + rewrite (Hskip Hlen). destruct (IH shared Hrest) as (result & -> & Hres).
      exists result. split; [done|]. intros d. rewrite Hres. split.
      * intros [Hd|(g0 & g1 & g2 & g3 & q0 & q1 & q2 & q3 & Hin & Hq)]; [by left|].
        right. exists g0, g1, g2, g3, q0, q1, q2, q3. split; [by right|done].
      * intros [Hd|(g0 & g1 & g2 & g3 & q0 & q1 & q2 & q3 & Hin & Hq)]; [by left|].
        apply elem_of_cons in Hin as [<-|Hin]; [done|].
        right. exists g0, g1, g2, g3, q0, q1, q2, q3. done.
Qed.

Section Loop.

Variable keys : list PositionKey.
Variable shared : gset (PositionKey * PositionKey).
Variable m : EdgeMap.
Variable out0 : list (list nat).

Lemma loopInv_init : loopInv keys shared m out0 (∅, out0).
Proof.
  exists []. simpl. split; [by rewrite app_nil_r|]. split; [|split].
  - intros i. split; [set_solver|]. by intros (mg & ?%elem_of_nil & _).
  - intros k l mk ml ?. done.
  - constructor.
Qed.

Lemma unionStep_inv st edge :
  loopInv keys shared m out0 st → edge ∈ m →
  is_Some (keys !! edge.1.1) → is_Some (keys !! edge.1.2) →
  ∃ st', unionStep keys shared m st edge = Some st' ∧ loopInv keys shared m out0 st'.
Proof.
  destruct st as [U out], edge as [[a b] [i o]].
  intros Hinv Hin [k1 Hk1] [k2 Hk2]. simpl in *.
  unfold unionStep. simpl.
  destruct (decide (i ∈ U)) as [HiU|HiU]; [by eauto|].
  rewrite Hk1, Hk2. simpl.
  destruct (decide ((k1, k2) ∈ shared)) as [Hsh|]; [|by eauto].
  destruct (mapFind (b, a) m) as [[j o2]|] eqn:Hopp; [|by eauto]. simpl.
  destruct (decide (j ∈ U)) as [HjU|HjU]; [by eauto|].
  eexists. split; [done|].
  destruct Hinv as (merges & Hout & HU & Hapart & Hjust). simpl in *.
  exists (merges ++ [(i, j, [o; a; o2; b])]). simpl. split; [|split; [|split]].
  - rewrite map_app, Hout, app_assoc. done.
  - intros x. unfold mergedIn. split.
    + intros Hx. apply elem_of_union in Hx as [Hx|Hx];
        [|apply elem_of_union in Hx as [Hx|Hx]].
      * apply elem_of_singleton in Hx as ->.
        exists (i, j, [o; a; o2; b]). split; [set_solver|by right].
      * apply elem_of_singleton in Hx as ->.
        exists (i, j, [o; a; o2; b]). split; [set_solver|by left].
      * apply HU in Hx as (mg & Hmg & Hx). exists mg. split; [set_solver|done].
    + intros (mg & Hmg & Hx). apply elem_of_app in Hmg as [Hmg|Hmg].
      * do 2 (apply elem_of_union; right). apply HU. by exists mg.
      * apply list_elem_of_singleton in Hmg as ->. simpl in Hx.
        destruct Hx as [-> | ->]; set_solver.
  - assert (Hnew : ∀ mg, mg ∈ merges → mergesApart mg (i, j, [o; a; o2; b])).
    { intros mg Hmg. unfold mergesApart. simpl.
      assert (mg.1.1 ∈ U) by (apply HU; exists mg; auto).
      assert (mg.1.2 ∈ U) by (apply HU; exists mg; auto).
      repeat split; congruence. }
    intros k l mk ml Hk Hl Hne.
    apply lookup_app_Some in Hk as [Hk|[Hlenk Hk]];
      apply lookup_app_Some in Hl as [Hl|[Hlenl Hl]].
    + by apply (Hapart k l).
    + destruct (l - length merges) as [|?] eqn:E; [|done].
      injection Hl as <-. apply Hnew. by apply list_elem_of_lookup_2 in Hk.
    + destruct (k - length merges) as [|?] eqn:E; [|done].
      injection Hk as <-. apply list_elem_of_lookup_2, Hnew in Hl.
      unfold mergesApart in *. naive_solver.
    + destruct (k - length merges) as [|?] eqn:Ek; [|done].
      destruct (l - length merges) as [|?] eqn:El; [|done]. lia.
  - apply Forall_app. split; [done|]. constructor; [|constructor].
    exists a, b, o, o2, k1, k2. done.
Qed.

Lemma unionLoop_inv edges st :
  loopInv keys shared m out0 st →
  Forall (fun edge => edge ∈ m ∧ is_Some (keys !! edge.1.1) ∧
                      is_Some (keys !! edge.1.2)) edges →
  ∃ st', unionLoop keys shared m edges st = Some st' ∧ loopInv keys shared m out0 st'.
Proof.
  revert st. induction edges as [|edge rest IH]; intros st Hinv Hedges; simpl.
  - eauto.
  - apply Forall_cons in Hedges as [(Hin & Hk1 & Hk2) Hrest].
    destruct (unionStep_inv st edge Hinv Hin Hk1 Hk2) as (st1 & -> & Hinv1).
    simpl. by apply IH.
Qed.

Lemma unionStep_settles st edge st' :
  unionStep keys shared m st edge = Some st' →
  st.1 ⊆ st'.1 ∧ settled keys shared m st'.1 edge.
Proof.
  destruct st as [U out], edge as [[a b] [i o]]. unfold unionStep, settled. simpl.
  destruct (decide (i ∈ U)) as [HiU|HiU].
  { intros [= <-]. simpl. split; [done|]. intros. by left. }
  destruct (keys !! a) as [k1|] eqn:Hk1; [|done]. simpl.
  destruct (keys !! b) as [k2|] eqn:Hk2; [|done]. simpl.
  destruct (decide ((k1, k2) ∈ shared)) as [Hsh|Hsh].
  - destruct (mapFind (b, a) m) as [[j o2]|] eqn:Hopp.
    + simpl. destruct (decide (j ∈ U)) as [HjU|HjU].
      * intros [= <-]. simpl. split; [done|]. intros j' o2' k1' k2' [= <- <-]. by right.
      * intros [= <-]. simpl. split; [set_solver|]. intros. left. set_solver.
    + intros [= <-]. simpl. split; [done|]. intros; discriminate.
  - intros [= <-]. simpl. split; [done|].
    intros j o2 k1' k2' _ [= <-] [= <-] ?. done.
Qed.

Lemma unionLoop_settles edges st st' :
  unionLoop keys shared m edges st = Some st' →
  st.1 ⊆ st'.1 ∧ Forall (settled keys shared m st'.1) edges.
Proof.
  revert st. induction edges as [|edge rest IH]; intros st; simpl.
  - intros [= <-]. split; [done|constructor].
  - destruct (unionStep keys shared m st edge) as [st1|] eqn:Hstep; [|done]. simpl.
    intros Hloop. apply unionStep_settles in Hstep as [Hsub1 Hset].
    apply IH in Hloop as [Hsub Hrest]. split; [set_solver|].
    constructor; [|done]. intros j o2 k1 k2 Hopp Hk1 Hk2 Hsh.
    destruct (Hset j o2 k1 k2 Hopp Hk1 Hk2 Hsh); set_solver.
Qed.

End Loop.

Lemma hasEdge_in_range (vertices : list Vector3) triangles i a b o :
  Forall (fun face => length face = 3 → Forall (fun v => v < length vertices) face)
    triangles →
  hasEdge triangles i a b o →
  a < length vertices ∧ b < length vertices.
Proof.
  intros Hrange (v0 & v1 & v2 & Hi & Hrot).
  apply list_elem_of_lookup_2 in Hi.
  rewrite Forall_forall in Hrange. specialize (Hrange _ Hi eq_refl).
  apply Forall_cons in Hrange as [H0 Hrange].
  apply Forall_cons in Hrange as [H1 Hrange].
  apply Forall_cons in Hrange as [H2 _].
  destruct Hrot as [[= -> -> ->]|[[= -> -> ->]|[= -> -> ->]]]; done.
Qed.


End Proofs.

(** The hypothesis of C4 holds of a quad followed by a triangle, and
    the diagonals of the quad are collected. *)
Lemma collectSharedQuadEdges_diagonals_witness :
  ∃ result,
    collectSharedQuadEdges latticeKey squareVertices [[0; 1; 2; 3]; [1; 4; 5]] ∅
      = Some result ∧
    ((0, 0, 0), (1, 1, 0))%Z ∈ result.
Proof.
  destruct (collectSharedQuadEdges_diagonals latticeKey squareVertices
              [[0; 1; 2; 3]; [1; 4; 5]] ∅) as (result & Heq & Hres).
  - repeat constructor; intros Hlen; try discriminate Hlen;
      repeat constructor; simpl; lia.
  - exists result. split; [exact Heq|]. apply Hres. right.
    exists 0, 1, 2, 3, (0, 0, 0)%Z, (1, 0, 0)%Z, (1, 1, 0)%Z, (0, 1, 0)%Z.
    repeat split; try reflexivity; [by left|by left].
Defined.



End QuadsFacts.

(** ** combineComponentMesh: grouping the children by combine mode *)
Module GroupingFacts.
Import Snapshot Grouping.

Example groupChildren_example :
  combineGroups
    (groupChildren isTrueModel splitModel CombineModeFromStringModel exampleSnapshot
       (rootComponent exampleSnapshot))
  = [ (Normal, [("a", ""); ("b", "")]); (Inversion, [("c", "")]);
      (Inversion, [("d", "")]); (Uncombined, [("e", "")]) ].
Proof. vm_compute. reflexivity. Qed.

Section Proofs.

Variable String_isTrue : string → bool.
Variable String_split : string → ascii → list string.
Variable CombineModeFromString : string → CombineMode.
Variable m_snapshot : Snapshot.

(** The spec lists three combine modes; [Count] is only a sentinel. *)
Hypothesis CombineModeFromString_not_Count : ∀ s, CombineModeFromString s ≠ Count.

Lemma componentCombineMode_not_Count component :
  componentCombineMode String_isTrue CombineModeFromString component ≠ Count.
Proof.
  destruct component as [c|]; simpl; [|done].
  destruct (decide (_ = Normal)) as [E|_]; [|done].
  destruct (String_isTrue _); [done|]. by rewrite E.
Qed.

Lemma adjacentGroups_snoc {A} (R : A → A → Prop) gs g :
  adjacentGroups R gs → (∀ g1, last gs = Some g1 → R g1 g) →
  adjacentGroups R (gs ++ [g]).
Proof.
  intros Hgs Hlast k g1 g2 H1 H2.
  apply lookup_snoc_Some in H2 as [[Hlt H2]|[Hlen <-]].
  - rewrite lookup_app_l in H1 by lia. by apply (Hgs k).
  - rewrite lookup_app_l in H1 by lia. apply Hlast.
    rewrite last_lookup, <- Hlen. done.
Qed.

Lemma adjacentGroups_app_l {A} (R : A → A → Prop) gs gs' :
  adjacentGroups R (gs ++ gs') → adjacentGroups R gs.
Proof.
  intros H k g1 g2 H1 H2. apply (H k); by apply lookup_app_l_Some.
Qed.

Lemma adjacentGroups_last {A} (R : A → A → Prop) gs g1 g :
  adjacentGroups R (gs ++ [g]) → last gs = Some g1 → R g1 g.
Proof.
  intros H Hlast. rewrite last_lookup in Hlast.
  assert (gs ≠ []) as Hne by (intros ->; done).
  assert (0 < length gs) by (destruct gs; simpl; [done|lia]).
  apply (H (pred (length gs))).
  - by apply lookup_app_l_Some.
  - replace (S (pred (length gs))) with (length gs) by lia.
    by rewrite list_lookup_middle.
Qed.

Lemma pushToGroup_last (groups : list (CombineMode * list (string * string))) g entry :
  pushToGroup (groups ++ [g]) (Z.of_nat (length groups)) entry =
  groups ++ [(g.1, g.2 ++ [entry])].
Proof.
  unfold pushToGroup. rewrite Nat2Z.id.
  replace (length groups) with (length groups + 0) at 1 by lia.
  by rewrite alter_app_r.
Qed.

Lemma groupingInv_init : groupingInv String_isTrue CombineModeFromString m_snapshot [] groupingInit.
Proof.
  repeat split; simpl; done.
Qed.

Lemma groupingStep_inv l st c :
  groupingInv String_isTrue CombineModeFromString m_snapshot l st →
  groupingInv String_isTrue CombineModeFromString m_snapshot (l ++ [c])
    (groupingStep String_isTrue CombineModeFromString m_snapshot st c).
Proof.
  destruct st as [groups idx lastMode found].
  intros (Hcat & Hidx & Hlast & Hgroups & Hadj). simpl in *.
  unfold groupingInv, groupingStep. rewrite filter_app.
  destruct (decide (c = "")) as [->|Hc].
  { rewrite filter_cons_False, filter_nil, app_nil_r by (intros ?; done).
    repeat split; done. }
  rewrite filter_cons_True, filter_nil by done. simpl.
  set (child := findComponent m_snapshot c).
  set (color := componentColorName m_snapshot child).
  set (mode := componentCombineMode String_isTrue CombineModeFromString child).
  assert (Hmode : mode ≠ Count) by apply componentCombineMode_not_Count.
  destruct (decide (lastMode ≠ mode ∨ lastMode = Inversion)) as [Hnew|Hsame]; simpl.
  - (* a new group is pushed *)
    rewrite decide_False by lia. simpl. subst idx.
    replace (Z.of_nat (length groups) - 1 + 1)%Z with (Z.of_nat (length groups)) by lia.
    rewrite pushToGroup_last. simpl.
    split; [|split; [|split; [|split]]].
    + rewrite map_app, concat_app, Hcat. simpl. done.
    + rewrite length_app. simpl. lia.
    + by rewrite last_snoc.
    + apply Forall_app. split; [done|]. constructor; [|constructor]. simpl.
      repeat split; try done. constructor; [done|constructor].
    + apply adjacentGroups_snoc; [done|]. intros g1 Hg1. simpl.
      rewrite Hg1 in Hlast. simpl in Hlast. subst lastMode.
      destruct (decide (mode = Inversion)) as [->|Hinv]; [by right|].
      left. destruct Hnew as [?|Heq]; [done|]. congruence.
  - (* the child joins the current group *)
    assert (lastMode = mode ∧ lastMode ≠ Inversion) as [Heq Hninv].
    { split.
      - destruct (decide (lastMode = mode)); [done|]. exfalso. apply Hsame. by left.
      - intros ?. apply Hsame. by right. }
    destruct (last groups) as [g|] eqn:Hg; simpl in Hlast; [|congruence].
    apply last_Some in Hg as [gs ->].
    rewrite length_app in Hidx. simpl in Hidx.
    rewrite decide_False by lia. simpl. subst idx.
    replace (Z.of_nat (length gs + 1) - 1)%Z with (Z.of_nat (length gs)) by lia.
    rewrite pushToGroup_last.
    apply Forall_app in Hgroups as [Hgs Hg].
    apply Forall_cons in Hg as [(Hg1 & Hg2 & Hg3 & Hg4) _].
    split; [|split; [|split; [|split]]]; simpl.
    + rewrite map_app, concat_app in Hcat. simpl in Hcat. rewrite app_nil_r in Hcat.
      rewrite map_app, concat_app. simpl. rewrite app_nil_r, map_app. simpl.
      rewrite app_assoc, Hcat. done.
    + rewrite length_app. simpl. lia.
    + by rewrite last_snoc.
    + apply Forall_app. split; [done|]. constructor; [|constructor]. simpl.
      split; [done|]. split; [by destruct (g.2)|]. split.
      * apply Forall_app. split; [done|]. constructor; [|constructor]. simpl.
        unfold childCombineMode. fold child. fold mode. congruence.
      * intros ?. congruence.
    + apply adjacentGroups_snoc.
      * by apply adjacentGroups_app_l in Hadj.
      * intros g0 Hg0. simpl. exact (adjacentGroups_last _ gs g0 g Hadj Hg0).
Qed.

Lemma groupIndexes_snoc {A B} (gs : list (A * list B)) g :
  groupIndexes (gs ++ [g]) = groupIndexes gs ++ replicate (length g.2) (length gs).
Proof.
  unfold groupIndexes. rewrite imap_app, concat_app. simpl.
  by rewrite Nat.add_0_r, app_nil_r.
Qed.

(** What one iteration does to the groups, for a non-empty child id. *)
Lemma groupingStep_result l st c :
  groupingInv String_isTrue CombineModeFromString m_snapshot l st → c ≠ "" →
  let mode := childCombineMode String_isTrue CombineModeFromString m_snapshot c in
  let st' := groupingStep String_isTrue CombineModeFromString m_snapshot st c in
  lastCombineMode st' = mode ∧
  (((lastCombineMode st ≠ mode ∨ lastCombineMode st = Inversion) ∧
    ∃ e, combineGroups st' = combineGroups st ++ [(mode, [e])]) ∨
   (lastCombineMode st = mode ∧ mode ≠ Inversion ∧
    ∃ gs g e, combineGroups st = gs ++ [g] ∧
              combineGroups st' = gs ++ [(g.1, g.2 ++ [e])])).
Proof.
  destruct st as [groups idx lastMode found].
  intros (_ & Hidx & Hlast & _ & _) Hc. simpl in *.
  unfold groupingStep, childCombineMode. rewrite decide_False by done.
  set (child := findComponent m_snapshot c).
  set (color := componentColorName m_snapshot child).
  set (mode := componentCombineMode String_isTrue CombineModeFromString child).
  assert (Hmode : mode ≠ Count) by apply componentCombineMode_not_Count.
  simpl. destruct (decide (lastMode ≠ mode ∨ lastMode = Inversion)) as [Hnew|Hsame]; simpl.
  - rewrite decide_False by lia. simpl. split; [done|]. left. split; [done|].
    exists (c, color). subst idx.
    replace (Z.of_nat (length groups) - 1 + 1)%Z with (Z.of_nat (length groups)) by lia.
    by rewrite pushToGroup_last.
  - assert (lastMode = mode ∧ lastMode ≠ Inversion) as [Heq Hninv].
    { split.
      - destruct (decide (lastMode = mode)); [done|]. exfalso. apply Hsame. by left.
      - intros ?. apply Hsame. by right. }
    destruct (last groups) as [g|] eqn:Hg; simpl in Hlast; [|congruence].
    apply last_Some in Hg as [gs ->].
    rewrite length_app in Hidx. simpl in Hidx.
    rewrite decide_False by lia. simpl. split; [done|]. right.
    split; [done|]. split; [congruence|].
    exists gs, g, (c, color). split; [done|]. subst idx.
    replace (Z.of_nat (length gs + 1) - 1)%Z with (Z.of_nat (length gs)) by lia.
    by rewrite pushToGroup_last.
Qed.

Lemma startsInv_init :
  startsInv String_isTrue CombineModeFromString m_snapshot [] groupingInit.
Proof.
  unfold startsInv. simpl. split; [done|]. split; [done|].
  intros k c c' i i' Hk. done.
Qed.

Lemma groupingStep_startsInv l st c :
  groupingInv String_isTrue CombineModeFromString m_snapshot l st →
  startsInv String_isTrue CombineModeFromString m_snapshot l st →
  startsInv String_isTrue CombineModeFromString m_snapshot (l ++ [c])
    (groupingStep String_isTrue CombineModeFromString m_snapshot st c).
Proof.
  intros Hinv (Hlen & Hlastc & Hstarts). unfold startsInv. rewrite filter_app.
  destruct (decide (c = "")) as [->|Hc].
  { rewrite filter_cons_False, filter_nil, app_nil_r by (intros ?; done).
    unfold groupingStep. rewrite decide_True by done. done. }
  rewrite filter_cons_True, filter_nil by done.
  destruct (groupingStep_result l st c Hinv Hc) as [Hmode Hcases].
  set (mode := childCombineMode String_isTrue CombineModeFromString m_snapshot c) in *.
  set (st' := groupingStep String_isTrue CombineModeFromString m_snapshot st c) in *.
  set (children := filter (fun c => c ≠ "") l) in *.
  set (groupOf := groupIndexes (combineGroups st)) in *.
  (* in both cases one group number is appended *)
  assert (Hsnoc : ∃ x, groupIndexes (combineGroups st') = groupOf ++ [x] ∧
                       0 < length (combineGroups st') ∧
                       x = length (combineGroups st') - 1 ∧
                       (∀ ck i, last children = Some ck → last groupOf = Some i →
                          (x ≠ i ↔ mode ≠ childCombineMode String_isTrue
                                     CombineModeFromString m_snapshot ck
                                   ∨ mode = Inversion))).
  { destruct Hcases as [[Hnew (e & Hgroups)]|(Hsame & Hninv & gs & g & e & Hgs & Hgroups)].
    - exists (length (combineGroups st)). rewrite Hgroups, groupIndexes_snoc, length_app.
      simpl. repeat split; try lia.
      + intros _. destruct (Hlastc ck) as (Hck & _); [done|].
        destruct (decide (mode = Inversion)); [by right|]. left.
        destruct Hnew as [?|?]; congruence.
      + intros _. destruct (Hlastc ck) as (_ & Hpos & Hgi); [done|].
        assert (i = length (combineGroups st) - 1) by congruence. lia.
    - exists (length gs). rewrite Hgroups, groupIndexes_snoc, !length_app. simpl.
      repeat split; try lia.
      + unfold groupOf. rewrite Hgs, groupIndexes_snoc, length_app. simpl.
        replace (length g.2 + 1) with (S (length g.2)) by lia.
        by rewrite replicate_S_end, app_assoc.
      + intros Hx. exfalso. apply Hx.
        destruct (Hlastc ck) as (_ & _ & Hgi); [done|].
        rewrite Hgs, length_app in Hgi. simpl in Hgi.
        assert (i = length gs + 1 - 1) by congruence. lia.
      + intros [Hne|?]; [|done]. exfalso. apply Hne.
        destruct (Hlastc ck) as (Hck & _); [done|]. congruence. }
  destruct Hsnoc as (x & -> & Hpos & Hx & Hiff).
  split; [|split].
  - rewrite !length_app. simpl. lia.
  - intros c0. rewrite !last_snoc. intros [= <-]. rewrite Hmode. split; [done|].
    split; [done|]. by rewrite Hx.
  - intros k ck c' i i' Hk HSk Hi HSi.
    apply lookup_snoc_Some in HSk as [[Hlt HSk]|[Hk' <-]].
    + rewrite lookup_app_l in Hk by lia.
      rewrite lookup_app_l in Hi by lia.
      rewrite lookup_app_l in HSi by lia.
      by apply (Hstarts k).
    + rewrite lookup_app_l in Hk by lia.
      rewrite lookup_app_l in Hi by lia.
      rewrite lookup_app_r in HSi by lia.
      replace (S k - length groupOf) with 0 in HSi by lia.
      injection HSi as <-.
      apply (Hiff ck i).
      * rewrite last_lookup. by replace (pred (length children)) with k by lia.
      * rewrite last_lookup. by replace (pred (length groupOf)) with k by lia.
Qed.

Lemma fold_left_groupingStep_inv l :
  groupingInv String_isTrue CombineModeFromString m_snapshot l
    (fold_left (groupingStep String_isTrue CombineModeFromString m_snapshot) l groupingInit).
Proof.
  induction l as [|c l IH] using rev_ind.
  - apply groupingInv_init.
  - rewrite fold_left_app. simpl. by apply groupingStep_inv.
Qed.

Lemma fold_left_groupingStep_startsInv l :
  startsInv String_isTrue CombineModeFromString m_snapshot l
    (fold_left (groupingStep String_isTrue CombineModeFromString m_snapshot) l groupingInit).
Proof.
  induction l as [|c l IH] using rev_ind.
  - apply startsInv_init.
  - rewrite fold_left_app. simpl. apply groupingStep_startsInv; [|done].
    apply fold_left_groupingStep_inv.
Qed.

End Proofs.

(** C3. The groups built by [combineComponentMesh] from a children
    list partition the non-empty child ids in declared order: read
    group after group they give the children back.  No group is empty
    and all members of a group have the group's mode; two neighbouring
    groups differ in mode unless the second is an [Inversion] group; and
    an [Inversion] group has exactly one member.  With
    [groupIndexes groups] giving the number of the group of each child:
    child [k + 1] is in another group than child [k] exactly when its
    mode differs from the mode of child [k] or is [Inversion]. *)
Theorem groupChildren_partition (String_isTrue : string → bool)
  (String_split : string → ascii → list string)
  (CombineModeFromString : string → CombineMode)
  (m_snapshot : Snapshot) (component : Attributes) :
  (∀ s, CombineModeFromString s ≠ Count) →
  let children :=
    filter (fun c => c ≠ "") (String_split (valueOrEmpty component "children") ","%char) in
  let groups :=
    combineGroups (groupChildren String_isTrue String_split CombineModeFromString
                     m_snapshot component) in
  concat (map (fun g => map fst g.2) groups) = children ∧
  Forall (fun g => g.2 ≠ [] ∧
    Forall (fun e => childCombineMode String_isTrue CombineModeFromString
                       m_snapshot e.1 = g.1) g.2) groups ∧
  (∀ k g1 g2, groups !! k = Some g1 → groups !! S k = Some g2 →
     g1.1 ≠ g2.1 ∨ g2.1 = Inversion) ∧
  Forall (fun g => g.1 = Inversion → length g.2 = 1) groups ∧
  length (groupIndexes groups) = length children ∧
  (∀ k c c' i i',
     children !! k = Some c → children !! S k = Some c' →
     groupIndexes groups !! k = Some i → groupIndexes groups !! S k = Some i' →
     (i' ≠ i ↔
      childCombineMode String_isTrue CombineModeFromString m_snapshot c' ≠
        childCombineMode String_isTrue CombineModeFromString m_snapshot c ∨
      childCombineMode String_isTrue CombineModeFromString m_snapshot c' = Inversion)).
Proof.
  intros Hcount children groups.
  destruct (fold_left_groupingStep_startsInv String_isTrue CombineModeFromString
              m_snapshot Hcount (String_split (valueOrEmpty component "children") ","%char))
    as (Hlen & _ & Hstarts).
  destruct (fold_left_groupingStep_inv String_isTrue CombineModeFromString m_snapshot
              Hcount (String_split (valueOrEmpty component "children") ","%char))
    as (Hcat & _ & _ & Hgroups & Hadj).
  split; [exact Hcat|]. split; [|split; [exact Hadj|split; [|split]]].
  - eapply Forall_impl; [exact Hgroups|]. intros g (_ & ? & ? & _). done.
  - eapply Forall_impl; [exact Hgroups|]. intros g (_ & _ & _ & ?). done.
  - exact Hlen.
  - exact Hstarts.
Qed.

(** C3 on a root with children [a,b,,c,d,e]. *)
Lemma groupChildren_partition_witness :
  concat (map (fun g => map fst g.2)
    (combineGroups (groupChildren isTrueModel splitModel CombineModeFromStringModel
                      exampleSnapshot (rootComponent exampleSnapshot))))
  = ["a"; "b"; "c"; "d"; "e"].
Proof.
  destruct (groupChildren_partition isTrueModel splitModel CombineModeFromStringModel
              exampleSnapshot (rootComponent exampleSnapshot)) as [Hcat _].
  - intros s. unfold CombineModeFromStringModel. repeat case_decide; done.
  - rewrite Hcat. vm_compute. reflexivity.
Defined.

End GroupingFacts.

(** ** generate: evicting cached combinations of dirty components *)
Module CacheFacts.
Import Cache.

Example stringFind_middle : stringFind "b|c" "a+b|c!" 0 = Some 2.
Proof. reflexivity. Qed.

Example stringFind_absent : stringFind "d" "a+b|c!" 0 = None.
Proof. reflexivity. Qed.

Example evictDirtyCombinations_example :
  evictDirtyCombinations {[ "b" ]}
    ({[ "a+b!" := Some 1; "a+c!" := None; "a+c!-b!" := Some 2 ]} : gmap string (option nat))
  = {[ "a+c!" := None ]}.
Proof. vm_compute. reflexivity. Qed.

Lemma startsWith_spec needle haystack :
  startsWith needle haystack = true ↔ ∃ after, haystack = needle +:+ after.
Proof.
  revert haystack. induction needle as [|a needle IH]; intros haystack; simpl.
  - split; [|done]. intros _. by exists haystack.
  - destruct haystack as [|b haystack].
    + split; [done|]. by intros [after ?].
    + destruct (decide (a = b)) as [->|Hne].
      * rewrite IH. split.
        -- intros [after ->]. by exists after.
        -- intros [after [= ->]]. by exists after.
      * split; [done|]. intros [after [= ]]. congruence.
Qed.

Lemma stringFind_spec needle haystack pos :
  stringFind needle haystack pos ≠ None ↔ isSubstring needle haystack.
Proof.
  revert pos. induction haystack as [|c haystack IH]; intros pos; simpl.
  - destruct (startsWith needle "") eqn:E.
    + split; [|done]. intros _. apply startsWith_spec in E as [after ->].
      by exists "", after.
    + split; [done|]. intros (before & after & Heq). exfalso.
      destruct before; [|done]. simpl in Heq.
      assert (startsWith needle "" = true); [|congruence].
      apply startsWith_spec. by exists after.
  - destruct (startsWith needle (String c haystack)) eqn:E.
    + split; [|done]. intros _. apply startsWith_spec in E as [after ->].
      by exists "", after.
    + rewrite IH. split.
      * intros (before & after & ->). by exists (String c before), after.
      * intros (before & after & Heq). destruct before as [|c' before].
        -- exfalso. simpl in Heq.
           assert (startsWith needle (String c haystack) = true); [|congruence].
           apply startsWith_spec. by exists after.
        -- injection Heq as -> ->. by exists before, after.
Qed.

Section Proofs.

Context {Mesh : Type}.

Lemma evictCombinations_lookup d (cache : gmap string (option Mesh)) key :
  evictCombinations d cache !! key =
  if decide (stringFind d key 0 ≠ None) then None else cache !! key.
Proof.
  unfold evictCombinations.
  assert (Hfold : ∀ c0 m : gmap string (option Mesh), ∀ k,
    map_fold (fun key _ cache =>
       if decide (stringFind d key 0 ≠ None) then delete key cache else cache) c0 m !! k
    = match m !! k with
      | Some _ => if decide (stringFind d k 0 ≠ None) then None else c0 !! k
      | None => c0 !! k
      end).
  { intros c0 m. apply (map_fold_weak_ind (fun r m => ∀ k, r !! k =
      match m !! k with
      | Some _ => if decide (stringFind d k 0 ≠ None) then None else c0 !! k
      | None => c0 !! k
      end)).
    - intros k. by rewrite lookup_empty.
    - intros i x m' r Hi IH k. destruct (decide (k = i)) as [->|Hne].
      + rewrite lookup_insert_eq. destruct (decide (stringFind d i 0 ≠ None)).
        * by rewrite lookup_delete_eq.
        * by rewrite IH, Hi.
      + rewrite lookup_insert_ne by done.
        destruct (decide (stringFind d i 0 ≠ None)).
        * rewrite lookup_delete_ne by done. apply IH.
        * apply IH. }
  rewrite Hfold. destruct (cache !! key) eqn:E; [done|].
  by destruct (decide _).
Qed.

Lemma fold_left_evictCombinations_lookup ds (cache : gmap string (option Mesh)) key :
  fold_left (fun cache d => evictCombinations d cache) ds cache !! key =
  if decide (Exists (fun d => stringFind d key 0 ≠ None) ds) then None
  else cache !! key.
Proof.
  revert cache. induction ds as [|d ds IH]; intros cache; cbn [fold_left].
  - rewrite decide_False; [done|]. by intros ?%Exists_nil.
  - rewrite IH, evictCombinations_lookup.
    destruct (decide (Exists _ ds)) as [Hds|Hds].
    + rewrite decide_True; [done|]. by right.
    + destruct (decide (stringFind d key 0 ≠ None)) as [Hd|Hd].
      * rewrite decide_True; [done|]. by left.
      * rewrite decide_False; [done|]. by intros [?|?]%Exists_cons.
Qed.

(** C6. After the eviction loop no entry of the combination cache has a
    key that contains a dirty component id as a substring: every such
    entry is gone.  And only those are gone: an entry whose key contains
    no dirty id is kept as it was. *)
Theorem evictDirtyCombinations_evicts (m_dirtyComponentIds : gset string)
  (cachedCombination : gmap string (option Mesh)) :
  (∀ d key, d ∈ m_dirtyComponentIds → isSubstring d key →
     evictDirtyCombinations m_dirtyComponentIds cachedCombination !! key = None) ∧
  (∀ key, (∀ d, d ∈ m_dirtyComponentIds → ¬ isSubstring d key) →
     evictDirtyCombinations m_dirtyComponentIds cachedCombination !! key
     = cachedCombination !! key).
Proof.
  unfold evictDirtyCombinations. split.
  - intros d key Hd Hsub. rewrite fold_left_evictCombinations_lookup.
    rewrite decide_True; [done|]. apply Exists_exists. exists d. split.
    + by apply elem_of_elements.
    + by apply stringFind_spec.
  - intros key Hnone. rewrite fold_left_evictCombinations_lookup.
    rewrite decide_False; [done|]. intros (d & Hd & Hfind)%Exists_exists.
    apply (Hnone d); [by apply elem_of_elements|by apply stringFind_spec in Hfind].
Qed.

End Proofs.

End CacheFacts.

(** ** reverseUuid *)
Module ReverseUuidFacts.
Import Snapshot ReverseUuid.

Example reverseUuid_example :
  reverseUuid Uuid_to_string_model "{01234567-89ab-cdef-0123-456789abcdef}"
  = Some "{fedcba98-7654-3210-fedc-ba9876543210}".
Proof. vm_compute. reflexivity. Qed.

Example reverseUuid_not_a_uuid :
  reverseUuid Uuid_to_string_model "left arm" = Some nilUuidString.
Proof. vm_compute. reflexivity. Qed.

Section Proofs.

Variable isDigit : ascii → bool.
Variable Uuid_to_string : string → string.

(** Parsing and printing back a well-formed UUID string gives the same
    string. *)
Hypothesis Uuid_to_string_canonical :
  ∀ s, isUuidString isDigit s = true → Uuid_to_string s = s.

Ltac digits_ok :=
  unfold isUuidString; cbn;
  repeat match goal with
         | H : isDigit ?c = true |- context [isDigit ?c] => rewrite H
         end;
  reflexivity.

Lemma reverseUuid_round_trip s :
  isUuidString isDigit s = true →
  ∃ r, reverseUuid Uuid_to_string s = Some r ∧
       isUuidString isDigit r = true ∧
       reverseUuid Uuid_to_string r = Some s ∧
       (r = s ↔ uuidDigits s = stringReverse (uuidDigits s)).
Proof.
  intros Hwf. pose proof Hwf as Hwf'. unfold isUuidString in Hwf'.
  apply andb_true_iff in Hwf' as [Hlen Hok]. apply Nat.eqb_eq in Hlen.
  do 38 (destruct s as [|? s]; [discriminate Hlen|]).
  destruct s; [|discriminate Hlen]. clear Hlen.
  cbv [uuidCharsOk uuidCharOk] in Hok. cbn in Hok.
  repeat (apply andb_true_iff in Hok as [? Hok]).
  repeat match goal with
         | H : Ascii.eqb _ _ = true |- _ => apply Ascii.eqb_eq in H; subst
         end.
  eexists. split; [|split; [|split]].
  - unfold reverseUuid. rewrite (Uuid_to_string_canonical _ Hwf). cbv. reflexivity.
  - digits_ok.
  - unfold reverseUuid. rewrite Uuid_to_string_canonical by digits_ok. reflexivity.
  - vm_compute. split; intros Heq; simplify_eq; reflexivity.
Qed.

(** C7, as the code has it.  On well-formed UUID strings [reverseUuid]
    returns a well-formed UUID string and undoes itself, so it is
    injective and every well-formed UUID string is the reverse of one:
    a bijection.  Its result is the input itself exactly when the 32
    digits read the same in both directions, and differs otherwise. *)
Theorem reverseUuid_bijection (s : string) :
  isUuidString isDigit s = true →
  ∃ r, reverseUuid Uuid_to_string s = Some r ∧
       isUuidString isDigit r = true ∧
       reverseUuid Uuid_to_string r = Some s ∧
       (∀ t, isUuidString isDigit t = true →
             reverseUuid Uuid_to_string t = Some r → t = s) ∧
       (r = s ↔ uuidDigits s = stringReverse (uuidDigits s)).
Proof.
  intros Hwf.
  destruct (reverseUuid_round_trip s Hwf) as (r & Hr & Hwfr & Hback & Hfix).
  exists r. repeat split; try done.
  - intros t Hwft Ht.
    destruct (reverseUuid_round_trip t Hwft) as (r' & Hr' & _ & Hback' & _).
    congruence.
  - by apply Hfix.
  - by apply Hfix.
Qed.

End Proofs.

Lemma Uuid_to_string_model_canonical s :
  isUuidString isLowerHexDigit s = true → Uuid_to_string_model s = s.
Proof. intros H. unfold Uuid_to_string_model. by rewrite H. Qed.

(** C7 applied to a UUID whose reverse is another UUID. *)
Lemma reverseUuid_bijection_witness :
  ∃ r, reverseUuid Uuid_to_string_model "{01234567-89ab-cdef-0123-456789abcdef}" = Some r ∧
       reverseUuid Uuid_to_string_model r = Some "{01234567-89ab-cdef-0123-456789abcdef}".
Proof.
  destruct (reverseUuid_bijection isLowerHexDigit Uuid_to_string_model
              Uuid_to_string_model_canonical
              "{01234567-89ab-cdef-0123-456789abcdef}")
    as (r & Hr & _ & Hback & _).
  - vm_compute. reflexivity.
  - exists r. split; [exact Hr | exact Hback].
Defined.

(** C7 as stated fails: this well-formed UUID string, whose digits read
    the same in both directions, is its own reverse.  So is the nil
    UUID. *)
Lemma reverseUuid_fixed_point :
  isUuidString isLowerHexDigit "{12345678-9abc-def0-0fed-cba987654321}" = true ∧
  reverseUuid Uuid_to_string_model "{12345678-9abc-def0-0fed-cba987654321}"
    = Some "{12345678-9abc-def0-0fed-cba987654321}" ∧
  reverseUuid Uuid_to_string_model nilUuidString = Some nilUuidString.
Proof. vm_compute. repeat split; reflexivity. Qed.

End ReverseUuidFacts.

(** ** collectParts and checkDirtyFlags *)
Module DirtyFacts.
Import Snapshot Dirty.

Example checkDirtyFlags_example :
  (fun st => (size (m_dirtyComponentIds st),
              map (fun id => bool_decide (id ∈ m_dirtyComponentIds st))
                ["hand"; "arm"; nilUuidString; "leg"])) <$>
    checkDirtyFlags isTrueModel splitModel Uuid_isNull_model dirtyExample
      (collectParts dirtyExample).1 3 emptyDirtyState
  = Some (3, [true; true; true; false]).
Proof. vm_compute. reflexivity. Qed.

Example checkDirtyFlags_out_of_fuel :
  checkDirtyFlags isTrueModel splitModel Uuid_isNull_model dirtyExample
    (collectParts dirtyExample).1 2 emptyDirtyState = None.
Proof. vm_compute. reflexivity. Qed.

Lemma elem_of_indexByPartId (table : gmap string Attributes) p n :
  n ∈ default ∅ (indexByPartId table !! p) ↔
  p ≠ "" ∧ ∃ attributes, table !! n = Some attributes ∧
                          valueOrEmpty attributes "partId" = p.
Proof.
  unfold indexByPartId. revert p n.
  apply (map_fold_weak_ind (fun (index : gmap string (gset string)) m => ∀ p n,
    n ∈ default ∅ (index !! p) ↔
    p ≠ "" ∧ ∃ attributes, m !! n = Some attributes ∧
                            valueOrEmpty attributes "partId" = p)).
  - intros p n. rewrite lookup_empty. simpl. split; [set_solver|].
    intros (_ & attributes & Hn & _). by rewrite lookup_empty in Hn.
  - intros i x m r Hi IH p n. simpl.
    destruct (decide (valueOrEmpty x "partId" = "")) as [Hempty|Hpid].
    + rewrite IH. split.
      * intros (Hp & attributes & Hn & Hattr). split; [done|].
        exists attributes. split; [|done].
        rewrite lookup_insert_ne; [done|]. intros ->. congruence.
      * intros (Hp & attributes & Hn & Hattr). split; [done|].
        exists attributes. split; [|done].
        destruct (decide (i = n)) as [->|Hne].
        -- rewrite lookup_insert_eq in Hn. congruence.
        -- by rewrite lookup_insert_ne in Hn.
    + destruct (decide (valueOrEmpty x "partId" = p)) as [<-|Hne].
      * rewrite lookup_insert_eq. simpl. rewrite elem_of_union, elem_of_singleton, IH.
        split.
        -- intros [->|(_ & attributes & Hn & Hattr)].
           ++ split; [done|]. exists x. by rewrite lookup_insert_eq.
           ++ split; [done|]. exists attributes. split; [|done].
              rewrite lookup_insert_ne; [done|]. intros ->. congruence.
        -- intros (_ & attributes & Hn & Hattr).
           destruct (decide (i = n)) as [->|Hin]; [by left|].
           right. split; [done|]. exists attributes.
           by rewrite lookup_insert_ne in Hn.
      * rewrite lookup_insert_ne by done. rewrite IH. split.
        -- intros (Hp & attributes & Hn & Hattr). split; [done|].
           exists attributes. split; [|done].
           rewrite lookup_insert_ne; [done|]. intros ->. congruence.
        -- intros (Hp & attributes & Hn & Hattr). split; [done|].
           exists attributes. split; [|done].
           destruct (decide (i = n)) as [->|Hin].
           ++ rewrite lookup_insert_eq in Hn. congruence.
           ++ by rewrite lookup_insert_ne in Hn.
Qed.

Section Proofs.

Variable String_isTrue : string → bool.
Variable String_split : string → ascii → list string.
Variable Uuid_isNull : string → bool.
Variable m_snapshot : Snapshot.
Variable m_partNodeIds : gmap string (gset string).

Local Abbreviation check :=
  (checkIsComponentDirty String_isTrue String_split Uuid_isNull m_snapshot m_partNodeIds).

Local Abbreviation child := (childOf String_split m_snapshot).

Local Abbreviation partDirty := (checkIsPartDirty String_isTrue m_snapshot).

Local Abbreviation dependencyDirty :=
  (checkIsPartDependencyDirty String_isTrue Uuid_isNull m_snapshot m_partNodeIds).

Local Abbreviation locallyDirtyHere :=
  (locallyDirty String_isTrue Uuid_isNull m_snapshot m_partNodeIds).
Local Abbreviation below :=
  (dirtyBelow String_isTrue String_split Uuid_isNull m_snapshot m_partNodeIds).
Local Abbreviation post :=
  (checkPost String_isTrue String_split Uuid_isNull m_snapshot m_partNodeIds).

Lemma checkLinkedPart_fst component isDirty st :
  (checkLinkedPart String_isTrue Uuid_isNull m_snapshot m_partNodeIds
     component isDirty st).1 =
  isDirty ||
  (bool_decide (valueOrEmpty component "linkDataType" = "partId") &&
   (partDirty (valueOrEmpty component "linkData") ||
    dependencyDirty (valueOrEmpty component "linkData"))).
Proof.
  unfold checkLinkedPart. case_decide as Hlink.
  - rewrite bool_decide_eq_true_2 by done. simpl.
    destruct (partDirty _); simpl; [by destruct isDirty|].
    destruct isDirty; simpl; [done|]. by destruct (dependencyDirty _).
  - rewrite bool_decide_eq_false_2 by done. simpl. by destruct isDirty.
Qed.

Lemma checkLinkedPart_components component isDirty st :
  m_dirtyComponentIds
    (checkLinkedPart String_isTrue Uuid_isNull m_snapshot m_partNodeIds
       component isDirty st).2 = m_dirtyComponentIds st.
Proof.
  unfold checkLinkedPart. case_decide; [|done].
  destruct (partDirty _); simpl; [done|].
  destruct isDirty; simpl; [done|]. by destruct (dependencyDirty _).
Qed.

Lemma checkChildren_post recurse children isDirty st b st' :
  (∀ id st b st', recurse id st = Some (b, st') → post id st b st') →
  checkChildren recurse children isDirty st = Some (b, st') →
  m_dirtyComponentIds st ⊆ m_dirtyComponentIds st' ∧
  (isDirty = true → b = true) ∧
  (∀ c, c ∈ children → c ≠ "" → below c → b = true) ∧
  (∀ c d, c ∈ children → c ≠ "" → rtc child c d → below d →
          d ∈ m_dirtyComponentIds st').
Proof.
  intros Hrec. revert isDirty st.
  induction children as [|c rest IH]; intros isDirty st; simpl.
  - intros [= <- <-]. repeat split; try done.
    + intros c ?%elem_of_nil. done.
    + intros c d ?%elem_of_nil. done.
  - destruct (decide (c = "")) as [->|Hc].
    + intros Hrest. apply IH in Hrest as (Hsub & Hb & Hc1 & Hc2).
      repeat split; try done.
      * intros c [->|?]%elem_of_cons ? ?; [done|]. by apply (Hc1 c).
      * intros c d [->|?]%elem_of_cons ? ? ?; [done|]. by apply (Hc2 c).
    + destruct (recurse c st) as [[cb st1]|] eqn:Hcall; [|done].
      intros Hrest. apply IH in Hrest as (Hsub & Hb & Hc1 & Hc2).
      apply Hrec in Hcall as (Hsub1 & Hbelow1 & _ & Hdesc1).
      repeat split.
      * set_solver.
      * intros ->. apply Hb. by destruct cb.
      * intros c' [->|?]%elem_of_cons ? Hbelow; [|by apply (Hc1 c')].
        apply Hb. by rewrite (Hbelow1 Hbelow).
      * intros c' d [->|?]%elem_of_cons ? Hreach Hbelow; [|by apply (Hc2 c')].
        apply Hsub. by apply Hdesc1.
Qed.

Lemma checkIsComponentDirty_post fuel id st b st' :
  check fuel id st = Some (b, st') → post id st b st'.
Proof.
  revert id st b st'. induction fuel as [|fuel IH]; intros id st b st'; [done|].
  simpl. destruct (lookupComponent m_snapshot id) as [component|] eqn:Hlook.
  - set (linked := checkLinkedPart _ _ _ _ _ _ _).
    destruct (checkChildren _ _ _ _) as [[cb st1]|] eqn:Hch; [|done].
    apply (checkChildren_post _ _ _ _ _ _ IH) in Hch as (Hsub & Hb & Hc1 & Hc2).
    subst linked. rewrite checkLinkedPart_components in Hsub.
    rewrite checkLinkedPart_fst in Hb. fold (locallyDirtyHere component) in Hb.
    assert (Hbelow : below id → cb = true).
    { intros Hd. inversion Hd as [? component' Hlook' Hloc|? c (comp & Hl & Hne & Hin) Hdc]; subst.
      - apply Hb. congruence.
      - apply (Hc1 c); [congruence|done|done]. }
    assert (Hdesc : ∀ d, rtc child id d → d ≠ id → below d →
                         d ∈ m_dirtyComponentIds st1).
    { intros d Hreach Hne Hd. destruct Hreach as [|x c z (comp & Hl & Hcne & Hin) Hrest]; [done|].
      apply (Hc2 c); [congruence|done|done|done]. }
    destruct cb.
    + intros [= <- <-]. unfold checkPost. simpl. repeat split.
      * set_solver.
      * set_solver.
      * intros d Hreach Hd. destruct (decide (d = id)) as [->|Hne]; [set_solver|].
        apply elem_of_union. right. by apply Hdesc.
    + intros [= <- <-]. unfold checkPost. repeat split; try done.
      intros d Hreach Hd. destruct (decide (d = id)) as [->|Hne].
      * by specialize (Hbelow Hd).
      * by apply Hdesc.
  - intros [= <- <-]. unfold checkPost.
    assert (Hnot : ¬ below id).
    { intros Hd. inversion Hd as [? ? Hlook'|? c (comp & Hl & _)]; congruence. }
    repeat split; try done.
    intros d Hreach Hd. destruct Hreach as [|x c z (comp & Hl & _) Hrest]; [done|congruence].
Qed.

Lemma checkChildren_is_Some recurse children isDirty st :
  (∀ c, c ∈ children → c ≠ "" → ∀ st, is_Some (recurse c st)) →
  is_Some (checkChildren recurse children isDirty st).
Proof.
  revert isDirty st. induction children as [|c rest IH]; intros isDirty st Hrec; simpl.
  - eauto.
  - destruct (decide (c = "")) as [->|Hc].
    + apply IH. intros c' ? ?. apply Hrec; [by right|done].
    + destruct (Hrec c (list_elem_of_here _ _) Hc st) as [[cb st1] ->].
      apply IH. intros c' ? ?. apply Hrec; [by right|done].
Qed.

Lemma checkIsComponentDirty_is_Some fuel id st :
  depthWithin String_split m_snapshot fuel id = true → is_Some (check fuel id st).
Proof.
  revert id st. induction fuel as [|fuel IH]; intros id st; simpl; [done|].
  destruct (lookupComponent m_snapshot id) as [component|]; [|eauto].
  intros Hdepth. rewrite forallb_forall in Hdepth.
  set (linked := checkLinkedPart _ _ _ _ _ _ _).
  destruct (checkChildren_is_Some (check fuel)
              (String_split (valueOrEmpty component "children") ","%char)
              linked.1 linked.2) as [[cb st1] ->].
  - intros c Hin Hc st0. apply IH.
    specialize (Hdepth c (proj1 (list_elem_of_In _ _) Hin)).
    apply orb_true_iff in Hdepth as [Hempty|?]; [|done].
    by apply bool_decide_eq_true in Hempty.
  - destruct cb; eauto.
Qed.

Lemma checkIsPartDependencyDirty_true partIdString part :
  parts m_snapshot !! partIdString = Some part →
  (cutFaceIsDirty String_isTrue Uuid_isNull m_snapshot part = true ∨
   ∃ n node, n ∈ default ∅ (m_partNodeIds !! partIdString) ∧
             nodes m_snapshot !! n = Some node ∧
             cutFaceIsDirty String_isTrue Uuid_isNull m_snapshot node = true) →
  dependencyDirty partIdString = true.
Proof.
  intros Hpart Hdep. unfold checkIsPartDependencyDirty. rewrite Hpart.
  destruct (cutFaceIsDirty _ _ _ part) eqn:Hcut; [done|].
  destruct Hdep as [?|(n & node & Hn & Hnode & Hdirty)]; [done|].
  apply existsb_exists. exists n. split.
  - by apply list_elem_of_In, elem_of_elements.
  - by rewrite Hnode.
Qed.

End Proofs.

(** C5.  On a snapshot whose component tree is no deeper than the
    recursion bound, [checkDirtyFlags] returns, and then:
    (1) if a component [C] reachable from the root through children
    lists has [__dirty] equal to ["true"], then [C] and every component
    [a] on a children-path from the root to [C] are in
    [m_dirtyComponentIds];
    (2) a reachable leaf (a component linked to a part) is in
    [m_dirtyComponentIds] whenever its part is dirty, or the cut face of
    the part names a dirty part, or the cut face of one of the nodes of
    the part names a dirty part. *)
Theorem checkDirtyFlags_closure (String_isTrue : string → bool)
  (String_split : string → ascii → list string) (Uuid_isNull : string → bool)
  (m_snapshot : Snapshot) (fuel : nat) (st : DirtyState) :
  String_isTrue "true" = true →
  depthWithin String_split m_snapshot fuel nilUuidString = true →
  ∃ st',
    checkDirtyFlags String_isTrue String_split Uuid_isNull m_snapshot
      (collectParts m_snapshot).1 fuel st = Some st' ∧
    (∀ a C component,
       rtc (childOf String_split m_snapshot) nilUuidString a →
       rtc (childOf String_split m_snapshot) a C →
       lookupComponent m_snapshot C = Some component →
       component !! "__dirty" = Some "true" →
       a ∈ m_dirtyComponentIds st') ∧
    (∀ C component part,
       rtc (childOf String_split m_snapshot) nilUuidString C →
       lookupComponent m_snapshot C = Some component →
       valueOrEmpty component "linkDataType" = "partId" →
       parts m_snapshot !! valueOrEmpty component "linkData" = Some part →
       (String_isTrue (valueOrEmpty part "__dirty") = true ∨
        cutFaceIsDirty String_isTrue Uuid_isNull m_snapshot part = true ∨
        ∃ n node,
          nodes m_snapshot !! n = Some node ∧
          valueOrEmpty node "partId" = valueOrEmpty component "linkData" ∧
          valueOrEmpty component "linkData" ≠ "" ∧
          cutFaceIsDirty String_isTrue Uuid_isNull m_snapshot node = true) →
       C ∈ m_dirtyComponentIds st').
Proof.
  intros Htrue Hdepth. unfold checkDirtyFlags.
  destruct (checkIsComponentDirty_is_Some String_isTrue String_split Uuid_isNull
              m_snapshot (collectParts m_snapshot).1 fuel nilUuidString st Hdepth)
    as [[b st'] Hrun].
  rewrite Hrun. simpl. exists st'. split; [done|].
  apply checkIsComponentDirty_post in Hrun as (_ & _ & _ & Hdesc).
  split.
  - intros a C component Hroot Hpath Hlook Hflag.
    apply Hdesc; [done|]. clear Hroot.
    induction Hpath as [C|a c C Hchild Hrest IH].
    + apply (dirtyBelow_here _ _ _ _ _ C component Hlook).
      unfold locallyDirty, valueOrEmpty. rewrite Hflag. simpl. by rewrite Htrue.
    + apply (dirtyBelow_child _ _ _ _ _ a c Hchild). by apply IH.
  - intros C component part Hroot Hlook Hlink Hpart Hcause.
    apply Hdesc; [done|].
    apply (dirtyBelow_here _ _ _ _ _ C component Hlook).
    unfold locallyDirty. rewrite bool_decide_eq_true_2 by done.
    apply orb_true_iff. right. simpl. apply orb_true_iff.
    destruct Hcause as [Hdirty|Hdep].
    + left. unfold checkIsPartDirty. by rewrite Hpart.
    + right. apply (checkIsPartDependencyDirty_true _ _ _ _ _ part Hpart).
      destruct Hdep as [?|(n & node & Hnode & Hpid & Hne & Hcut)]; [by left|].
      right. exists n, node. split; [|done].
      unfold collectParts. simpl. apply elem_of_indexByPartId.
      split; [done|]. by exists node.
Qed.

Lemma dirtyExample_hand_reachable :
  rtc (childOf splitModel dirtyExample) nilUuidString "hand".
Proof.
  apply (rtc_l _ _ "arm").
  - exists (rootComponent dirtyExample). split; [done|]. split; [done|].
    vm_compute. left.
  - apply rtc_once. eexists. split; [reflexivity|]. split; [done|].
    vm_compute. left.
Qed.

(** C5 on the example: the hand is a leaf whose part takes its cut face
    from a dirty part, so the hand is dirty. *)
Lemma checkDirtyFlags_closure_witness :
  ∃ st',
    checkDirtyFlags isTrueModel splitModel Uuid_isNull_model dirtyExample
      (collectParts dirtyExample).1 3 emptyDirtyState = Some st' ∧
    "hand" ∈ m_dirtyComponentIds st'.
Proof.
  destruct (checkDirtyFlags_closure isTrueModel splitModel Uuid_isNull_model
              dirtyExample 3 emptyDirtyState) as (st' & Hrun & _ & Hleaf).
  - reflexivity.
  - vm_compute. reflexivity.
  - exists st'. split; [exact Hrun|].
    eapply (Hleaf "hand").
    + exact dirtyExample_hand_reachable.
    + reflexivity.
    + reflexivity.
    + reflexivity.
    + right. left. vm_compute. reflexivity.
Defined.

End DirtyFacts.

(** ** combineMultipleMeshes and the routing of child meshes *)
Module CombineFacts.
Import Snapshot Combine.

Example combineMultipleMeshes_subtraction :
  (toyCombineMultipleMeshes
     [(Some (solid "A"), Normal, "a"); (Some (solid "B"), Inversion, "b")] true ∅ true).1.1
  = Some (solid "(A-B)").
Proof. vm_compute. reflexivity. Qed.

Example combineMultipleMeshes_first_inverted :
  (toyCombineMultipleMeshes
     [(None, Normal, "n"); (Some (solid "A"), Inversion, "a");
      (Some (solid "B"), Normal, "b")] true ∅ true).1.1
  = Some (solid "(A+B)").
Proof. vm_compute. reflexivity. Qed.

Lemma startsWith_refl s : Cache.startsWith s s = true.
Proof.
  apply CacheFacts.startsWith_spec. exists "".
  induction s as [|a s IH]; [done|].
  change (String a s = String a (s +:+ "")). by f_equal.
Qed.

Lemma string_app_assoc (s1 s2 s3 : string) : (s1 +:+ s2) +:+ s3 = s1 +:+ (s2 +:+ s3).
Proof.
  induction s1 as [|a s1 IH]; [done|].
  change (String a ((s1 +:+ s2) +:+ s3) = String a (s1 +:+ (s2 +:+ s3))). by f_equal.
Qed.

Lemma startsWith_app p s t :
  Cache.startsWith p s = true → Cache.startsWith p (s +:+ t) = true.
Proof.
  intros [after ->]%CacheFacts.startsWith_spec. apply CacheFacts.startsWith_spec.
  exists (after +:+ t). apply string_app_assoc.
Qed.

Section Proofs.

Context {Mesh Vector3 Source : Type}.
Variable isNull : Mesh → bool.
Variable isCombinable : Mesh → bool.
Variable MeshCombiner_combine : Mesh → Mesh → Method → option (Mesh * list Source).
Variable Mesh_fetch : Mesh → list Vector3 * list (list nat).
Variable Mesh_make : list Vector3 → list (list nat) → Mesh.
Variable MeshRecombiner_recombine :
  list Vector3 → list Source → list (list nat) → option (list Vector3 * list (list nat)).

Local Abbreviation step :=
  (combineStep isNull isCombinable MeshCombiner_combine Mesh_fetch Mesh_make
     MeshRecombiner_recombine).

Lemma combineStep_passedOver recombine st it :
  passedOver isNull isCombinable it → step recombine st it = st.
Proof.
  destruct it as [[[subMesh|] mode] id]; unfold passedOver; simpl; [|done].
  intros [-> | ->]; [done|]. by destruct (isNull subMesh).
Qed.

Lemma fold_left_passedOver recombine st its :
  Forall (passedOver isNull isCombinable) its → fold_left (step recombine) its st = st.
Proof.
  induction 1 as [|it its Hit _ IH]; simpl; [done|].
  by rewrite combineStep_passedOver.
Qed.

Lemma combineStep_first recombine st m mode id :
  mesh st = None → isNull m = false → isCombinable m = true →
  step recombine st (Some m, mode, id) =
  {| mesh := Some m; meshIdStrings := id;
     cachedCombination := cachedCombination st;
     m_isSuccessful := m_isSuccessful st |}.
Proof. intros Hnone Hnull Hcomb. simpl. by rewrite Hnull, Hcomb, Hnone. Qed.

Lemma combineStep_keysExtend recombine id cache st it :
  keysExtend id cache st → keysExtend id cache (step recombine st it).
Proof.
  intros (Hmesh & Hids & Hkeys).
  destruct it as [[[subMesh|] mode] subId]; simpl; [|done].
  destruct (isNull subMesh); [done|].
  destruct (isCombinable subMesh); simpl; [|done].
  destruct Hmesh as [accumulated Hacc]. rewrite Hacc.
  set (ids := meshIdStrings st +:+ _).
  assert (Hprefix : Cache.startsWith id ids = true) by by apply startsWith_app.
  assert (Hins : ∀ v key, is_Some (<[ids := v]> (cachedCombination st) !! key) →
                          is_Some (cache !! key) ∨ Cache.startsWith id key = true).
  { intros v key Hkey. destruct (decide (ids = key)) as [<-|Hne]; [by right|].
    rewrite lookup_insert_ne in Hkey by done. by apply Hkeys. }
  destruct (cachedCombination st !! ids) as [cached|] eqn:Hcached; simpl.
  - destruct cached as [newMesh|]; [destruct (isNull newMesh)|];
      simpl; (split; [by eauto|]); split; done.
  - destruct (combineTwoMeshes _ _ _ _ _ _ _ _ _ _) as [newMesh|];
      [destruct (isNull newMesh)|];
      simpl; (split; [by eauto|]); (split; [done|]); apply Hins.
Qed.

Lemma fold_left_keysExtend recombine id cache its st :
  keysExtend id cache st → keysExtend id cache (fold_left (step recombine) its st).
Proof.
  revert st. induction its as [|it its IH]; intros st Hst; simpl; [done|].
  by apply IH, combineStep_keysExtend.
Qed.

(** C10.  Let the list begin with entries that are passed over, followed
    by a non-null combinable submesh [m] with any combine mode [mode]
    and id string [id].  Then after [m] the accumulator is [m] itself
    and [meshIdStrings] is [id], with the cache and the success flag
    untouched: no CSG operation has run, and [mode] plays no part, so an
    [Inversion] first mesh is not subtracted.  The call continues from
    there; every later combination string begins with [id], and every
    key the call adds to the cache begins with [id]. *)
Theorem combineMultipleMeshes_first_accumulator
  (before rest : list (option Mesh * CombineMode * string))
  (m : Mesh) (mode : CombineMode) (id : string) (recombine : bool)
  (cache : gmap string (option Mesh)) (successful : bool) :
  Forall (passedOver isNull isCombinable) before → isNull m = false → isCombinable m = true →
  let start := {| mesh := Some m; meshIdStrings := id;
                  cachedCombination := cache; m_isSuccessful := successful |} in
  let final := fold_left (step recombine) rest start in
  fold_left (step recombine) (before ++ [(Some m, mode, id)])
    (combineInit cache successful) = start ∧
  combineMultipleMeshes isNull isCombinable MeshCombiner_combine Mesh_fetch Mesh_make
    MeshRecombiner_recombine (before ++ (Some m, mode, id) :: rest) recombine
    cache successful
  = (combineResult isNull final, cachedCombination final, m_isSuccessful final) ∧
  (rest = [] → combineResult isNull final = Some m) ∧
  Cache.startsWith id (meshIdStrings final) = true ∧
  (∀ key, is_Some (cachedCombination final !! key) →
          is_Some (cache !! key) ∨ Cache.startsWith id key = true).
Proof.
  intros Hbefore Hnull Hcomb start final.
  assert (Hstart : fold_left (step recombine) (before ++ [(Some m, mode, id)])
                     (combineInit cache successful) = start).
  { rewrite fold_left_app, (fold_left_passedOver _ _ before) by done. cbn [fold_left].
    by rewrite combineStep_first. }
  split; [exact Hstart|]. split; [|split].
  - unfold combineMultipleMeshes.
    change (before ++ (Some m, mode, id) :: rest)
      with (before ++ [(Some m, mode, id)] ++ rest).
    by rewrite app_assoc, fold_left_app, Hstart.
  - intros ->. unfold final, combineResult. simpl. by rewrite Hnull.
  - assert (Hext : keysExtend id cache final).
    { apply fold_left_keysExtend. split; [by eexists|]. split.
      - apply startsWith_refl.
      - intros key Hkey. by left. }
    destruct Hext as (_ & Hids & Hkeys). by split.
Qed.

(** The sibling path: [combineComponentChildGroupMesh] keeps a child mesh
    that is not combinable in [incombinableMeshes]. *)
Lemma routeChildMesh_incombinable incombinableMeshes multipleMeshes m mode id :
  mode ≠ Uncombined → isNull m = false → isCombinable m = false →
  routeChildMesh isNull isCombinable (incombinableMeshes, multipleMeshes)
    (Some m, mode, id) = (incombinableMeshes ++ [m], multipleMeshes).
Proof.
  intros Hmode Hnull Hcomb. unfold routeChildMesh.
  rewrite decide_False by done. by rewrite Hnull, Hcomb.
Qed.

End Proofs.

(** C10 on a list that starts with a null pointer and whose first mesh
    is marked [Inversion]. *)
Lemma combineMultipleMeshes_first_accumulator_witness :
  (toyCombineMultipleMeshes
     [(None, Normal, "n"); (Some (solid "A"), Inversion, "a")] true ∅ true).1.1
  = Some (solid "A").
Proof.
  destruct (combineMultipleMeshes_first_accumulator (Vector3 := unit)
              toyNull toyCombinable toyCombine
              (fun _ => ([], []))
              (fun _ _ => {| toyName := ""; toyNull := true; toyCombinable := false |})
              (fun _ _ _ => None)
              [(None, Normal, "n")] [] (solid "A") Inversion "a" true ∅ true)
    as (_ & Hcall & Hresult & _).
  - repeat constructor.
  - reflexivity.
  - reflexivity.
  - unfold toyCombineMultipleMeshes. simpl app in Hcall. rewrite Hcall.
    simpl. by apply Hresult.
Defined.


End CombineFacts.

(** ** combineMultipleMeshes: what a call returns and what it leaves behind *)
Module CombineRunFacts.
Import Snapshot Combine CombineReplay.

Section Proofs.

Context {Mesh Vector3 Source : Type}.
Variable isNull : Mesh → bool.
Variable isCombinable : Mesh → bool.
Variable MeshCombiner_combine : Mesh → Mesh → Method → option (Mesh * list Source).
Variable Mesh_fetch : Mesh → list Vector3 * list (list nat).
Variable Mesh_make : list Vector3 → list (list nat) → Mesh.
Variable MeshRecombiner_recombine :
  list Vector3 → list Source → list (list nat) → option (list Vector3 * list (list nat)).

Local Abbreviation step :=
  (combineStep isNull isCombinable MeshCombiner_combine Mesh_fetch Mesh_make
     MeshRecombiner_recombine).

(** What one iteration does to the state, whatever the branch taken. *)
Lemma combineStep_effects recombine st it :
  let st' := step recombine st it in
  cachedCombination st ⊆ cachedCombination st' ∧
  (m_isSuccessful st' = true → m_isSuccessful st = true) ∧
  (is_Some (mesh st) → is_Some (mesh st')) ∧
  (passedOver isNull isCombinable it ∨ is_Some (mesh st')) ∧
  ((∀ m, mesh st = Some m → isNull m = false) →
   ∀ m, mesh st' = Some m → isNull m = false).
Proof.
  destruct it as [[[subMesh|] mode] subId]; simpl.
  2: { repeat split; try done. by left. }
  destruct (isNull subMesh) eqn:Hnull.
  { repeat split; try done. left. unfold passedOver. simpl. by left. }
  destruct (isCombinable subMesh) eqn:Hcomb; simpl.
  2: { repeat split; try done. left. unfold passedOver. simpl. by right. }
  destruct (mesh st) as [accumulated|] eqn:Hacc.
  2: { simpl. repeat split; try done.
       - by right.
       - intros _ m [= <-]. done. }
  set (ids := meshIdStrings st +:+ _).
  destruct (cachedCombination st !! ids) as [cached|] eqn:Hcached; simpl.
  - destruct cached as [newMesh|]; [destruct (isNull newMesh) eqn:Hnew|]; simpl;
      rewrite ?Hacc; repeat split; try done; eauto.
    intros _ m [= <-]. done.
  - destruct (combineTwoMeshes _ _ _ _ _ _ _ _ _ _) as [newMesh|];
      [destruct (isNull newMesh) eqn:Hnew|]; simpl;
      rewrite ?Hacc; repeat split; try done; eauto;
      try (by apply insert_subseteq).
    intros _ m [= <-]. done.
Qed.

Lemma fold_left_combineStep_effects recombine its st :
  let st' := fold_left (step recombine) its st in
  cachedCombination st ⊆ cachedCombination st' ∧
  (m_isSuccessful st' = true → m_isSuccessful st = true) ∧
  (is_Some (mesh st) → is_Some (mesh st')) ∧
  (Forall (passedOver isNull isCombinable) its ∨ is_Some (mesh st')) ∧
  ((∀ m, mesh st = Some m → isNull m = false) →
   ∀ m, mesh st' = Some m → isNull m = false).
Proof.
  revert st. induction its as [|it its IH]; intros st; simpl.
  - repeat split; try done. by left.
  - destruct (combineStep_effects recombine st it) as (Hc1 & Hf1 & Hm1 & Hp1 & Hn1).
    destruct (IH (step recombine st it)) as (Hc & Hf & Hm & Hp & Hn).
    repeat split.
    + by trans (cachedCombination (step recombine st it)).
    + auto.
    + auto.
    + destruct Hp1 as [Hp1|Hsome]; [|right; auto].
      destruct Hp as [Hp|Hsome]; [left; by constructor|by right].
    + auto.
Qed.

(** The mesh returned by [combineMultipleMeshes] is [nullptr] exactly
    when every entry of the list is a null pointer, a null mesh or a mesh
    that is not combinable; the call has then touched neither the cache
    nor [m_isSuccessful].  A mesh that is returned is never a null mesh:
    a failed combination leaves the accumulator as it was. *)
Theorem combineMultipleMeshes_returns_mesh
  (multipleMeshes : list (option Mesh * CombineMode * string)) (recombine : bool)
  (cache : gmap string (option Mesh)) (successful : bool) :
  let result :=
    combineMultipleMeshes isNull isCombinable MeshCombiner_combine Mesh_fetch Mesh_make
      MeshRecombiner_recombine multipleMeshes recombine cache successful in
  (result.1.1 = None ↔ Forall (passedOver isNull isCombinable) multipleMeshes) ∧
  (Forall (passedOver isNull isCombinable) multipleMeshes →
   result = (None, cache, successful)) ∧
  (∀ m, result.1.1 = Some m → isNull m = false).
Proof.
  simpl. unfold combineMultipleMeshes. simpl.
  destruct (fold_left_combineStep_effects recombine multipleMeshes
              (combineInit cache successful)) as (_ & _ & _ & Hp & Hn).
  simpl in Hp, Hn.
  assert (Hnn : ∀ m, mesh (fold_left (step recombine) multipleMeshes
                             (combineInit cache successful)) = Some m →
                     isNull m = false).
  { apply Hn. intros m. done. }
  split; [|split].
  - split.
    + intros Hnone. destruct Hp as [Hp|[m Hm]]; [done|].
      unfold combineResult in Hnone. rewrite Hm in Hnone.
      by rewrite (Hnn m Hm) in Hnone.
    + intros Hall. by rewrite CombineFacts.fold_left_passedOver.
  - intros Hall. by rewrite CombineFacts.fold_left_passedOver.
  - intros m. unfold combineResult.
    destruct (mesh _) as [m'|]; [|done].
    rewrite (Hnn m' eq_refl). intros [= <-]. by apply Hnn.
Qed.

(** [combineMultipleMeshes] only adds to the combination cache: an entry
    that was there is there afterwards, with the mesh (or the recorded
    failure) it had.  And it never sets [m_isSuccessful] back to true. *)
Theorem combineMultipleMeshes_keeps_cache
  (multipleMeshes : list (option Mesh * CombineMode * string)) (recombine : bool)
  (cache : gmap string (option Mesh)) (successful : bool) :
  let result :=
    combineMultipleMeshes isNull isCombinable MeshCombiner_combine Mesh_fetch Mesh_make
      MeshRecombiner_recombine multipleMeshes recombine cache successful in
  (∀ key cached, cache !! key = Some cached → result.1.2 !! key = Some cached) ∧
  (result.2 = true → successful = true).
Proof.
  simpl. unfold combineMultipleMeshes. simpl.
  destruct (fold_left_combineStep_effects recombine multipleMeshes
              (combineInit cache successful)) as (Hc & Hf & _).
  split; [|done]. intros key cached Hkey.
  by apply (lookup_weaken _ _ _ _ Hkey).
Qed.

End Proofs.

(** *** Replaying a call on the cache it has filled *)
Section Replay.

Context {Mesh Vector3 Source : Type}.
Variable isNull : Mesh → bool.
Variable isCombinable : Mesh → bool.

(** Two CSG engines with their recombiners. *)
Variable MeshCombiner_combine combine' : Mesh → Mesh → Method → option (Mesh * list Source).
Variable Mesh_fetch fetch' : Mesh → list Vector3 * list (list nat).
Variable Mesh_make make' : list Vector3 → list (list nat) → Mesh.
Variable MeshRecombiner_recombine recombine' :
  list Vector3 → list Source → list (list nat) → option (list Vector3 * list (list nat)).

Local Abbreviation step :=
  (combineStep isNull isCombinable MeshCombiner_combine Mesh_fetch Mesh_make
     MeshRecombiner_recombine).
Local Abbreviation step' :=
  (combineStep isNull isCombinable combine' fetch' make' recombine').

Lemma combineStep_replay recombine st it big :
  cachedCombination (step recombine st it) ⊆ big →
  step' recombine (withCache big st) it = withCache big (step recombine st it).
Proof.
  destruct it as [[[subMesh|] mode] subId]; simpl; [|done].
  destruct (isNull subMesh); [done|].
  destruct (isCombinable subMesh); simpl; [|done].
  destruct (mesh st) as [accumulated|] eqn:Hacc; [|done].
  set (ids := meshIdStrings st +:+ _).
  destruct (cachedCombination st !! ids) as [cached|] eqn:Hcached; simpl.
  - intros Hsub.
    assert (Hbig : big !! ids = Some cached).
    { destruct cached as [newMesh|]; [destruct (isNull newMesh)|]; simpl in Hsub;
        by apply (lookup_weaken _ _ _ _ Hcached). }
    rewrite Hbig. simpl.
    destruct cached as [newMesh|]; [destruct (isNull newMesh)|]; done.
  - set (computed := combineTwoMeshes _ _ _ _ _ _ _ _ _ _).
    intros Hsub.
    assert (Hbig : big !! ids = Some computed).
    { destruct computed as [newMesh|]; [destruct (isNull newMesh)|]; simpl in Hsub;
        apply (lookup_weaken _ _ _ _ (lookup_insert_eq _ _ _) Hsub). }
    rewrite Hbig. simpl.
    destruct computed as [newMesh|]; [destruct (isNull newMesh)|]; done.
Qed.

Lemma fold_left_combineStep_replay recombine its st big :
  cachedCombination (fold_left (step recombine) its st) ⊆ big →
  fold_left (step' recombine) its (withCache big st)
  = withCache big (fold_left (step recombine) its st).
Proof.
  revert st. induction its as [|it its IH]; intros st Hsub; simpl; [done|].
  simpl in Hsub. rewrite combineStep_replay.
  - by apply IH.
  - etrans; [|exact Hsub].
    apply (fold_left_combineStep_effects isNull isCombinable MeshCombiner_combine
             Mesh_fetch Mesh_make MeshRecombiner_recombine recombine its
             (step recombine st it)).
Qed.

(** The combination cache makes a call repeatable: run again on the
    same list with the cache the first call has left, the function gives
    the same mesh and the same [m_isSuccessful], and leaves the cache as
    it is, whatever the CSG engine and the recombiner would now answer:
    every combination is found in the cache, a recorded failure
    included. *)
Theorem combineMultipleMeshes_replay
  (multipleMeshes : list (option Mesh * CombineMode * string)) (recombine : bool)
  (cache : gmap string (option Mesh)) (successful : bool) :
  let result :=
    combineMultipleMeshes isNull isCombinable MeshCombiner_combine Mesh_fetch Mesh_make
      MeshRecombiner_recombine multipleMeshes recombine cache successful in
  combineMultipleMeshes isNull isCombinable combine' fetch' make' recombine'
    multipleMeshes recombine result.1.2 successful = result.
Proof.
  simpl. unfold combineMultipleMeshes.
  set (final := fold_left (step recombine) multipleMeshes (combineInit cache successful)).
  change (combineInit (cachedCombination final) successful)
    with (withCache (cachedCombination final) (combineInit cache successful)).
  rewrite fold_left_combineStep_replay by done. done.
Qed.

End Replay.

End CombineRunFacts.

(** ** collectParts and checkIsComponentDirty: exact results *)
Module DirtyExactFacts.
Import Snapshot Dirty DirtyExact.

Section Proofs.

Variable String_isTrue : string → bool.
Variable String_split : string → ascii → list string.
Variable Uuid_isNull : string → bool.
Variable m_snapshot : Snapshot.
Variable m_partNodeIds : gmap string (gset string).

Local Abbreviation check :=
  (checkIsComponentDirty String_isTrue String_split Uuid_isNull m_snapshot m_partNodeIds).
Local Abbreviation child := (childOf String_split m_snapshot).
Local Abbreviation partDirty := (checkIsPartDirty String_isTrue m_snapshot).
Local Abbreviation below :=
  (dirtyBelow String_isTrue String_split Uuid_isNull m_snapshot m_partNodeIds).
Local Abbreviation linked := (linkedDirtyPart String_isTrue String_split m_snapshot).
Local Abbreviation exact :=
  (checkExact String_isTrue String_split Uuid_isNull m_snapshot m_partNodeIds).

Lemma checkLinkedPart_parts component isDirty st p :
  p ∈ m_dirtyPartIds
        (checkLinkedPart String_isTrue Uuid_isNull m_snapshot m_partNodeIds
           component isDirty st).2 ↔
  p ∈ m_dirtyPartIds st ∨
  (valueOrEmpty component "linkDataType" = "partId" ∧
   valueOrEmpty component "linkData" = p ∧ partDirty p = true).
Proof.
  unfold checkLinkedPart. case_decide as Hlink.
  - destruct (partDirty (valueOrEmpty component "linkData")) eqn:Hdirty; simpl.
    + rewrite elem_of_union, elem_of_singleton. split.
      * intros [->|?]; [right|left]; done.
      * intros [?|(_ & <- & _)]; [right|left]; done.
    + destruct isDirty; simpl.
      * split; [by left|]. intros [?|(_ & <- & ?)]; [done|congruence].
      * destruct (checkIsPartDependencyDirty _ _ _ _ _); simpl;
          (split; [by left|]); intros [?|(_ & <- & ?)]; done || congruence.
  - simpl. split; [by left|]. intros [?|(? & _)]; done.
Qed.

Lemma checkChildren_exact recurse children isDirty st b st' :
  (∀ id st b st', recurse id st = Some (b, st') → exact id st b st') →
  checkChildren recurse children isDirty st = Some (b, st') →
  (b = true → isDirty = true ∨ ∃ c, c ∈ children ∧ c ≠ "" ∧ below c) ∧
  (∀ d, d ∈ m_dirtyComponentIds st' →
     d ∈ m_dirtyComponentIds st ∨
     ∃ c, c ∈ children ∧ c ≠ "" ∧ rtc child c d ∧ below d) ∧
  (∀ p, p ∈ m_dirtyPartIds st' ↔
     p ∈ m_dirtyPartIds st ∨ ∃ c, c ∈ children ∧ c ≠ "" ∧ linked c p).
Proof.
  intros Hrec. revert isDirty st.
  induction children as [|c rest IH]; intros isDirty st; simpl.
  - intros [= <- <-]. split; [by left|]. split; [by left|].
    intros p. split; [by left|]. intros [?|(c & ?%elem_of_nil & _)]; done.
  - destruct (decide (c = "")) as [->|Hc].
    + intros Hrest. apply IH in Hrest as (Hb & Hd & Hp). split; [|split].
      * intros Htrue. destruct (Hb Htrue) as [?|(c & Hin & Hne & Hbel)]; [by left|].
        right. exists c. split; [by right|done].
      * intros d Hin. destruct (Hd d Hin) as [?|(c & Hc & Hne & Hreach)]; [by left|].
        right. exists c. split; [by right|done].
      * intros p. rewrite Hp. split.
        -- intros [?|(c & Hin & Hne & Hl)]; [by left|].
           right. exists c. split; [by right|done].
        -- intros [?|(c & Hin & Hne & Hl)]; [by left|].
           apply elem_of_cons in Hin as [->|Hin]; [done|].
           right. by exists c.
    + destruct (recurse c st) as [[cb st1]|] eqn:Hcall; [|done].
      intros Hrest. apply IH in Hrest as (Hb & Hd & Hp).
      apply Hrec in Hcall as (Hcb & Hcd & Hcp). split; [|split].
      * intros Htrue. destruct (Hb Htrue) as [Hdirty|(c' & Hin & Hne & Hbel)].
        -- destruct cb.
           ++ right. exists c. split; [by left|]. split; [done|]. by apply Hcb.
           ++ by left.
        -- right. exists c'. split; [by right|done].
      * intros d Hin. destruct (Hd d Hin) as [Hst1|(c' & Hc' & Hne & Hreach)].
        -- destruct (Hcd d Hst1) as [?|[Hreach Hbel]]; [by left|].
           right. exists c. split; [by left|done].
        -- right. exists c'. split; [by right|done].
      * intros p. rewrite Hp, Hcp. split.
        -- intros [[?|Hl]|(c' & Hin & Hne & Hl)].
           ++ by left.
           ++ right. exists c. split; [by left|done].
           ++ right. exists c'. split; [by right|done].
        -- intros [?|(c' & Hin & Hne & Hl)]; [left; by left|].
           apply elem_of_cons in Hin as [->|Hin]; [left; by right|].
           right. by exists c'.
Qed.

Lemma checkIsComponentDirty_exact fuel id st b st' :
  check fuel id st = Some (b, st') → exact id st b st'.
Proof.
  revert id st b st'. induction fuel as [|fuel IH]; intros id st b st'; [done|].
  simpl. destruct (lookupComponent m_snapshot id) as [component|] eqn:Hlook.
  - set (linkedPart := checkLinkedPart _ _ _ _ _ _ _).
    destruct (checkChildren _ _ _ _) as [[cb st1]|] eqn:Hch; [|done].
    apply (checkChildren_exact _ _ _ _ _ _ IH) in Hch as (Hb & Hd & Hp).
    assert (Hcomp : m_dirtyComponentIds linkedPart.2 = m_dirtyComponentIds st)
      by apply DirtyFacts.checkLinkedPart_components.
    assert (Hfst : linkedPart.1 =
                   locallyDirty String_isTrue Uuid_isNull m_snapshot m_partNodeIds component)
      by apply DirtyFacts.checkLinkedPart_fst.
    assert (Hchild : ∀ c, c ∈ String_split (valueOrEmpty component "children") ","%char →
                          c ≠ "" → child id c).
    { intros c Hin Hne. exists component. done. }
    assert (Hbelow : cb = true → below id).
    { intros Htrue. destruct (Hb Htrue) as [Hloc|(c & Hin & Hne & Hbel)].
      - apply (dirtyBelow_here _ _ _ _ _ id component Hlook). congruence.
      - apply (dirtyBelow_child _ _ _ _ _ id c); auto. }
    assert (Hmarked : ∀ d, d ∈ m_dirtyComponentIds st1 →
                           d ∈ m_dirtyComponentIds st ∨ (rtc child id d ∧ below d)).
    { intros d Hin. destruct (Hd d Hin) as [Hst|(c & Hc & Hne & Hreach & Hbel)].
      - left. congruence.
      - right. split; [|done]. apply (rtc_l _ _ c); auto. }
    assert (Hparts : ∀ p, p ∈ m_dirtyPartIds st1 ↔ p ∈ m_dirtyPartIds st ∨ linked id p).
    { intros p. rewrite Hp. unfold linkedPart. rewrite checkLinkedPart_parts. split.
      - intros [[?|(Hlink & Hdata & Hdirty)]|(c & Hc & Hne & C & comp & Hreach & Hrest)].
        + by left.
        + right. exists id, component. done.
        + right. exists C, comp. split; [|done]. apply (rtc_l _ _ c); auto.
      - intros [?|(C & comp & Hreach & HC & Hlink & Hdata & Hdirty)]; [left; by left|].
        destruct Hreach as [|x c z (comp' & Hl & Hcne & Hin) Hrest].
        + left. right. assert (comp = component) as -> by congruence. done.
        + right. exists c. split; [congruence|]. split; [done|].
          exists z, comp. done. }
    destruct cb.
    + intros [= <- <-]. split; [by auto|]. split; [|done].
      intros d Hin. simpl in Hin. apply elem_of_union in Hin as [Hin|Hin]; [|by auto].
      apply elem_of_singleton in Hin as ->. right. split; [done|]. by apply Hbelow.
    + intros [= <- <-]. split; [done|]. split; done.
  - intros [= <- <-]. split; [done|]. split; [by left|].
    intros p. split; [by left|].
    intros [?|(C & comp & Hreach & HC & _)]; [done|]. exfalso.
    destruct Hreach as [|x c z (comp' & Hl & _) Hrest]; congruence.
Qed.

Lemma checkIsPartDependencyDirty_inv partIdString :
  checkIsPartDependencyDirty String_isTrue Uuid_isNull m_snapshot m_partNodeIds
    partIdString = true →
  ∃ part, parts m_snapshot !! partIdString = Some part ∧
    (cutFaceIsDirty String_isTrue Uuid_isNull m_snapshot part = true ∨
     ∃ n node, n ∈ default ∅ (m_partNodeIds !! partIdString) ∧
               nodes m_snapshot !! n = Some node ∧
               cutFaceIsDirty String_isTrue Uuid_isNull m_snapshot node = true).
Proof.
  unfold checkIsPartDependencyDirty.
  destruct (parts m_snapshot !! partIdString) as [part|]; [|done].
  intros Hdep. exists part. split; [done|].
  destruct (cutFaceIsDirty _ _ _ part); [by left|]. right.
  apply existsb_exists in Hdep as (n & Hn & Hnode).
  destruct (nodes m_snapshot !! n) as [node|] eqn:Hlook; [|done].
  exists n, node. split; [|done].
  by apply elem_of_elements, list_elem_of_In.
Qed.

End Proofs.

(** [collectParts] indexes the nodes and the edges of the snapshot by
    part: a node id is in [m_partNodeIds[partId]] exactly when the node
    exists and its ["partId"] attribute is [partId], and likewise for the
    edges and [m_partEdgeIds]; nothing is filed under the empty part id,
    so a node or an edge without ["partId"] is in no entry. *)
Theorem collectParts_index (snapshot : Snapshot) (partId id : string) :
  (id ∈ default ∅ ((collectParts snapshot).1 !! partId) ↔
   partId ≠ "" ∧ ∃ node, nodes snapshot !! id = Some node ∧
                         valueOrEmpty node "partId" = partId) ∧
  (id ∈ default ∅ ((collectParts snapshot).2 !! partId) ↔
   partId ≠ "" ∧ ∃ edge, edges snapshot !! id = Some edge ∧
                         valueOrEmpty edge "partId" = partId).
Proof.
  unfold collectParts. simpl. split; apply DirtyFacts.elem_of_indexByPartId.
Qed.

(** With the index built by [collectParts], [checkIsPartDependencyDirty]
    answers true for a part id exactly when the part exists and either
    its own ["cutFace"] names a dirty part, or some node of the snapshot
    whose ["partId"] is this (non-empty) id has a ["cutFace"] naming a
    dirty part.  A part that is missing from the snapshot has no dirty
    dependency. *)
Theorem checkIsPartDependencyDirty_iff (String_isTrue : string → bool)
  (Uuid_isNull : string → bool) (m_snapshot : Snapshot) (partIdString : string) :
  checkIsPartDependencyDirty String_isTrue Uuid_isNull m_snapshot
    (collectParts m_snapshot).1 partIdString = true ↔
  ∃ part, parts m_snapshot !! partIdString = Some part ∧
    (cutFaceIsDirty String_isTrue Uuid_isNull m_snapshot part = true ∨
     ∃ n node, nodes m_snapshot !! n = Some node ∧
               valueOrEmpty node "partId" = partIdString ∧ partIdString ≠ "" ∧
               cutFaceIsDirty String_isTrue Uuid_isNull m_snapshot node = true).
Proof.
  split.
  - intros (part & Hpart & Hcause)%checkIsPartDependencyDirty_inv.
    exists part. split; [done|].
    destruct Hcause as [?|(n & node & Hn & Hnode & Hcut)]; [by left|]. right.
    apply DirtyFacts.elem_of_indexByPartId in Hn as (Hne & node' & Hnode' & Hpid).
    exists n, node. assert (node' = node) as -> by congruence. done.
  - intros (part & Hpart & Hcause).
    apply (DirtyFacts.checkIsPartDependencyDirty_true _ _ _ _ _ part Hpart).
    destruct Hcause as [?|(n & node & Hnode & Hpid & Hne & Hcut)]; [by left|]. right.
    exists n, node. split; [|done].
    apply DirtyFacts.elem_of_indexByPartId. split; [done|]. by exists node.
Qed.

(** [checkIsComponentDirty] marks the dirty components and nothing
    else.  On a component tree no deeper than the recursion bound the
    call returns; it returns true exactly when the component, or a
    component below it, is dirty by itself (its [__dirty] flag, or, for a
    leaf, its part or a cut-face part of it); and afterwards
    [m_dirtyComponentIds] holds what it held before plus exactly the
    components reachable from the starting one that have such a dirty
    component at or below them.  A component that is missing from the
    snapshot is never marked. *)
Theorem checkIsComponentDirty_marks_exactly (String_isTrue : string → bool)
  (String_split : string → ascii → list string) (Uuid_isNull : string → bool)
  (m_snapshot : Snapshot) (m_partNodeIds : gmap string (gset string))
  (fuel : nat) (componentIdString : string) (st : DirtyState) :
  depthWithin String_split m_snapshot fuel componentIdString = true →
  ∃ isDirty st',
    checkIsComponentDirty String_isTrue String_split Uuid_isNull m_snapshot
      m_partNodeIds fuel componentIdString st = Some (isDirty, st') ∧
    (isDirty = true ↔
     dirtyBelow String_isTrue String_split Uuid_isNull m_snapshot m_partNodeIds
       componentIdString) ∧
    (∀ d, d ∈ m_dirtyComponentIds st' ↔
       d ∈ m_dirtyComponentIds st ∨
       (rtc (childOf String_split m_snapshot) componentIdString d ∧
        dirtyBelow String_isTrue String_split Uuid_isNull m_snapshot m_partNodeIds d)) ∧
    (∀ d, d ∈ m_dirtyComponentIds st' → d ∉ m_dirtyComponentIds st →
       is_Some (lookupComponent m_snapshot d)).
Proof.
  intros Hdepth.
  destruct (DirtyFacts.checkIsComponentDirty_is_Some String_isTrue String_split
              Uuid_isNull m_snapshot m_partNodeIds fuel componentIdString st Hdepth)
    as [[isDirty st'] Hrun].
  exists isDirty, st'. split; [done|].
  pose proof (DirtyFacts.checkIsComponentDirty_post _ _ _ _ _ _ _ _ _ _ Hrun)
    as (Hsub & Hcomplete & _ & Hdesc).
  pose proof (checkIsComponentDirty_exact _ _ _ _ _ _ _ _ _ _ Hrun)
    as (Hsound & Hmarked & _).
  assert (Hiff : ∀ d, d ∈ m_dirtyComponentIds st' ↔
       d ∈ m_dirtyComponentIds st ∨
       (rtc (childOf String_split m_snapshot) componentIdString d ∧
        dirtyBelow String_isTrue String_split Uuid_isNull m_snapshot m_partNodeIds d)).
  { intros d. split; [by apply Hmarked|].
    intros [Hin|[Hreach Hbel]]; [by apply Hsub|by apply Hdesc]. }
  split; [by split|]. split; [done|].
  intros d Hin Hnot. apply Hiff in Hin as [?|[_ Hbel]]; [done|].
  inversion Hbel as [? component Hlook|? c (component & Hlook & _)]; by eexists.
Qed.

(** [checkDirtyFlags] fills [m_dirtyPartIds] with exactly the dirty
    parts that are linked from a component reachable from the root: a
    part enters the set only through a leaf component whose
    ["linkDataType"] is ["partId"] and whose ["linkData"] names it, and
    only when its own [__dirty] flag is set.  A part that is dirty only
    because of a cut-face part makes its component dirty without being
    recorded itself. *)
Theorem checkDirtyFlags_dirty_parts (String_isTrue : string → bool)
  (String_split : string → ascii → list string) (Uuid_isNull : string → bool)
  (m_snapshot : Snapshot) (m_partNodeIds : gmap string (gset string))
  (fuel : nat) (st : DirtyState) :
  depthWithin String_split m_snapshot fuel nilUuidString = true →
  ∃ st',
    checkDirtyFlags String_isTrue String_split Uuid_isNull m_snapshot
      m_partNodeIds fuel st = Some st' ∧
    ∀ p, p ∈ m_dirtyPartIds st' ↔
      p ∈ m_dirtyPartIds st ∨
      ∃ C component,
        rtc (childOf String_split m_snapshot) nilUuidString C ∧
        lookupComponent m_snapshot C = Some component ∧
        valueOrEmpty component "linkDataType" = "partId" ∧
        valueOrEmpty component "linkData" = p ∧
        checkIsPartDirty String_isTrue m_snapshot p = true.
Proof.
  intros Hdepth. unfold checkDirtyFlags.
  destruct (DirtyFacts.checkIsComponentDirty_is_Some String_isTrue String_split
              Uuid_isNull m_snapshot m_partNodeIds fuel nilUuidString st Hdepth)
    as [[isDirty st'] Hrun].
  rewrite Hrun. simpl. exists st'. split; [done|].
  by pose proof (checkIsComponentDirty_exact _ _ _ _ _ _ _ _ _ _ Hrun) as (_ & _ & Hparts).
Qed.

(** On the example snapshot the leg, which nothing makes dirty, stays
    out of [m_dirtyComponentIds]. *)
Lemma checkIsComponentDirty_marks_exactly_witness :
  ∃ isDirty st',
    checkIsComponentDirty isTrueModel splitModel Uuid_isNull_model dirtyExample
      (collectParts dirtyExample).1 3 nilUuidString emptyDirtyState
      = Some (isDirty, st') ∧
    "leg" ∉ m_dirtyComponentIds st'.
Proof.
  destruct (checkIsComponentDirty_marks_exactly isTrueModel splitModel Uuid_isNull_model
              dirtyExample (collectParts dirtyExample).1 3 nilUuidString emptyDirtyState)
    as (isDirty & st' & Hrun & _ & Hmarked & _).
  - vm_compute. reflexivity.
  - exists isDirty, st'. split; [exact Hrun|].
    intros [Hin|[_ Hbel]]%Hmarked; [by apply not_elem_of_empty in Hin|].
    inversion Hbel as [? component Hlook Hloc|? c (component & Hlook & Hne & Hin) _].
    + injection Hlook as <-. vm_compute in Hloc. discriminate Hloc.
    + injection Hlook as <-. vm_compute in Hin.
      apply list_elem_of_singleton in Hin. done.
Defined.

(** On the example snapshot the only part with a [__dirty] flag is
    linked from no component, so no part is recorded. *)
Lemma checkDirtyFlags_dirty_parts_witness :
  ∃ st',
    checkDirtyFlags isTrueModel splitModel Uuid_isNull_model dirtyExample
      (collectParts dirtyExample).1 3 emptyDirtyState = Some st' ∧
    "handPart" ∉ m_dirtyPartIds st'.
Proof.
  destruct (checkDirtyFlags_dirty_parts isTrueModel splitModel Uuid_isNull_model
              dirtyExample (collectParts dirtyExample).1 3 emptyDirtyState)
    as (st' & Hrun & Hparts).
  - vm_compute. reflexivity.
  - exists st'. split; [exact Hrun|].
    intros [Hin|(C & component & _ & _ & _ & _ & Hdirty)]%Hparts;
      [by apply not_elem_of_empty in Hin|].
    vm_compute in Hdirty. discriminate Hdirty.
Defined.

End DirtyExactFacts.

(** ** recoverQuads: edge cases and the round trip with collectSharedQuadEdges *)
Module QuadsRunFacts.
Import Quads QuadSplit.

Lemma remainingFaces_empty triangles i : remainingFaces triangles i ∅ = triangles.
Proof.
  revert i. induction triangles as [|face rest IH]; intros i; simpl; [done|].
  rewrite decide_False by set_solver. by rewrite IH.
Qed.

Lemma remainingFaces_all triangles i (U : gset nat) :
  (∀ j, j < length triangles → i + j ∈ U) → remainingFaces triangles i U = [].
Proof.
  revert i. induction triangles as [|face rest IH]; intros i HU; simpl; [done|].
  rewrite decide_True.
  - apply IH. intros j Hj. replace (S i + j) with (i + S j) by lia.
    apply HU. simpl. lia.
  - replace i with (i + 0) by lia. apply HU. simpl. lia.
Qed.

Lemma NoDup_four {A} (a b c d : A) :
  NoDup [a; b; c; d] → a ≠ b ∧ a ≠ c ∧ a ≠ d ∧ b ≠ c ∧ b ≠ d ∧ c ≠ d.
Proof.
  intros Hnd.
  apply NoDup_cons in Hnd as [Ha Hnd].
  apply NoDup_cons in Hnd as [Hb Hnd].
  apply NoDup_cons in Hnd as [Hc _].
  set_solver.
Qed.

Section Proofs.

Context {Vector3 PositionKey : Type} `{Countable PositionKey}.
Variable positionKey : Vector3 → PositionKey.

(** The run of [recoverQuads] on faces whose indices are in range, with
    what the merging loop guarantees. *)
Lemma recoverQuads_run (vertices : list Vector3) (triangles : list (list nat))
  (sharedQuadEdges : gset (PositionKey * PositionKey))
  (triangleAndQuads : list (list nat)) :
  Forall (fun face => length face = 3 → Forall (fun v => v < length vertices) face)
    triangles →
  let keys := positionKey <$> vertices in
  let m := buildTriangleEdgeMap triangles 0 [] in
  ∃ (merges : list (nat * nat * list nat)) (unionedFaces : gset nat),
    recoverQuads positionKey vertices triangles sharedQuadEdges triangleAndQuads
      = Some (triangleAndQuads ++ map snd merges
                ++ remainingFaces triangles 0 unionedFaces) ∧
    (∀ i, i ∈ unionedFaces ↔ mergedIn merges i) ∧
    (∀ k l mk ml, merges !! k = Some mk → merges !! l = Some ml → k ≠ l →
       mergesApart mk ml) ∧
    Forall (mergeJustified keys sharedQuadEdges m) merges ∧
    Forall (settled keys sharedQuadEdges m unionedFaces) m ∧
    (∀ a b f o, ((a, b), (f, o)) ∈ m → hasEdge triangles f a b o).
Proof.
  intros Hrange keys m. unfold recoverQuads.
  change (map positionKey vertices) with keys.
  change (buildTriangleEdgeMap triangles 0 []) with m.
  assert (Hentry : ∀ a b f o, ((a, b), (f, o)) ∈ m → hasEdge triangles f a b o).
  { intros a b f o Hin.
    apply QuadsFacts.elem_of_buildTriangleEdgeMap in Hin
      as [Hin%elem_of_nil|(j & -> & Hj)]; done. }
  assert (Hedges : Forall (fun edge => edge ∈ m ∧ is_Some (keys !! edge.1.1) ∧
                                       is_Some (keys !! edge.1.2)) m).
  { apply Forall_forall. intros [[a b] [f o]] Hin. split; [done|]. simpl.
    destruct (QuadsFacts.hasEdge_in_range vertices triangles f a b o Hrange
                (Hentry _ _ _ _ Hin)) as [Ha Hb].
    unfold keys. split; apply lookup_lt_is_Some; by rewrite length_fmap. }
  destruct (QuadsFacts.unionLoop_inv keys sharedQuadEdges m triangleAndQuads m
              (∅, triangleAndQuads) (QuadsFacts.loopInv_init _ _ _ _) Hedges)
    as ([U out] & Hloop & merges & Hout & HU & Hapart & Hjust).
  rewrite Hloop. simpl in *. exists merges, U. subst out.
  split; [by rewrite app_assoc|]. split; [done|]. split; [done|]. split; [done|].
  split; [|done].
  by apply QuadsFacts.unionLoop_settles in Hloop as [_ Hsettled].
Qed.

(** The vertices of a merge are vertices of the two faces it merges. *)
Lemma mergeJustified_vertices (vertices : list Vector3) triangles shared mg :
  (∀ a b f o, ((a, b), (f, o)) ∈ buildTriangleEdgeMap triangles 0 [] →
              hasEdge triangles f a b o) →
  mergeJustified (positionKey <$> vertices) shared (buildTriangleEdgeMap triangles 0 []) mg →
  ∃ a b o1 o2 pa pb,
    mg.2 = [o1; a; o2; b] ∧
    hasEdge triangles mg.1.1 a b o1 ∧ hasEdge triangles mg.1.2 b a o2 ∧
    vertices !! a = Some pa ∧ vertices !! b = Some pb ∧
    (positionKey pa, positionKey pb) ∈ shared.
Proof.
  intros Hentry (a & b & o1 & o2 & k1 & k2 & Hq & Hab & Hba & Hk1 & Hk2 & Hsh).
  rewrite list_lookup_fmap in Hk1, Hk2.
  destruct (vertices !! a) as [pa|] eqn:Hpa; [|done].
  destruct (vertices !! b) as [pb|] eqn:Hpb; [|done].
  injection Hk1 as <-. injection Hk2 as <-.
  exists a, b, o1, o2, pa, pb. repeat split; try done.
  - by apply Hentry.
  - by apply Hentry, QuadsFacts.mapFind_elem.
Qed.

Lemma hasEdge_elem triangles i a b o :
  hasEdge triangles i a b o →
  ∃ face, face ∈ triangles ∧ a ∈ face ∧ b ∈ face ∧ o ∈ face.
Proof.
  intros (v0 & v1 & v2 & Hi & Hrot). exists [v0; v1; v2].
  split; [by apply list_elem_of_lookup_2 in Hi|].
  destruct Hrot as [[= -> -> ->]|[[= -> -> ->]|[= -> -> ->]]];
    repeat split; set_solver.
Qed.

(** When no directed edge of a three-vertex face has the position keys
    of its end points recorded in [sharedQuadEdges], in particular when
    the set is empty, [recoverQuads] merges nothing: it appends the
    input faces, all of them, unchanged and in order. *)
Theorem recoverQuads_nothing_shared (vertices : list Vector3)
  (triangles : list (list nat)) (sharedQuadEdges : gset (PositionKey * PositionKey))
  (triangleAndQuads : list (list nat)) :
  Forall (fun face => length face = 3 → Forall (fun v => v < length vertices) face)
    triangles →
  (∀ i a b o pa pb, hasEdge triangles i a b o →
     vertices !! a = Some pa → vertices !! b = Some pb →
     (positionKey pa, positionKey pb) ∉ sharedQuadEdges) →
  recoverQuads positionKey vertices triangles sharedQuadEdges triangleAndQuads
  = Some (triangleAndQuads ++ triangles).
Proof.
  intros Hrange Hnone.
  destruct (recoverQuads_run vertices triangles sharedQuadEdges triangleAndQuads Hrange)
    as (merges & U & -> & HU & _ & Hjust & _ & Hentry).
  assert (merges = []) as ->.
  { destruct merges as [|mg merges]; [done|]. exfalso.
    apply Forall_cons in Hjust as [Hmg _].
    apply (mergeJustified_vertices vertices triangles) in Hmg
      as (a & b & o1 & o2 & pa & pb & _ & Hab & _ & Hpa & Hpb & Hsh); [|done].
    by apply (Hnone _ _ _ _ _ _ Hab Hpa Hpb). }
  assert (U = ∅) as ->.
  { apply set_eq. intros i. rewrite HU. split; [|set_solver].
    by intros (mg & ?%elem_of_nil & _). }
  by rewrite remainingFaces_empty.
Qed.

(** Whatever holds of all the indices of the input faces, being below
    the number of vertices for instance, holds of all the indices of the
    faces that [recoverQuads] emits. *)
Lemma recoverQuads_indices (vertices : list Vector3)
  (triangles : list (list nat)) (sharedQuadEdges : gset (PositionKey * PositionKey))
  (triangleAndQuads : list (list nat)) (P : nat → Prop) :
  Forall (fun face => length face = 3 → Forall (fun v => v < length vertices) face)
    triangles →
  Forall (Forall P) (triangleAndQuads ++ triangles) →
  ∃ result,
    recoverQuads positionKey vertices triangles sharedQuadEdges triangleAndQuads
      = Some result ∧
    Forall (Forall P) result.
Proof.
  intros Hrange HP.
  destruct (recoverQuads_run vertices triangles sharedQuadEdges triangleAndQuads Hrange)
    as (merges & U & -> & _ & _ & Hjust & _ & Hentry).
  eexists. split; [done|].
  apply Forall_app in HP as [Hout Htri].
  apply Forall_app. split; [done|]. apply Forall_app. split.
  - apply Forall_forall. intros quad Hq.
    apply list_elem_of_In, in_map_iff in Hq as (mg & <- & Hin).
    apply list_elem_of_In in Hin.
    rewrite Forall_forall in Hjust.
    destruct (mergeJustified_vertices vertices triangles _ mg Hentry (Hjust _ Hin))
      as (a & b & o1 & o2 & pa & pb & -> & Hab & Hba & _).
    apply hasEdge_elem in Hab as (f1 & Hf1 & Ha & Hb & Ho1).
    apply hasEdge_elem in Hba as (f2 & Hf2 & _ & _ & Ho2).
    rewrite Forall_forall in Htri.
    pose proof (Htri f1 Hf1) as HP1. pose proof (Htri f2 Hf2) as HP2.
    rewrite Forall_forall in HP1, HP2.
    repeat constructor; auto.
  - apply Forall_forall. intros face (i & Hi & _)%QuadsFacts.elem_of_remainingFaces.
    rewrite Forall_forall in Htri. apply Htri.
    by apply list_elem_of_lookup_2 in Hi.
Qed.

(** [recoverQuads] makes up no vertex: when the three-vertex faces index
    into the vertex list, the call is defined, and every index of every
    face it emits is an index of some input face, or of a face that was
    in the output vector before the call. *)
Theorem recoverQuads_keeps_indices (vertices : list Vector3)
  (triangles : list (list nat)) (sharedQuadEdges : gset (PositionKey * PositionKey))
  (triangleAndQuads : list (list nat)) :
  Forall (fun face => length face = 3 → Forall (fun v => v < length vertices) face)
    triangles →
  ∃ result,
    recoverQuads positionKey vertices triangles sharedQuadEdges triangleAndQuads
      = Some result ∧
    ∀ face v, face ∈ result → v ∈ face →
      ∃ source, source ∈ triangleAndQuads ++ triangles ∧ v ∈ source.
Proof.
  intros Hrange.
  destruct (recoverQuads_indices vertices triangles sharedQuadEdges triangleAndQuads
              (fun v => ∃ source, source ∈ triangleAndQuads ++ triangles ∧ v ∈ source)
              Hrange) as (result & Hresult & Hfrom).
  - apply Forall_forall. intros source Hsource.
    apply Forall_forall. intros v Hv. by exists source.
  - exists result. split; [done|]. intros face v Hface Hv.
    rewrite Forall_forall in Hfrom. specialize (Hfrom face Hface).
    rewrite Forall_forall in Hfrom. by apply Hfrom.
Qed.

Lemma hasEdge_rotation triangles i t x y z a b o :
  triangles !! i = Some t → isRotation t x y z →
  hasEdge triangles i a b o ↔
  (a, b, o) = (x, y, z) ∨ (a, b, o) = (y, z, x) ∨ (a, b, o) = (z, x, y).
Proof.
  intros Hi Hrot. unfold hasEdge. rewrite Hi. split.
  - intros (v0 & v1 & v2 & [= ->] & Hedge).
    destruct Hrot as [[= -> -> ->]|[[= -> -> ->]|[= -> -> ->]]]; naive_solver.
  - intros Hedge.
    destruct Hrot as [->|[->| ->]]; eexists _, _, _; (split; [done|]); naive_solver.
Qed.

(** Two triangles that share one edge whose key pair is recorded, and
    no other recorded pair on any of their edges: they are merged. *)
Lemma recoverQuads_one_pair (vertices : list Vector3) triangles shared out
  i j t1 t2 x y o1 o2 px py p1 p2 :
  length triangles = 2 → i ≠ j →
  triangles !! i = Some t1 → triangles !! j = Some t2 →
  isRotation t1 x y o1 → isRotation t2 y x o2 →
  vertices !! x = Some px → vertices !! y = Some py →
  vertices !! o1 = Some p1 → vertices !! o2 = Some p2 →
  NoDup [positionKey px; positionKey py; positionKey p1; positionKey p2] →
  (positionKey px, positionKey py) ∈ shared →
  (∀ p, p ∈ shared → p = (positionKey px, positionKey py) ∨
                     p = (positionKey p1, positionKey p2) ∨
                     p = (positionKey p2, positionKey p1)) →
  recoverQuads positionKey vertices triangles shared out
  = Some (out ++ [[o1; x; o2; y]]).
Proof.
  intros Hlen Hij Hi Hj Hrot1 Hrot2 Hx Hy Ho1 Ho2 Hkeys Hxy Hshared.
  assert (Hi2 : i < 2) by (rewrite <- Hlen; by apply lookup_lt_Some in Hi).
  assert (Hj2 : j < 2) by (rewrite <- Hlen; by apply lookup_lt_Some in Hj).
  (* the keys, hence the indices, are pairwise distinct *)
  apply NoDup_four in Hkeys as (Hxy' & Hx1 & Hx2 & Hy1 & Hy2 & H12).
  assert (Hidx : x ≠ y ∧ x ≠ o1 ∧ x ≠ o2 ∧ y ≠ o1 ∧ y ≠ o2 ∧ o1 ≠ o2)
    by (repeat split; congruence).
  destruct Hidx as (Hxy0 & Hxo1 & Hxo2 & Hyo1 & Hyo2 & Ho12).
  assert (Hface : ∀ f p q o, hasEdge triangles f p q o →
    (f = i ∧ ((p, q, o) = (x, y, o1) ∨ (p, q, o) = (y, o1, x) ∨ (p, q, o) = (o1, x, y))) ∨
    (f = j ∧ ((p, q, o) = (y, x, o2) ∨ (p, q, o) = (x, o2, y) ∨ (p, q, o) = (o2, y, x)))).
  { intros f p q o Hedge.
    assert (Hf : f < 2).
    { destruct Hedge as (? & ? & ? & Hf%lookup_lt_Some & _). by rewrite <- Hlen. }
    assert (f = i ∨ f = j) as [->| ->] by lia.
    - left. split; [done|]. by apply (hasEdge_rotation triangles i t1 x y o1).
    - right. split; [done|]. by apply (hasEdge_rotation triangles j t2 y x o2). }
  assert (Hrange : Forall (fun face => length face = 3 →
                             Forall (fun v => v < length vertices) face) triangles).
  { apply Forall_forall. intros face Hin _.
    apply list_elem_of_lookup in Hin as [f Hf].
    assert (Hf2 : f < 2) by (rewrite <- Hlen; by apply lookup_lt_Some in Hf).
    apply lookup_lt_Some in Hx, Hy, Ho1, Ho2.
    assert (f = i ∨ f = j) as [->| ->] by lia.
    - assert (face = t1) as -> by congruence.
      destruct Hrot1 as [->|[->| ->]]; repeat constructor; done.
    - assert (face = t2) as -> by congruence.
      destruct Hrot2 as [->|[->| ->]]; repeat constructor; done. }
  destruct (recoverQuads_run vertices triangles shared out Hrange)
    as (merges & U & -> & HU & Hapart & Hjust & Hsettled & Hentry).
  (* the only edge whose key pair is recorded is (x, y) *)
  assert (Honly : ∀ f p q o pp pq, hasEdge triangles f p q o →
    vertices !! p = Some pp → vertices !! q = Some pq →
    (positionKey pp, positionKey pq) ∈ shared → f = i ∧ (p, q, o) = (x, y, o1)).
  { intros f p q o pp pq Hedge Hp Hq Hsh. apply Hshared in Hsh.
    destruct (Hface _ _ _ _ Hedge) as [[-> Hc]|[-> Hc]];
      destruct Hc as [Hc|[Hc|Hc]]; injection Hc as -> -> ->;
      destruct Hsh as [Hsh|[Hsh|Hsh]]; injection Hsh as ? ?;
      done || (exfalso; congruence). }
  assert (Hmerge : ∀ mg, mg ∈ merges → mg = (i, j, [o1; x; o2; y])).
  { intros mg Hin. rewrite Forall_forall in Hjust.
    destruct (mergeJustified_vertices vertices triangles _ mg Hentry (Hjust _ Hin))
      as (a & b & q1 & q2 & pa & pb & Hq & Hab & Hba & Hpa & Hpb & Hsh).
    destruct (Honly _ _ _ _ _ _ Hab Hpa Hpb Hsh) as [Hf [= -> -> ->]].
    destruct mg as [[f g] quad]. simpl in *. subst f quad.
    destruct (Hface _ _ _ _ Hba) as [[Hg Hc]|[Hg Hc]];
      destruct Hc as [Hc|[Hc|Hc]]; injection Hc; intros;
      first [by subst | exfalso; lia]. }
  (* the edge (x, y) is in the map, with its opposite: one of the two faces is merged *)
  assert (Hsome : merges ≠ []).
  { intros ->.
    assert (Hedge1 : hasEdge triangles i x y o1).
    { apply (hasEdge_rotation triangles i t1 x y o1); auto. }
    assert (Hedge2 : hasEdge triangles j y x o2).
    { apply (hasEdge_rotation triangles j t2 y x o2); auto. }
    destruct (QuadsFacts.hasEdge_recorded triangles 0 [] _ _ _ _ Hedge1) as [[f o] Hm1].
    destruct (QuadsFacts.hasEdge_recorded triangles 0 [] _ _ _ _ Hedge2) as [[g o'] Hm2].
    rewrite Forall_forall in Hsettled.
    destruct (Hsettled _ (QuadsFacts.mapFind_elem _ _ _ Hm1) g o'
                (positionKey px) (positionKey py)) as [HinU|HinU]; simpl; try done.
    - by rewrite list_lookup_fmap, Hx.
    - by rewrite list_lookup_fmap, Hy.
    - apply HU in HinU as (mg & ?%elem_of_nil & _). done.
    - apply HU in HinU as (mg & ?%elem_of_nil & _). done. }
  assert (merges = [(i, j, [o1; x; o2; y])]) as ->.
  { destruct merges as [|mg [|mg' rest]]; [done| |].
    - f_equal. apply Hmerge. by left.
    - exfalso. assert (Hm0 : mg = (i, j, [o1; x; o2; y])) by (apply Hmerge; by left).
      assert (Hm1 : mg' = (i, j, [o1; x; o2; y])) by (apply Hmerge; right; by left).
      destruct (Hapart 0 1 mg mg' eq_refl eq_refl) as [Hne _]; [done|].
      by subst. }
  rewrite remainingFaces_all; [done|].
  intros f Hf. simpl. apply HU. exists (i, j, [o1; x; o2; y]).
  split; [by left|]. simpl. lia.
Qed.

(** The round trip.  [collectSharedQuadEdges] records the diagonals of
    the quad [a -> b -> c -> d]; if the quad then comes back cut in two
    triangles, along either diagonal, the triangles in either order and
    each starting at any of its vertices, [recoverQuads] gives back one
    face, the same cycle of four vertices: [[d; a; b; c]] when the cut
    was along [a - c], [[a; b; c; d]] when it was along [b - d].  The
    four corners are assumed to have four different position keys. *)
Theorem recoverQuads_restores_quad (vertices : list Vector3) (a b c d : nat)
  (pa pb pc pd : Vector3) (triangles : list (list nat)) :
  vertices !! a = Some pa → vertices !! b = Some pb →
  vertices !! c = Some pc → vertices !! d = Some pd →
  NoDup [positionKey pa; positionKey pb; positionKey pc; positionKey pd] →
  ∃ sharedQuadEdges,
    collectSharedQuadEdges positionKey vertices [[a; b; c; d]] ∅ = Some sharedQuadEdges ∧
    (splitsInto triangles a c d b →
     recoverQuads positionKey vertices triangles sharedQuadEdges [] = Some [[d; a; b; c]]) ∧
    (splitsInto triangles b d a c →
     recoverQuads positionKey vertices triangles sharedQuadEdges [] = Some [[a; b; c; d]]).
Proof.
  intros Ha Hb Hc Hd Hkeys. simpl. rewrite Ha, Hb, Hc, Hd. simpl.
  eexists. split; [done|].
  destruct (NoDup_four _ _ _ _ Hkeys) as (Hab & Hac & Had & Hbc & Hbd & Hcd).
  split.
  - intros (t1 & t2 & Hrot1 & Hrot2 & Horder).
    assert (∃ i j, i ≠ j ∧ triangles !! i = Some t1 ∧ triangles !! j = Some t2 ∧
                   length triangles = 2) as (i & j & Hij & Hi & Hj & Hlen).
    { destruct Horder as [->| ->]; [exists 0, 1|exists 1, 0]; done. }
    apply (recoverQuads_one_pair vertices triangles _ [] i j t1 t2 a c d b pa pc pd pb);
      try done.
    + repeat constructor; set_solver.
    + set_solver.
    + intros p Hp. apply elem_of_union in Hp as [Hp|Hp].
      * apply elem_of_singleton in Hp as ->. right. by right.
      * apply elem_of_union in Hp as [Hp|Hp]; [|set_solver].
        apply elem_of_singleton in Hp as ->. by left.
  - intros (t1 & t2 & Hrot1 & Hrot2 & Horder).
    assert (∃ i j, i ≠ j ∧ triangles !! i = Some t1 ∧ triangles !! j = Some t2 ∧
                   length triangles = 2) as (i & j & Hij & Hi & Hj & Hlen).
    { destruct Horder as [->| ->]; [exists 0, 1|exists 1, 0]; done. }
    apply (recoverQuads_one_pair vertices triangles _ [] i j t1 t2 b d a c pb pd pa pc);
      try done.
    + repeat constructor; set_solver.
    + set_solver.
    + intros p Hp. apply elem_of_union in Hp as [Hp|Hp].
      * apply elem_of_singleton in Hp as ->. by left.
      * apply elem_of_union in Hp as [Hp|Hp]; [|set_solver].
        apply elem_of_singleton in Hp as ->. right. by left.
Qed.

End Proofs.

(** The unit square, cut along the diagonal from vertex 0 to vertex 2
    and then joined again. *)
Lemma recoverQuads_restores_quad_witness :
  ∃ sharedQuadEdges,
    collectSharedQuadEdges latticeKey squareVertices [[0; 1; 2; 3]] ∅
      = Some sharedQuadEdges ∧
    recoverQuads latticeKey squareVertices [[1; 2; 0]; [0; 2; 3]] sharedQuadEdges []
      = Some [[3; 0; 1; 2]].
Proof.
  destruct (recoverQuads_restores_quad latticeKey squareVertices 0 1 2 3
              (0, 0, 0)%Z (1, 0, 0)%Z (1, 1, 0)%Z (0, 1, 0)%Z [[1; 2; 0]; [0; 2; 3]])
    as (shared & Hcollect & Hac & _); try reflexivity.
  - unfold latticeKey. repeat constructor; set_solver.
  - exists shared. split; [exact Hcollect|]. apply Hac.
    exists [0; 2; 3], [1; 2; 0]. split; [by left|]. split; [|by right].
    right. right. reflexivity.
Defined.

(** With no quad recorded, two triangles that share an edge stay two
    triangles. *)
Lemma recoverQuads_nothing_shared_witness :
  recoverQuads latticeKey squareVertices [[0; 1; 2]; [0; 2; 3]] ∅ []
  = Some [[0; 1; 2]; [0; 2; 3]].
Proof.
  apply (recoverQuads_nothing_shared latticeKey squareVertices [[0; 1; 2]; [0; 2; 3]] ∅ []).
  - repeat constructor; simpl; lia.
  - intros. apply not_elem_of_empty.
Defined.

(** The indices of the faces rebuilt from a square and a triangle are
    indices of these three triangles. *)
Lemma recoverQuads_keeps_indices_witness :
  ∃ result,
    recoverQuads latticeKey squareVertices [[0; 1; 2]; [0; 2; 3]; [1; 4; 5]]
      {[ ((0, 0, 0), (1, 1, 0)); ((1, 0, 0), (0, 1, 0)) ]}%Z [] = Some result ∧
    ∀ face v, face ∈ result → v ∈ face →
      ∃ source, source ∈ [] ++ [[0; 1; 2]; [0; 2; 3]; [1; 4; 5]] ∧ v ∈ source.
Proof.
  apply (recoverQuads_keeps_indices latticeKey squareVertices
           [[0; 1; 2]; [0; 2; 3]; [1; 4; 5]] _ []).
  repeat constructor; simpl; lia.
Defined.

End QuadsRunFacts.

(** ** isWatertight under reordering and mirroring *)
Module MirrorFacts.
Import Watertight Mirror.

Lemma mirroredPosition_lt n i : i < n → mirroredPosition n i < n.
Proof. unfold mirroredPosition. case_decide; lia. Qed.

Lemma mirroredPosition_involutive n i :
  i < n → mirroredPosition n (mirroredPosition n i) = i.
Proof. unfold mirroredPosition. repeat case_decide; lia. Qed.

(** Position [i] of the reversed face holds the opposite of the
    half-edge at the mirrored position of the face. *)
Lemma faceHalfEdge_rev face i :
  i < length face →
  faceHalfEdge (rev face) i
  = oppositeHalfEdge (faceHalfEdge face (mirroredPosition (length face) i)).
Proof.
  intros Hi. unfold faceHalfEdge, oppositeHalfEdge, mirroredPosition. simpl.
  rewrite length_rev. set (n := length face) in *.
  assert (Hmod : (i + 1) mod n < n) by (apply Nat.mod_upper_bound; lia).
  rewrite !rev_nth by done. fold n.
  destruct (decide (S i = n)) as [Hlast|Hmid].
  - replace ((i + 1) mod n) with 0.
    2:{ replace (i + 1) with n by lia. by rewrite Nat.Div0.mod_same. }
    f_equal; f_equal; lia.
  - rewrite (Nat.mod_small (i + 1)) by lia.
    rewrite (Nat.mod_small (n - 2 - i + 1)) by lia.
    f_equal; f_equal; lia.
Qed.

Lemma halfEdgeAt_rev faces f i e :
  halfEdgeAt (reverseFaces faces) f i = Some e →
  ∃ face, faces !! f = Some face ∧ i < length face ∧
    halfEdgeAt faces f (mirroredPosition (length face) i) = Some (oppositeHalfEdge e).
Proof.
  unfold halfEdgeAt, reverseFaces. change (map ?g ?l) with (g <$> l).
  rewrite list_lookup_fmap.
  destruct (faces !! f) as [face|]; simpl; [|done].
  rewrite length_rev. case_decide as Hi; [|done].
  intros [= <-]. exists face. split; [done|]. split; [done|].
  rewrite decide_True by by apply mirroredPosition_lt.
  rewrite faceHalfEdge_rev by done.
  by destruct (faceHalfEdge face _).
Qed.

Lemma rev_rev_faces (faces : list (list nat)) : reverseFaces (reverseFaces faces) = faces.
Proof.
  unfold reverseFaces. rewrite map_map. rewrite <- (map_id faces) at 2.
  apply map_ext. intros face. apply rev_involutive.
Qed.

Lemma oppositeHalfEdge_involutive e : oppositeHalfEdge (oppositeHalfEdge e) = e.
Proof. by destruct e. Qed.

Lemma elem_of_halfEdgeList_rev faces e :
  e ∈ halfEdgeList (reverseFaces faces) ↔ oppositeHalfEdge e ∈ halfEdgeList faces.
Proof.
  assert (Hfwd : ∀ faces e, e ∈ halfEdgeList (reverseFaces faces) →
                            oppositeHalfEdge e ∈ halfEdgeList faces).
  { clear. intros faces e (f & i & Hat)%WatertightFacts.elem_of_halfEdgeList.
    apply halfEdgeAt_rev in Hat as (face & _ & _ & Hat).
    apply WatertightFacts.elem_of_halfEdgeList. eauto. }
  split; [apply Hfwd|]. intros Hin.
  rewrite <- (oppositeHalfEdge_involutive e). apply Hfwd.
  by rewrite rev_rev_faces.
Qed.

Lemma isWatertight_rev_true faces :
  isWatertight faces = true → isWatertight (reverseFaces faces) = true.
Proof.
  rewrite !WatertightFacts.isWatertight_list, !WatertightFacts.NoDup_halfEdgeList.
  intros [Hnd Hopp]. split.
  - intros f i f' i' e Hat Hat'.
    apply halfEdgeAt_rev in Hat as (face & Hf & Hi & Hat).
    apply halfEdgeAt_rev in Hat' as (face' & Hf' & Hi' & Hat').
    destruct (Hnd _ _ _ _ _ Hat Hat') as [<- Hpos]. split; [done|].
    assert (face' = face) as -> by congruence.
    rewrite <- (mirroredPosition_involutive (length face) i) by done.
    rewrite Hpos. by apply mirroredPosition_involutive.
  - intros a b Hab. apply elem_of_halfEdgeList_rev. simpl.
    apply elem_of_halfEdgeList_rev in Hab. by apply (Hopp b a).
Qed.

(** [isWatertight] does not depend on the order in which the faces are
    listed. *)
Theorem isWatertight_face_order (faces faces' : list (list nat)) :
  faces ≡ₚ faces' → isWatertight faces = isWatertight faces'.
Proof.
  intros Hperm.
  assert (Hedges : halfEdgeList faces ≡ₚ halfEdgeList faces').
  { unfold halfEdgeList. by apply Permutation_flat_map. }
  assert (Hiff : isWatertight faces = true ↔ isWatertight faces' = true).
  { rewrite !WatertightFacts.isWatertight_list. rewrite Hedges.
    split; intros [Hnd Hopp]; (split; [done|]); intros a b.
    - rewrite <- !Hedges. apply Hopp.
    - rewrite !Hedges. apply Hopp. }
  destruct (isWatertight faces), (isWatertight faces'); try done.
  - symmetry. by apply Hiff.
  - by apply Hiff.
Qed.

Section Proofs.

Context {Vector3 Scalar : Type}.
Variable Vector3_make : Scalar → Scalar → Scalar → Vector3.
Variables Vector3_x Vector3_y Vector3_z : Vector3 → Scalar.
Variable negate : Scalar → Scalar.

(** [makeXmirror] appends one vertex per source vertex, with [x]
    negated, and one face per source face, with its vertices in reverse
    order.  The indices of a face are copied as they are, with no
    offset, while the mirror of source vertex [i] is stored at
    [destVertices->size() + i].  The appended faces are watertight
    exactly when the source faces are. *)
Theorem makeXmirror_watertight (sourceVertices : list Vector3)
  (sourceFaces : list (list nat)) (destVertices : list Vector3)
  (destFaces : list (list nat)) :
  let dest := makeXmirror Vector3_make Vector3_x Vector3_y Vector3_z negate
                sourceVertices sourceFaces destVertices destFaces in
  length dest.1 = length destVertices + length sourceVertices ∧
  (∀ i p, sourceVertices !! i = Some p →
     dest.1 !! (length destVertices + i)
     = Some (Vector3_make (negate (Vector3_x p)) (Vector3_y p) (Vector3_z p))) ∧
  dest.2 = destFaces ++ (reverseFaces sourceFaces) ∧
  isWatertight (reverseFaces sourceFaces) = isWatertight sourceFaces.
Proof.
  simpl. split; [|split; [|split]].
  - by rewrite length_app, length_map.
  - intros i p Hp. rewrite lookup_app_r by lia.
    replace (length destVertices + i - length destVertices) with i by lia.
    change (map ?f ?l) with (f <$> l). by rewrite list_lookup_fmap, Hp.
  - done.
  - destruct (isWatertight sourceFaces) eqn:Hsrc.
    + by apply isWatertight_rev_true.
    + destruct (isWatertight (reverseFaces sourceFaces)) eqn:Hrev; [|done].
      apply isWatertight_rev_true in Hrev. rewrite rev_rev_faces in Hrev. congruence.
Qed.

End Proofs.

(** A tetrahedron with its faces listed in another order. *)
Lemma isWatertight_face_order_witness :
  isWatertight [[0; 3; 1]; [0; 1; 2]; [2; 3; 0]; [1; 3; 2]]
  = isWatertight [[0; 1; 2]; [0; 3; 1]; [1; 3; 2]; [2; 3; 0]].
Proof.
  apply isWatertight_face_order.
  etrans; [apply perm_swap|]. do 2 apply perm_skip. apply perm_swap.
Defined.

End MirrorFacts.

(** ** combineComponentMesh: sub-grouping a group by colour *)
Module SubGroupingFacts.
Import SubGrouping.

Example subGroupByColor_example :
  subGroupByColor [("a", "-"); ("b", "#ff0000"); ("c", "white"); ("d", ""); ("e", "white")]
  = [["a"; "c"; "e"; "b"; "d"]].
Proof. vm_compute. reflexivity. Qed.

Lemma nth_lookup_member (members : list (string * string)) k member :
  members !! k = Some member → nth k members ("", "") = member.
Proof. apply nth_lookup_Some. Qed.

Lemma drop_lookup_cons {A} (l : list A) k x :
  l !! k = Some x → drop k l = x :: drop (S k) l.
Proof.
  revert k. induction l as [|y l IH]; intros [|k] Hk; simplify_eq/=; [done|].
  by apply IH.
Qed.

(** The inner loop when nothing from [a] on is taken yet: it takes every
    member of the forced colour, in order. *)
Lemma innerLoop_takes members a len st group :
  a + len = length members →
  componentIdStrings st = [group] → currentSubGroupIndex st = 0%Z →
  (∀ j, a ≤ j → j ∉ used st) →
  let st' := fold_left (innerStep members forcedColorName) (seq a len) st in
  componentIdStrings st'
    = [group ++ map fst (filter isForcedColor (drop a members))] ∧
  currentSubGroupIndex st' = 0%Z ∧ lastColorName st' = lastColorName st ∧
  ∀ j, j ∈ used st' ↔
       j ∈ used st ∨ (a ≤ j ∧ ∃ member, members !! j = Some member ∧ isForcedColor member).
Proof.
  revert a st group. induction len as [|len IH]; intros a st group Hlen Hcis Hidx Hfree.
  - simpl. rewrite drop_ge by lia. simpl. rewrite app_nil_r.
    repeat split; try done; [by left|].
    intros [?|(Ha & member & Hj%lookup_lt_Some & _)]; [done|lia].
  - assert (is_Some (members !! a)) as [member Ha] by (apply lookup_lt_is_Some; lia).
    cbn [seq fold_left]. rewrite (drop_lookup_cons _ _ _ Ha).
    destruct (decide (isForcedColor member)) as [Hwhite|Hother].
    + assert (Hstep : innerStep members forcedColorName st a = takeMember members a st).
      { unfold innerStep. rewrite decide_False by (apply Hfree; lia).
        rewrite (nth_lookup_member _ _ _ Ha).
        rewrite decide_False by (by rewrite Hwhite).
        by rewrite decide_False by (intros Hne; by apply Hne). }
      rewrite Hstep. rewrite filter_cons_True by done.
      destruct (IH (S a) (takeMember members a st) (group ++ [member.1]))
        as (Hcis' & Hidx' & Hlast' & Hused'); try done.
      * lia.
      * simpl. rewrite Hcis, Hidx. simpl. by rewrite (nth_lookup_member _ _ _ Ha).
      * intros j Hj. simpl. rewrite not_elem_of_union, not_elem_of_singleton.
        split; [lia|]. apply Hfree. lia.
      * simpl in *. rewrite Hcis'. split; [by rewrite <- app_assoc|].
        split; [done|]. split; [done|]. intros j. rewrite Hused'.
        rewrite elem_of_union, elem_of_singleton. split.
        -- intros [[->|?]|(Hj & m & Hm & Hw)].
           ++ right. split; [lia|]. by exists member.
           ++ by left.
           ++ right. split; [lia|]. by exists m.
        -- intros [?|(Hj & m & Hm & Hw)]; [left; by right|].
           destruct (decide (j = a)) as [->|Hne]; [left; by left|].
           right. split; [lia|]. by exists m.
    + assert (Hstep : innerStep members forcedColorName st a = st).
      { unfold innerStep. rewrite decide_False by (apply Hfree; lia).
        rewrite (nth_lookup_member _ _ _ Ha).
        repeat case_decide; try done. }
      rewrite Hstep. rewrite filter_cons_False by done.
      destruct (IH (S a) st group) as (Hcis' & Hidx' & Hlast' & Hused'); try done.
      * lia.
      * intros j Hj. apply Hfree. lia.
      * simpl in *. split; [done|]. split; [done|]. split; [done|].
        intros j. rewrite Hused'. split.
        -- intros [?|(Hj & m & Hm & Hw)]; [by left|]. right. split; [lia|]. by exists m.
        -- intros [?|(Hj & m & Hm & Hw)]; [by left|].
           destruct (decide (j = a)) as [->|Hne].
           ++ assert (m = member) as -> by congruence. done.
           ++ right. split; [lia|]. by exists m.
Qed.

(** The inner loop when every later member of the forced colour is
    already taken: it does nothing. *)
Lemma innerLoop_idle members a len st :
  a + len = length members →
  (∀ j member, a ≤ j → members !! j = Some member → isForcedColor member →
               j ∈ used st) →
  fold_left (innerStep members forcedColorName) (seq a len) st = st.
Proof.
  revert a. induction len as [|len IH]; intros a Hlen Htaken; [done|].
  assert (is_Some (members !! a)) as [member Ha] by (apply lookup_lt_is_Some; lia).
  cbn [seq fold_left].
  assert (Hstep : innerStep members forcedColorName st a = st).
  { unfold innerStep. case_decide as Hused; [done|].
    rewrite (nth_lookup_member _ _ _ Ha).
    repeat case_decide; try done.
    exfalso. apply Hused. apply (Htaken a member); [lia|done|].
    unfold isForcedColor. by destruct (decide (member.2 = forcedColorName)). }
  rewrite Hstep. apply IH; [lia|]. intros j m Hj. apply Htaken. lia.
Qed.

(** The outer loop from the second iteration on: the members not yet
    taken join the sub-group in order. *)
Lemma outerLoop_rest members k len st group :
  k + len = length members → outerInv members k group st →
  componentIdStrings (fold_left (outerStep members) (seq k len) st)
  = [group ++ map fst (filter (fun member => ¬ isForcedColor member) (drop k members))].
Proof.
  revert k st group. induction len as [|len IH]; intros k st group Hlen Hinv.
  - simpl. rewrite drop_ge by lia. simpl. rewrite app_nil_r. by destruct Hinv.
  - assert (is_Some (members !! k)) as [member Hk] by (apply lookup_lt_is_Some; lia).
    destruct Hinv as (Hcis & Hidx & Hlast & Hused).
    cbn [seq fold_left]. rewrite (drop_lookup_cons _ _ _ Hk).
    destruct (decide (k ∈ used st)) as [Hin|Hnotin].
    + assert (Hstep : outerStep members st k = st).
      { unfold outerStep. by rewrite decide_True. }
      rewrite Hstep.
      assert (isForcedColor member) by (by apply (Hused k member)).
      rewrite filter_cons_False by auto.
      apply IH; [lia|]. split; [done|]. split; [done|]. split; [done|].
      intros j m Hj. apply Hused. lia.
    + assert (Hstep : outerStep members st k = takeMember members k st).
      { unfold outerStep. rewrite decide_False by done.
        destruct (decide (lastColorName st ≠ forcedColorName ∨ lastColorName st = ""))
          as [[Hne|He]|_].
        - by rewrite Hlast in Hne.
        - by rewrite Hlast in He.
        - rewrite decide_False by (by rewrite Hidx). rewrite decide_False by done.
          apply innerLoop_idle; [lia|]. intros j m Hj Hm Hw. simpl.
          apply elem_of_union. right. apply (Hused j m); [lia|done|done]. }
      rewrite Hstep.
      assert (¬ isForcedColor member) by (by rewrite <- (Hused k member)).
      rewrite filter_cons_True by done.
      rewrite (IH (S k) _ (group ++ [member.1])).
      * simpl. by rewrite <- app_assoc.
      * lia.
      * split; [|split; [done|split; [done|]]].
        -- simpl. rewrite Hcis, Hidx. simpl. by rewrite (nth_lookup_member _ _ _ Hk).
        -- intros j m Hj Hm. simpl. rewrite elem_of_union, elem_of_singleton.
           rewrite <- (Hused j m) by (done || lia). split; [|by right].
           intros [->|?]; [lia|done].
Qed.

(** The first iteration opens the only sub-group with the first member
    and pulls in every later member of the forced colour. *)
Lemma outerStep_first first rest :
  outerInv (first :: rest) 1
    (first.1 :: map fst (filter isForcedColor rest))
    (outerStep (first :: rest) subGroupInit 0).
Proof.
  assert (Hstep : outerStep (first :: rest) subGroupInit 0 =
    fold_left (innerStep (first :: rest) forcedColorName) (seq 1 (length rest))
      (takeMember (first :: rest) 0
         {| used := ∅; componentIdStrings := [[]]; currentSubGroupIndex := 0;
            lastColorName := forcedColorName |})).
  { unfold outerStep.
    destruct (decide (0 ∈ used subGroupInit)) as [Hin|_];
      [by apply not_elem_of_empty in Hin|].
    destruct (decide (lastColorName subGroupInit ≠ forcedColorName
                      ∨ lastColorName subGroupInit = "")) as [_|Hn];
      [|exfalso; apply Hn; by right].
    rewrite decide_False by done. rewrite decide_False by done.
    replace (length (first :: rest) - (0 + 1)) with (length rest) by (simpl; lia).
    done. }
  rewrite Hstep.
  destruct (innerLoop_takes (first :: rest) 1 (length rest)
              (takeMember (first :: rest) 0
                 {| used := ∅; componentIdStrings := [[]]; currentSubGroupIndex := 0;
                    lastColorName := forcedColorName |})
              [first.1]) as (Hcis & Hidx & Hlast & Hused); try done.
  - intros j Hj. simpl. set_solver by lia.
  - simpl in Hcis, Hidx, Hlast, Hused.
    split; [done|]. split; [done|]. split; [done|].
    intros j member Hj Hm. rewrite Hused. split.
    + intros [Hin|(_ & m & Hm' & Hw)]; [set_solver by lia|].
      assert (m = member) as -> by congruence. done.
    + intros Hw. right. split; [done|]. by exists member.
Qed.

(** The colour sub-grouping of [combineComponentMesh], with the colour
    name forced to ["white"], puts all the children of a group in one
    sub-group, whatever their colours.  The order is the declared one
    except for the children whose colour name is the string ["white"]:
    these come directly after the first child.  In particular the
    sub-group is a rearrangement of the children's ids, and it is the
    list of ids in declared order when no child after the first has the
    colour name ["white"]. *)
Theorem subGroupByColor_one_group (first : string * string)
  (rest : list (string * string)) :
  subGroupByColor [] = [] ∧
  subGroupByColor (first :: rest)
  = [first.1 :: map fst (filter isForcedColor rest)
       ++ map fst (filter (fun member => ¬ isForcedColor member) rest)] ∧
  concat (subGroupByColor (first :: rest)) ≡ₚ map fst (first :: rest) ∧
  (Forall (fun member => member.2 ≠ "white") rest →
   subGroupByColor (first :: rest) = [map fst (first :: rest)]).
Proof.
  assert (Hmain : subGroupByColor (first :: rest)
    = [first.1 :: map fst (filter isForcedColor rest)
         ++ map fst (filter (fun member => ¬ isForcedColor member) rest)]).
  { unfold subGroupByColor. cbn [length seq fold_left].
    rewrite (outerLoop_rest (first :: rest) 1 (length rest) _
               (first.1 :: map fst (filter isForcedColor rest))).
    - done.
    - simpl. lia.
    - apply outerStep_first. }
  split; [done|]. split; [done|]. split.
  - rewrite Hmain. simpl. rewrite app_nil_r. constructor.
    rewrite <- map_app. apply Permutation_map. apply filter_app_complement.
  - intros Hnone. rewrite Hmain. simpl. do 2 f_equal.
    assert (Hfilter : ∀ l : list (string * string),
              Forall (fun member => member.2 ≠ "white") l →
              filter isForcedColor l = [] ∧
              filter (fun member => ¬ isForcedColor member) l = l).
    { clear. induction 1 as [|member l Hm _ [IH1 IH2]]; [done|].
      rewrite filter_cons_False by done. rewrite filter_cons_True by done.
      by rewrite IH1, IH2. }
    destruct (Hfilter rest Hnone) as [-> ->]. done.
Qed.

End SubGroupingFacts.

(** ** Appending meshes to the generated object *)
Module CollectFacts.
Import Collect.

Section Proofs.

Variable size_bits : N.

Lemma size_add_exact a b :
  (N.of_nat (a + b) < 2 ^ size_bits)%N → size_add size_bits a b = a + b.
Proof.
  intros Hlt. unfold size_add.
  rewrite <- Nat2N.inj_add. rewrite N.mod_small by done. apply Nat2N.id.
Qed.

Lemma updateVertexIndices_exact faces start n :
  indicesBelow n faces → (N.of_nat (start + n) < 2 ^ size_bits)%N →
  updateVertexIndices size_bits faces start
  = map (fun face => map (fun index => index + start) face) faces.
Proof.
  intros Hbelow Hlt. unfold updateVertexIndices.
  apply map_ext_Forall. eapply Forall_impl; [exact Hbelow|].
  intros face Hface. simpl. apply map_ext_Forall.
  eapply Forall_impl; [exact Hface|]. intros index Hindex. simpl in *.
  apply size_add_exact.
  apply N.le_lt_trans with (N.of_nat (start + n)); [lia|done].
Qed.

Lemma indicesBelow_moved faces start n :
  indicesBelow n faces →
  indicesBelow (start + n) (map (fun face => map (fun index => index + start) face) faces).
Proof.
  intros Hbelow. unfold indicesBelow. rewrite Forall_map.
  eapply Forall_impl; [exact Hbelow|]. intros face Hface. simpl.
  rewrite Forall_map. eapply Forall_impl; [exact Hface|].
  intros index Hindex. simpl in *. lia.
Qed.

Lemma indicesBelow_mono faces n n' :
  n ≤ n' → indicesBelow n faces → indicesBelow n' faces.
Proof.
  intros Hle Hbelow. eapply Forall_impl; [exact Hbelow|]. intros face Hface. simpl.
  eapply Forall_impl; [exact Hface|]. intros index Hindex. simpl in *. lia.
Qed.

Context {Vector3 PositionKey ObjectNode ObjectEdge Mesh : Type} `{Countable PositionKey}.
Variable positionKey : Vector3 → PositionKey.
Variable Mesh_fetch : Mesh → list Vector3 * list (list nat).

Local Abbreviation Object := (Object.Object Vector3 ObjectNode ObjectEdge).
Local Abbreviation GeneratedPart := (GeneratedPart.GeneratedPart Vector3).

(** [collectIncombinableMesh] appends the vertices of the mesh to the
    object, its triangles to [triangles] and the faces that
    [recoverQuads] rebuilds from them to [triangleAndQuads], every index
    moved by the number of vertices the object had: when the triangles
    of the mesh address vertices of the mesh, and the new vertex count
    fits [size_t], the call is defined, no index wraps around, the
    rebuilt faces address vertices of the mesh too, and an object whose
    faces addressed its own vertices still is such an object.  Nodes and
    edges are not touched. *)
Theorem collectIncombinableMesh_appends (mesh : Mesh)
  (sharedQuadEdges : gset (PositionKey * PositionKey)) (m_object : Object)
  (uncombinedVertices : list Vector3) (uncombinedFaces : list (list nat)) :
  Mesh_fetch mesh = (uncombinedVertices, uncombinedFaces) →
  indicesBelow (length uncombinedVertices) uncombinedFaces →
  (N.of_nat (length (Object.vertices m_object) + length uncombinedVertices)
     < 2 ^ size_bits)%N →
  let start := length (Object.vertices m_object) in
  let moved := map (fun face => map (fun index => index + start) face) in
  ∃ quads object',
    Quads.recoverQuads positionKey uncombinedVertices uncombinedFaces sharedQuadEdges []
      = Some quads ∧
    collectIncombinableMesh size_bits positionKey Mesh_fetch (Some mesh)
      sharedQuadEdges m_object = Some object' ∧
    Object.vertices object' = Object.vertices m_object ++ uncombinedVertices ∧
    Object.triangles object' = Object.triangles m_object ++ moved uncombinedFaces ∧
    Object.triangleAndQuads object' = Object.triangleAndQuads m_object ++ moved quads ∧
    Object.nodes object' = Object.nodes m_object ∧
    Object.edges object' = Object.edges m_object ∧
    indicesBelow (length uncombinedVertices) quads ∧
    (wellIndexed m_object → wellIndexed object').
Proof.
  intros Hfetch Hbelow Hsize start moved.
  destruct (QuadsRunFacts.recoverQuads_indices positionKey uncombinedVertices
              uncombinedFaces sharedQuadEdges []
              (fun index => index < length uncombinedVertices))
    as (quads & Hquads & Hbelow').
  { eapply Forall_impl; [exact Hbelow|]. intros face Hface _. exact Hface. }
  { exact Hbelow. }
  unfold collectIncombinableMesh. rewrite Hfetch, Hquads. simpl.
  rewrite (updateVertexIndices_exact _ _ _ Hbelow) by done.
  rewrite (updateVertexIndices_exact _ _ _ Hbelow') by done.
  eexists quads, _. split; [done|]. split; [done|]. simpl.
  do 6 (split; [done|]). intros [Htri Hquad]. split.
  - unfold indicesBelow. simpl. rewrite length_app. apply Forall_app. split.
    + by apply (indicesBelow_mono _ (length (Object.vertices m_object))); [lia|].
    + by apply indicesBelow_moved.
  - unfold indicesBelow. simpl. rewrite length_app. apply Forall_app. split.
    + by apply (indicesBelow_mono _ (length (Object.vertices m_object))); [lia|].
    + by apply indicesBelow_moved.
Qed.



End Proofs.

(** The two halves of the unit square, appended to an object that has
    one vertex: every index moves by one, and the halves are joined in
    [triangleAndQuads]. *)
Lemma collectIncombinableMesh_appends_witness :
  ∃ object',
    collectIncombinableMesh 64 Quads.latticeKey (fun mesh => mesh)
      (Some (Quads.squareVertices, [[0; 1; 2]; [0; 2; 3]]))
      {[ ((0, 0, 0), (1, 1, 0)) ]}%Z pointObject = Some object' ∧
    Object.triangles object' = [[1; 2; 3]; [1; 3; 4]] ∧
    wellIndexed object'.
Proof.
  destruct (collectIncombinableMesh_appends 64 Quads.latticeKey
              (ObjectNode := unit) (ObjectEdge := unit) (fun mesh => mesh)
              (Quads.squareVertices, [[0; 1; 2]; [0; 2; 3]])
              {[ ((0, 0, 0), (1, 1, 0)) ]}%Z pointObject
              Quads.squareVertices [[0; 1; 2]; [0; 2; 3]])
    as (quads & object' & _ & Hrun & _ & Htriangles & _ & _ & _ & _ & Hwell).
  - reflexivity.
  - repeat constructor; simpl; lia.
  - reflexivity.
  - exists object'. split; [exact Hrun|]. split; [exact Htriangles|].
    apply Hwell. split; constructor.
Defined.


Example collectErroredParts_example :
  Object.triangles (collectErroredParts 64 [("part", failedPart)] pointObject) = [[6; 4; 5]] ∧
  Object.triangleAndQuads (collectErroredParts 64 [("part", failedPart)] pointObject)
  = [[1; 2; 3]].
Proof. vm_compute. split; reflexivity. Qed.

End CollectFacts.

(** ** collectUncombinedComponent and collectIncombinableComponentMeshes *)
Module TraverseFacts.
Import Snapshot Traverse.

(** A property of the state that every visit keeps holds after the loop
    over the children. *)
Lemma forEachChild_Done {S} (visit : string → S → Outcome S) (P : S → Prop)
  children st st' :
  forEachChild visit children st = Done st' →
  P st →
  (∀ c s s', c ∈ children → c ≠ "" → P s → visit c s = Done s' → P s') →
  P st'.
Proof.
  revert st. induction children as [|c rest IH]; intros st Hrun Hst Hstep; simpl in Hrun.
  - by injection Hrun as <-.
  - destruct (decide (c = "")) as [->|Hc].
    + apply (IH st); [done|done|]. intros c' s s' Hin. apply Hstep. by right.
    + destruct (visit c st) as [st1| |] eqn:Hvisit; simpl in Hrun; try done.
      apply (IH st1); [done| |].
      * apply (Hstep c st st1); [by left|done|done|done].
      * intros c' s s' Hin. apply Hstep. by right.
Qed.

(** Every visit of the loop has returned. *)
Lemma forEachChild_visits {S} (visit : string → S → Outcome S) children st st' c :
  forEachChild visit children st = Done st' → c ∈ children → c ≠ "" →
  ∃ s s', visit c s = Done s'.
Proof.
  revert st. induction children as [|c0 rest IH]; intros st Hrun Hin Hne; simpl in Hrun.
  - by apply elem_of_nil in Hin.
  - destruct (decide (c0 = "")) as [->|Hc0].
    + apply elem_of_cons in Hin as [->|Hin]; [done|]. by apply (IH st).
    + destruct (visit c0 st) as [st1| |] eqn:Hvisit; simpl in Hrun; try done.
      apply elem_of_cons in Hin as [->|Hin]; [by eauto|]. by apply (IH st1).
Qed.

Section Proofs.

Variable size_bits : N.
Context {Vector3 PositionKey ObjectNode ObjectEdge NodeVertex Mesh : Type}
  `{Countable PositionKey}.
Variable positionKey : Vector3 → PositionKey.
Variable Mesh_fetch : Mesh → list Vector3 * list (list nat).
Variable isNull : Mesh → bool.
Variable String_isTrue : string → bool.
Variable String_split : string → ascii → list string.
Variable CombineModeFromString : string → CombineMode.
Variable m_snapshot : Snapshot.

Local Abbreviation GeneratedComponent :=
  (GeneratedComponent.GeneratedComponent Mesh PositionKey ObjectNode ObjectEdge NodeVertex).
Variable GeneratedComponent_default : GeneratedComponent.

Local Abbreviation State := (@State Vector3 PositionKey ObjectNode ObjectEdge NodeVertex Mesh _ _).
Local Abbreviation findComponent := (Grouping.findComponent m_snapshot).
Local Abbreviation mode :=
  (Grouping.componentCombineMode String_isTrue CombineModeFromString).
Local Abbreviation walks := (walksTo String_isTrue String_split CombineModeFromString m_snapshot).
Local Abbreviation cachedAt := (cached GeneratedComponent_default).
Local Abbreviation collected :=
  (isCollected isNull String_isTrue CombineModeFromString m_snapshot GeneratedComponent_default).
Local Abbreviation uncombined :=
  (collectUncombinedComponent size_bits positionKey Mesh_fetch isNull String_isTrue
     String_split CombineModeFromString m_snapshot GeneratedComponent_default).
Local Abbreviation gathersFrom :=
  (gathers isNull String_isTrue String_split CombineModeFromString m_snapshot
     GeneratedComponent_default).
Local Abbreviation post :=
  (uncombinedPost isNull String_isTrue String_split CombineModeFromString m_snapshot
     GeneratedComponent_default).

Lemma cached_componentCacheAt id (cache : gmap string GeneratedComponent) d :
  cachedAt (componentCacheAt GeneratedComponent_default id cache).2 d = cachedAt cache d.
Proof.
  unfold cached, componentCacheAt. simpl.
  destruct (decide (id = d)) as [->|Hne].
  - by rewrite lookup_insert_eq.
  - by rewrite lookup_insert_ne.
Qed.

Lemma isCollected_ext (cache cache' : gmap string GeneratedComponent) d :
  cachedAt cache' d = cachedAt cache d → collected cache' d ↔ collected cache d.
Proof. intros Heq. unfold isCollected. by rewrite Heq. Qed.

Lemma collectIncombinableMesh_nodes mesh shared
  (object object' : Object.Object Vector3 ObjectNode ObjectEdge) :
  Collect.collectIncombinableMesh size_bits positionKey Mesh_fetch mesh shared object
    = Some object' →
  Object.nodes object' = Object.nodes object ∧ Object.edges object' = Object.edges object.
Proof.
  unfold Collect.collectIncombinableMesh. destruct mesh as [mesh|]; [|by intros [= <-]].
  destruct (Mesh_fetch mesh) as [vs fs].
  destruct (Quads.recoverQuads _ _ _ _ _) as [quads|]; [|done]. simpl.
  by intros [= <-].
Qed.

(** Nothing can be walked to from a component that is [Uncombined]. *)
Lemma walks_from_uncombined id d :
  mode (findComponent id) = Uncombined → rtc walks id d → d = id.
Proof.
  intros Hmode Hreach. destruct Hreach as [|x c z (component & Hfind & Hne & _) _]; [done|].
  rewrite Hfind in Hmode. done.
Qed.

Lemma walks_from_component id component d :
  findComponent id = Some component → mode (Some component) ≠ Uncombined →
  rtc walks id d ↔
  d = id ∨ ∃ c, c ∈ String_split (valueOrEmpty component "children") ","%char ∧
                c ≠ "" ∧ rtc walks c d.
Proof.
  intros Hfind Hmode. split.
  - intros Hreach. destruct Hreach as [|x c z (component' & Hfind' & _ & Hne & Hin) Hrest];
      [by left|].
    right. exists c. assert (component' = component) as -> by congruence. done.
  - intros [->|(c & Hin & Hne & Hrest)]; [done|].
    apply (rtc_l _ _ c); [|done]. by exists component.
Qed.

(** What the loop over the children gathers, for one of the three
    lists. *)
Lemma forEachChild_gathers {X} (field : State → list X)
  (part : GeneratedComponent → list X) visit children st st' :
  (∀ c s s', visit c s = Done s' →
     (∀ d, cachedAt (m_cacheContext_components s') d = cachedAt (m_cacheContext_components s) d) ∧
     gathersFrom field part c s s') →
  forEachChild visit children st = Done st' →
  (∀ d, cachedAt (m_cacheContext_components st') d = cachedAt (m_cacheContext_components st) d) ∧
  ∀ x, x ∈ field st' ↔
       x ∈ field st ∨
       ∃ c d, c ∈ children ∧ c ≠ "" ∧ rtc walks c d ∧ collected (m_cacheContext_components st) d ∧
              x ∈ part (cachedAt (m_cacheContext_components st) d).
Proof.
  intros Hvisit. revert st. induction children as [|c rest IH]; intros st Hrun;
    simpl in Hrun.
  - injection Hrun as <-. split; [done|]. intros x. split; [by left|].
    intros [?|(c & d & ?%elem_of_nil & _)]; done.
  - destruct (decide (c = "")) as [->|Hc].
    + destruct (IH st Hrun) as [Hcache Hfield]. split; [done|].
      intros x. rewrite Hfield. split.
      * intros [?|(c & d & Hin & Hrest)]; [by left|].
        right. exists c, d. split; [by right|done].
      * intros [?|(c & d & Hin & Hne & Hrest)]; [by left|].
        apply elem_of_cons in Hin as [->|Hin]; [done|]. right. by exists c, d.
    + destruct (visit c st) as [st1| |] eqn:Hcall; simpl in Hrun; try done.
      destruct (Hvisit _ _ _ Hcall) as [Hcache1 Hfield1].
      destruct (IH st1 Hrun) as [Hcache Hfield]. split.
      * intros d. by rewrite Hcache, Hcache1.
      * intros x. rewrite Hfield, (Hfield1 x). split.
        -- intros [[?|(d & Hreach & Hcol & Hx)]|(c' & d & Hin & Hne & Hreach & Hcol & Hx)].
           ++ by left.
           ++ right. exists c, d. split; [by left|done].
           ++ right. exists c', d. split; [by right|]. split; [done|]. split; [done|].
              rewrite <- (isCollected_ext _ _ _ (Hcache1 d)). by rewrite <- Hcache1.
        -- intros [?|(c' & d & Hin & Hne & Hreach & Hcol & Hx)]; [left; by left|].
           apply elem_of_cons in Hin as [->|Hin].
           ++ left. right. by exists d.
           ++ right. exists c', d. split; [done|]. split; [done|]. split; [done|].
              rewrite (isCollected_ext _ _ _ (Hcache1 d)). by rewrite Hcache1.
Qed.

Lemma collectUncombinedComponent_post fuel id st st' :
  uncombined fuel id st = Done st' → post id st st'.
Proof.
  revert id st st'. induction fuel as [|fuel IH]; intros id st st'; [done|].
  cbn [collectUncombinedComponent].
  destruct (decide (mode (findComponent id) = Uncombined)) as [Hmode|Hmode].
  - assert (Hsome : is_Some (findComponent id)).
    { destruct (findComponent id); [by eexists|done]. }
    assert (Honly : ∀ d, rtc walks id d → d = id)
      by (intros d; by apply walks_from_uncombined).
    destruct (componentCacheAt _ id (m_cacheContext_components st)) as [componentCache cache] eqn:Hat.
    assert (Hentry : componentCache = cachedAt (m_cacheContext_components st) id).
    { unfold componentCacheAt in Hat. by injection Hat as <- _. }
    assert (Hcache : ∀ d, cachedAt cache d = cachedAt (m_cacheContext_components st) d).
    { intros d. rewrite <- (cached_componentCacheAt id (m_cacheContext_components st) d). by rewrite Hat. }
    assert (Hskip : ∀ X (field : State → list X) part st1,
              field st1 = field st →
              ¬ collected (m_cacheContext_components st) id →
              gathersFrom field part id st st1).
    { intros X field part st1 Heq Hnot x. rewrite Heq. split; [by left|].
      intros [?|(d & Hreach & Hcol & _)]; [done|].
      apply Honly in Hreach as ->. done. }
    assert (Htake : ∀ X (field : State → list X) part st1,
              field st1 = field st ++ part componentCache →
              collected (m_cacheContext_components st) id →
              gathersFrom field part id st st1).
    { intros X field part st1 Heq Hcol x. rewrite Heq, elem_of_app. split.
      - intros [?|Hx]; [by left|]. right. exists id. rewrite <- Hentry. done.
      - intros [?|(d & Hreach & _ & Hx)]; [by left|].
        apply Honly in Hreach as ->. right. by rewrite Hentry. }
    destruct (GeneratedComponent.mesh componentCache) as [mesh|] eqn:Hmesh.
    + destruct (isNull mesh) eqn:Hnull.
      * intros [= <-].
        assert (Hnot : ¬ collected (m_cacheContext_components st) id).
        { intros (_ & mesh' & Hmesh' & Hnull'). rewrite <- Hentry in Hmesh'. congruence. }
        split; [done|]. split; [done|]. split; [by intros d ->%Honly|].
        split; [|split]; by apply Hskip.
      * destruct (Collect.collectIncombinableMesh _ _ _ _ _ _) as [object2|] eqn:Hcollect;
          [|done].
        intros [= <-]. apply collectIncombinableMesh_nodes in Hcollect as [Hnodes Hedges].
        simpl in Hnodes, Hedges.
        assert (Hcol : collected (m_cacheContext_components st) id).
        { split; [done|]. exists mesh. by rewrite <- Hentry. }
        split; [done|]. split; [done|]. split; [by intros d ->%Honly|].
        split; [|split]; by apply Htake.
    + intros [= <-].
      assert (Hnot : ¬ collected (m_cacheContext_components st) id).
      { intros (_ & mesh' & Hmesh' & _). rewrite <- Hentry in Hmesh'. congruence. }
      split; [done|]. split; [done|]. split; [by intros d ->%Honly|].
      split; [|split]; by apply Hskip.
  - destruct (findComponent id) as [component|] eqn:Hfind; [|done].
    intros Hrun.
    assert (Hnot : ¬ collected (m_cacheContext_components st) id).
    { intros [Hm _]. by rewrite Hfind in Hm. }
    assert (Hgather : ∀ X (field : State → list X) part,
              (∀ c s s', uncombined fuel c s = Done s' →
                 (∀ d, cachedAt (m_cacheContext_components s') d = cachedAt (m_cacheContext_components s) d) ∧
                 gathersFrom field part c s s') →
              gathersFrom field part id st st').
    { intros X field part Hvisit x.
      destruct (forEachChild_gathers field part _ _ _ _ Hvisit Hrun) as [_ Hfield].
      rewrite Hfield. split.
      - intros [?|(c & d & Hin & Hne & Hreach & Hrest)]; [by left|].
        right. exists d. split; [|done].
        apply (walks_from_component id component); [done|done|]. right. by exists c.
      - intros [?|(d & Hreach & Hcol & Hx)]; [by left|].
        apply (proj1 (walks_from_component id component d Hfind Hmode)) in Hreach
          as [->|(c & Hin & Hne & Hreach)]; [done|].
        right. by exists c, d. }
    split; [|split; [|split; [|split; [|split]]]].
    + apply (forEachChild_Done _
               (fun s => ∀ d, cachedAt (m_cacheContext_components s) d = cachedAt (m_cacheContext_components st) d)
               _ _ _ Hrun); [done|].
      intros c s s' _ _ Hs Hcall d. apply IH in Hcall as (Hc & _). by rewrite Hc.
    + apply (forEachChild_Done _ (fun s => m_isSuccessful s = m_isSuccessful st)
               _ _ _ Hrun); [done|].
      intros c s s' _ _ Hs Hcall. apply IH in Hcall as (_ & Hf & _). congruence.
    + intros d Hreach.
      apply (proj1 (walks_from_component id component d Hfind Hmode)) in Hreach
        as [->|(c & Hin & Hne & Hreach)]; [by eexists|].
      destruct (forEachChild_visits _ _ _ _ c Hrun Hin Hne) as (s & s' & Hcall).
      apply IH in Hcall as (_ & _ & Hres & _). by apply Hres.
    + apply Hgather. intros c s s' Hcall. apply IH in Hcall as (? & _ & _ & ? & _). done.
    + apply Hgather. intros c s s' Hcall. apply IH in Hcall as (? & _ & _ & _ & ? & _). done.
    + apply Hgather. intros c s s' Hcall. apply IH in Hcall as (? & _ & _ & _ & _ & ?). done.
Qed.


Lemma forEachChild_in_fuel {S} (visit : string → S → Outcome S) children st :
  (∀ c s, c ∈ children → c ≠ "" → visit c s ≠ OutOfFuel) →
  forEachChild visit children st ≠ OutOfFuel.
Proof.
  revert st. induction children as [|c rest IH]; intros st Hvisit; simpl; [done|].
  destruct (decide (c = "")) as [->|Hc].
  - apply IH. intros c' s Hin. apply Hvisit. by right.
  - destruct (visit c st) as [st1| |] eqn:Hcall; simpl; [|done|].
    + apply IH. intros c' s Hin. apply Hvisit. by right.
    + exfalso. apply (Hvisit c st); [by left|done|done].
Qed.

Lemma depthWithin_child fuel id component c :
  Dirty.depthWithin String_split m_snapshot (S fuel) id = true →
  findComponent id = Some component →
  c ∈ String_split (valueOrEmpty component "children") ","%char → c ≠ "" →
  Dirty.depthWithin String_split m_snapshot fuel c = true.
Proof.
  intros Hdepth Hfind Hin Hne. simpl in Hdepth.
  change (Dirty.lookupComponent m_snapshot id) with (findComponent id) in Hdepth.
  rewrite Hfind in Hdepth. rewrite forallb_forall in Hdepth.
  specialize (Hdepth c (proj1 (list_elem_of_In _ _) Hin)).
  apply orb_true_iff in Hdepth as [Hempty|?]; [|done].
  by apply bool_decide_eq_true in Hempty.
Qed.

Lemma collectUncombinedComponent_in_fuel fuel id st :
  Dirty.depthWithin String_split m_snapshot fuel id = true →
  uncombined fuel id st ≠ OutOfFuel.
Proof.
  revert id st. induction fuel as [|fuel IH]; intros id st Hdepth; [done|].
  cbn [collectUncombinedComponent].
  destruct (decide (mode (findComponent id) = Uncombined)) as [Hmode|Hmode].
  - destruct (componentCacheAt _ id _) as [componentCache cache].
    destruct (GeneratedComponent.mesh componentCache) as [mesh|]; [|done].
    destruct (isNull mesh); [done|].
    by destruct (Collect.collectIncombinableMesh _ _ _ _ _ _).
  - destruct (findComponent id) as [component|] eqn:Hfind; [|done].
    apply forEachChild_in_fuel. intros c s Hin Hne. apply IH.
    by apply (depthWithin_child fuel id component).
Qed.


Local Abbreviation incombinable :=
  (collectIncombinableComponentMeshes size_bits positionKey Mesh_fetch String_isTrue
     String_split CombineModeFromString m_snapshot GeneratedComponent_default).
Local Abbreviation incombinableOf :=
  (hasIncombinable String_isTrue CombineModeFromString m_snapshot GeneratedComponent_default).
Local Abbreviation post2 :=
  (incombinablePost String_isTrue String_split CombineModeFromString m_snapshot
     GeneratedComponent_default).



Lemma collectIncombinableMeshes_in_fuel meshes shared
  (object : Object.Object Vector3 ObjectNode ObjectEdge) successful :
  collectIncombinableMeshes size_bits positionKey Mesh_fetch meshes shared object
    successful ≠ OutOfFuel.
Proof.
  revert object successful. induction meshes as [|mesh rest IH]; intros object successful;
    simpl; [done|].
  by destruct (Collect.collectIncombinableMesh _ _ _ _ _ _).
Qed.


Lemma collectIncombinableComponentMeshes_in_fuel fuel id st :
  Dirty.depthWithin String_split m_snapshot fuel id = true →
  incombinable fuel id st ≠ OutOfFuel.
Proof.
  revert id st. induction fuel as [|fuel IH]; intros id st Hdepth; [done|].
  cbn [collectIncombinableComponentMeshes].
  destruct (decide (mode (findComponent id) = Uncombined)) as [Hmode|Hmode]; [done|].
  destruct (componentCacheAt _ id _) as [componentCache cache].
  destruct (collectIncombinableMeshes _ _ _ _ _ _ _) as [r| |] eqn:Hloop; simpl; try done.
  - destruct (findComponent id) as [component|] eqn:Hfind; [|done].
    apply forEachChild_in_fuel. intros c s Hin Hne. apply IH.
    by apply (depthWithin_child fuel id component).
  - by apply collectIncombinableMeshes_in_fuel in Hloop.
Qed.


End Proofs.


(** A child id that names no component makes
    [collectUncombinedComponent] dereference a null pointer:
    [findComponent] answers [nullptr] for it, [componentCombineMode]
    takes that for [Normal], and the loop over the children reads
    [*component].  So when such an id can be reached from the starting
    component through components that are not [Uncombined], the call is
    undefined (on a tree within the recursion bound; without the bound
    it still does not return). *)
Theorem collectUncombinedComponent_dangling_child (size_bits : N)
  {Vector3 PositionKey ObjectNode ObjectEdge NodeVertex Mesh : Type}
  `{Countable PositionKey} (positionKey : Vector3 → PositionKey)
  (Mesh_fetch : Mesh → list Vector3 * list (list nat)) (isNull : Mesh → bool)
  (String_isTrue : string → bool) (String_split : string → ascii → list string)
  (CombineModeFromString : string → CombineMode) (m_snapshot : Snapshot)
  (GeneratedComponent_default :
     GeneratedComponent.GeneratedComponent Mesh PositionKey ObjectNode ObjectEdge NodeVertex)
  (fuel : nat) (componentIdString d : string)
  (st : @State Vector3 PositionKey ObjectNode ObjectEdge NodeVertex Mesh _ _) :
  rtc (walksTo String_isTrue String_split CombineModeFromString m_snapshot)
    componentIdString d →
  Grouping.findComponent m_snapshot d = None →
  (∀ st', collectUncombinedComponent size_bits positionKey Mesh_fetch isNull String_isTrue
            String_split CombineModeFromString m_snapshot GeneratedComponent_default
            fuel componentIdString st ≠ Done st') ∧
  (Dirty.depthWithin String_split m_snapshot fuel componentIdString = true →
   collectUncombinedComponent size_bits positionKey Mesh_fetch isNull String_isTrue
     String_split CombineModeFromString m_snapshot GeneratedComponent_default
     fuel componentIdString st = Undefined).
Proof.
  intros Hreach Hnone.
  assert (Hnot : ∀ st', collectUncombinedComponent size_bits positionKey Mesh_fetch
            isNull String_isTrue String_split CombineModeFromString m_snapshot
            GeneratedComponent_default fuel componentIdString st ≠ Done st').
  { intros st' Hrun. apply collectUncombinedComponent_post in Hrun as (_ & _ & Hres & _).
    destruct (Hres d Hreach) as [component Hsome]. congruence. }
  split; [done|]. intros Hdepth.
  pose proof (collectUncombinedComponent_in_fuel size_bits positionKey Mesh_fetch isNull
                String_isTrue String_split CombineModeFromString m_snapshot
                GeneratedComponent_default fuel componentIdString st Hdepth) as Hfuel.
  destruct (collectUncombinedComponent _ _ _ _ _ _ _ _ _ _ _ _) as [st'| |]; try done.
  by destruct (Hnot st').
Qed.

Local Abbreviation toyWalks :=
  (walksTo isTrueModel splitModel CombineModeFromStringModel (hatSnapshot "body,hat")).





(** In the example with a root that lists the child [ghost], which
    names no component, the call is undefined. *)
Lemma collectUncombinedComponent_dangling_child_witness :
  toyCollectUncombined "body,ghost,hat" 3 = Undefined.
Proof.
  apply (collectUncombinedComponent_dangling_child 64 Quads.latticeKey (fun mesh => mesh)
           (fun mesh => bool_decide (mesh.2 = [])) isTrueModel splitModel
           CombineModeFromStringModel (hatSnapshot "body,ghost,hat")
           (toyComponent None [] []) 3 nilUuidString "ghost" toyState).
  - apply rtc_once. exists {[ "children" := "body,ghost,hat" ]}.
    split; [reflexivity|]. split; [by vm_compute|]. split; [done|].
    vm_compute. right. by left.
  - vm_compute. reflexivity.
  - vm_compute. reflexivity.
Defined.



Example collectIncombinableComponentMeshes_example :
  match toyCollectIncombinable "body,hat" 3 with
  | Done st => m_isSuccessful st = false ∧
               Object.triangles (m_object st) = [[0; 1; 3]]
  | _ => False
  end.
Proof. vm_compute. split; reflexivity. Qed.

Example collectUncombinedComponent_example :
  match toyCollectUncombined "body,hat" 3 with
  | Done st => Object.nodes (m_object st) = ["hairNode"; "hatNode"] ∧
               Object.triangles (m_object st) = [[0; 2; 3]; [6; 7; 8]]
  | _ => False
  end.
Proof. vm_compute. split; reflexivity. Qed.

Example collectUncombinedComponent_ghost :
  toyCollectUncombined "body,ghost,hat" 3 = Undefined.
Proof. vm_compute. reflexivity. Qed.

End TraverseFacts.

(** ** generate: dropping the cache entries of parts and components that are gone *)
Module CacheCleanupFacts.
Import Snapshot CacheCleanup.

Example evictStaleComponents_example :
  evictStaleComponents ({[ "a" := ∅ ]} : gmap string Attributes)
    ({[ "a" := 1; "b" := 2; nilUuidString := 0 ]} : gmap string nat)
    ({[ "a+b!" := Some 1; "a+c!" := None ]} : gmap string (option nat))
  = ({[ "a" := 1 ]}, {[ "a+c!" := None ]}).
Proof. vm_compute. reflexivity. Qed.

Section Proofs.

Context {GeneratedPart GeneratedComponent Mesh : Type}.

(** The loop over the cached parts drops exactly the entries of the
    parts that are not live: those that the snapshot does not have and
    that are not recorded as the mirror of a part the snapshot has.  A
    live entry is kept as it is.  [partMirrorIdMap] loses the records of
    the cached parts that were dropped, and nothing else. *)
Theorem evictStaleParts_keeps_live (snapshotParts : gmap string Attributes)
  (parts : gmap string GeneratedPart) (partMirrorIdMap : gmap string string)
  (partId : string) :
  let result := evictStaleParts snapshotParts parts partMirrorIdMap in
  result.1 !! partId
  = (if partIsLive snapshotParts partMirrorIdMap partId then parts !! partId else None) ∧
  result.2 !! partId
  = (if partIsLive snapshotParts partMirrorIdMap partId then partMirrorIdMap !! partId
     else if decide (is_Some (parts !! partId)) then None
          else partMirrorIdMap !! partId).
Proof.
  simpl. unfold evictStaleParts.
  assert (Hfold : ∀ (m : gmap string GeneratedPart) k,
    (map_fold (fun partId _ st => evictStalePart snapshotParts partId st)
       (parts, partMirrorIdMap) m).1 !! k
    = (if partIsLive snapshotParts partMirrorIdMap k then parts !! k
       else match m !! k with Some _ => None | None => parts !! k end) ∧
    (map_fold (fun partId _ st => evictStalePart snapshotParts partId st)
       (parts, partMirrorIdMap) m).2 !! k
    = (if partIsLive snapshotParts partMirrorIdMap k then partMirrorIdMap !! k
       else match m !! k with Some _ => None | None => partMirrorIdMap !! k end)).
  { intros m.
    apply (map_fold_weak_ind
      (fun (result : gmap string GeneratedPart * gmap string string)
           (m : gmap string GeneratedPart) => ∀ k,
        result.1 !! k
        = (if partIsLive snapshotParts partMirrorIdMap k then parts !! k
           else match m !! k with Some _ => None | None => parts !! k end) ∧
        result.2 !! k
        = (if partIsLive snapshotParts partMirrorIdMap k then partMirrorIdMap !! k
           else match m !! k with Some _ => None | None => partMirrorIdMap !! k end))).
    - intros k. simpl. rewrite lookup_empty. by destruct (partIsLive _ _ k).
    - intros i x m' r Hi IH k.
      assert (Hi2 : r.2 !! i = partMirrorIdMap !! i).
      { destruct (IH i) as [_ ->]. rewrite Hi. by destruct (partIsLive _ _ i). }
      unfold evictStalePart. rewrite Hi2.
      destruct (decide (k = i)) as [->|Hne].
      + rewrite lookup_insert_eq. unfold partIsLive.
        destruct (decide (snapshotParts !! i = None)) as [Hgone|Hthere].
        * rewrite Hgone. rewrite bool_decide_eq_false_2 by (by intros [? ?]). simpl.
          destruct (partMirrorIdMap !! i) as [mirrorFrom|] eqn:Hmirror.
          -- destruct (decide (snapshotParts !! mirrorFrom ≠ None)) as [Hsrc|Hsrc].
             ++ rewrite bool_decide_eq_true_2.
                2:{ destruct (snapshotParts !! mirrorFrom); [by eexists|done]. }
                destruct (IH i) as [-> ->]. unfold partIsLive.
                rewrite Hgone, Hmirror.
                rewrite bool_decide_eq_false_2 by (by intros [? ?]). simpl.
                rewrite bool_decide_eq_true_2; [done|].
                destruct (snapshotParts !! mirrorFrom); [by eexists|done].
             ++ apply dec_stable in Hsrc. rewrite Hsrc.
                rewrite bool_decide_eq_false_2 by (by intros [? ?]). simpl.
                by rewrite !lookup_delete_eq.
          -- simpl. rewrite lookup_delete_eq. by split.
        * destruct (IH i) as [-> ->]. unfold partIsLive.
          rewrite bool_decide_eq_true_2.
          2:{ destruct (snapshotParts !! i); [by eexists|done]. }
          done.
      + rewrite lookup_insert_ne by done.
        assert (Hsame : ∀ st' : gmap string GeneratedPart * gmap string string,
                  st' = r ∨ st' = (delete i r.1, delete i r.2) ∨ st' = (delete i r.1, r.2) →
                  st'.1 !! k = r.1 !! k ∧ st'.2 !! k = r.2 !! k).
        { intros st' [->|[-> | ->]]; simpl; rewrite ?lookup_delete_ne by done; done. }
        destruct (Hsame (if decide (snapshotParts !! i = None)
                         then match partMirrorIdMap !! i with
                              | Some mirrorFrom =>
                                  if decide (snapshotParts !! mirrorFrom ≠ None) then r
                                  else (delete i r.1, delete i r.2)
                              | None => (delete i r.1, r.2)
                              end
                         else r)) as [-> ->]; [|apply IH].
        destruct (decide (snapshotParts !! i = None)); [|by left].
        destruct (partMirrorIdMap !! i); [|by auto].
        destruct (decide _); auto. }
  destruct (Hfold parts partId) as [-> ->].
  destruct (partIsLive _ _ partId); [done|].
  destruct (parts !! partId) as [part|] eqn:Hpart.
  - by rewrite decide_True by by eexists.
  - by rewrite decide_False by (by intros [? ?]).
Qed.

(** The loop over the cached components keeps exactly the entries of
    the components that the snapshot has, as they are; and for every
    cached component that the snapshot does not have it evicts every
    cached combination whose key contains the id of that component,
    leaving the other combinations as they are.  The test is on the
    keys of [m_snapshot->components] alone: a cache entry under any
    other id, such as that of the root component when the snapshot does
    not list the root among its components, is dropped. *)
Theorem evictStaleComponents_keeps_known (snapshotComponents : gmap string Attributes)
  (components : gmap string GeneratedComponent)
  (cachedCombination : gmap string (option Mesh)) :
  let result := evictStaleComponents snapshotComponents components cachedCombination in
  (∀ id, result.1 !! id
         = if decide (snapshotComponents !! id = None) then None else components !! id) ∧
  (∀ id key, isStale snapshotComponents components id → Cache.isSubstring id key →
     result.2 !! key = None) ∧
  (∀ key, (∀ id, isStale snapshotComponents components id → ¬ Cache.isSubstring id key) →
     result.2 !! key = cachedCombination !! key).
Proof.
  simpl. unfold evictStaleComponents.
  assert (Hfold : ∀ m : gmap string GeneratedComponent,
    let result :=
      map_fold (fun componentId _ st =>
                  evictStaleComponent snapshotComponents componentId st)
        (components, cachedCombination) m in
    (∀ id, result.1 !! id
           = match m !! id with
             | Some _ => if decide (snapshotComponents !! id = None) then None
                         else components !! id
             | None => components !! id
             end) ∧
    (∀ id key, isStale snapshotComponents m id → Cache.isSubstring id key →
       result.2 !! key = None) ∧
    (∀ key, (∀ id, isStale snapshotComponents m id → ¬ Cache.isSubstring id key) →
       result.2 !! key = cachedCombination !! key)).
  { intros m. simpl.
    apply (map_fold_weak_ind
      (fun result (m : gmap string GeneratedComponent) =>
        (∀ id, result.1 !! id
               = match m !! id with
                 | Some _ => if decide (snapshotComponents !! id = None) then None
                             else components !! id
                 | None => components !! id
                 end) ∧
        (∀ id key, isStale snapshotComponents m id → Cache.isSubstring id key →
           result.2 !! key = None) ∧
        (∀ key, (∀ id, isStale snapshotComponents m id → ¬ Cache.isSubstring id key) →
           result.2 !! key = cachedCombination !! key))).
    - split; [|split].
      + intros id. by rewrite lookup_empty.
      + intros id key [[? Hid] _]. by rewrite lookup_empty in Hid.
      + done.
    - intros i x m' r Hi (IH1 & IH2 & IH3). unfold evictStaleComponent.
      assert (Hstale : ∀ id, isStale snapshotComponents (<[i:=x]> m') id ↔
                (id = i ∧ snapshotComponents !! i = None) ∨
                isStale snapshotComponents m' id).
      { intros id. unfold isStale. destruct (decide (id = i)) as [->|Hne].
        - rewrite lookup_insert_eq, Hi. split.
          + intros [_ ?]. by left.
          + intros [[_ ?]|[[? ?] _]]; [|done]. split; [by eexists|done].
        - rewrite lookup_insert_ne by done. split; [by right|].
          intros [[? _]|?]; done. }
      destruct (decide (snapshotComponents !! i = None)) as [Hgone|Hthere]; simpl.
      + split; [|split].
        * intros id. destruct (decide (id = i)) as [->|Hne].
          -- rewrite lookup_delete_eq, lookup_insert_eq. by rewrite decide_True.
          -- rewrite lookup_delete_ne, lookup_insert_ne by done. apply IH1.
        * intros id key Hid Hsub. rewrite CacheFacts.evictCombinations_lookup.
          destruct (decide (Cache.stringFind i key 0 ≠ None)) as [?|Hnot]; [done|].
          apply Hstale in Hid as [[-> _]|Hid]; [|by apply (IH2 id)].
          exfalso. apply Hnot. by apply CacheFacts.stringFind_spec.
        * intros key Hnone. rewrite CacheFacts.evictCombinations_lookup.
          rewrite decide_False.
          -- apply IH3. intros id Hid. apply Hnone, Hstale. by right.
          -- intros Hfind%CacheFacts.stringFind_spec.
             apply (Hnone i); [|done]. apply Hstale. by left.
      + split; [|split].
        * intros id. rewrite IH1. destruct (decide (id = i)) as [->|Hne].
          -- rewrite Hi, lookup_insert_eq. by rewrite decide_False.
          -- by rewrite lookup_insert_ne.
        * intros id key Hid Hsub.
          apply Hstale in Hid as [[_ ?]|Hid]; [done|]. by apply (IH2 id).
        * intros key Hnone. apply IH3. intros id Hid. apply Hnone, Hstale. by right. }
  destruct (Hfold components) as (H1 & H2 & H3). split; [|split]; try done.
  intros id. rewrite H1. destruct (components !! id) eqn:Hid; [done|].
  by destruct (decide _).
Qed.

End Proofs.

End CacheCleanupFacts.

(** ** generateSmoothTriangleVertexNormals *)
Module NormalsFacts.
Import Normals.

Example generateSmoothTriangleVertexNormals_short :
  generateSmoothTriangleVertexNormals 0%Z [1; 2; 3; 4]%Z 2 []
  = Some [[1; 2; 3]; [4; 0; 0]]%Z.
Proof. reflexivity. Qed.

Section Proofs.

Context {Vector3 : Type}.
Variable zero : Vector3.

Lemma assignNormals_three (smoothNormals : list Vector3) index n0 n1 n2 :
  assignNormals zero smoothNormals [0; 1; 2] (index, [n0; n1; n2])
  = Some (index + 3,
          [ if decide (index < length smoothNormals)
            then smoothNormalAt zero smoothNormals index else n0;
            if decide (index + 1 < length smoothNormals)
            then smoothNormalAt zero smoothNormals (index + 1) else n1;
            if decide (index + 2 < length smoothNormals)
            then smoothNormalAt zero smoothNormals (index + 2) else n2 ]).
Proof.
  assert (Hnth : ∀ k, k < length smoothNormals →
            nth k smoothNormals zero = smoothNormalAt zero smoothNormals k).
  { intros k Hk. unfold smoothNormalAt.
    destruct (lookup_lt_is_Some_2 _ _ Hk) as [v Hv]. rewrite Hv. simpl.
    by apply nth_lookup_Some. }
  replace (index + 1) with (S index) by lia.
  replace (index + 2) with (S (S index)) by lia.
  replace (index + 3) with (S (S (S index))) by lia.
  simpl.
  destruct (decide (index < length smoothNormals)) as [H0|H0]; simpl;
    destruct (decide (S index < length smoothNormals)) as [H1|H1]; simpl;
    destruct (decide (S (S index) < length smoothNormals)) as [H2|H2]; simpl;
    rewrite ?(Hnth _ H0), ?(Hnth _ H1), ?(Hnth _ H2); done.
Qed.

Lemma fillNormals_fresh (smoothNormals : list Vector3) index n :
  fillNormals zero smoothNormals index (replicate n [zero; zero; zero])
  = Some (map (fun i => [ smoothNormalAt zero smoothNormals (index + 3 * i);
                          smoothNormalAt zero smoothNormals (index + 3 * i + 1);
                          smoothNormalAt zero smoothNormals (index + 3 * i + 2) ])
            (seq 0 n)).
Proof.
  revert index. induction n as [|n IH]; intros index; [done|].
  cbn [replicate fillNormals]. rewrite assignNormals_three. cbn [mbind option_bind fst snd].
  rewrite IH. cbn [mbind option_bind]. f_equal. cbn [seq map]. f_equal.
  - assert (Hzero : ∀ k, ¬ k < length smoothNormals →
              zero = smoothNormalAt zero smoothNormals k).
    { intros k Hk. unfold smoothNormalAt. by rewrite lookup_ge_None_2 by lia. }
    replace (index + 3 * 0) with index by lia.
    repeat case_decide; repeat f_equal; try done; by apply Hzero.
  - rewrite <- seq_shift, map_map. apply map_ext. intros i.
    by replace (index + 3 + 3 * i) with (index + 3 * S i) by lia.
Qed.

(** Called on an empty output vector, as both callers do,
    [generateSmoothTriangleVertexNormals] always returns, with one entry
    per triangle, each of exactly three normals: triangle [i] gets the
    normals number [3 i], [3 i + 1] and [3 i + 2] of the output of
    [smoothNormal], in this order, and [Vector3()] in the place of those
    that the output does not have.  Nothing is read past the end of
    [smoothNormals]. *)
Theorem generateSmoothTriangleVertexNormals_fresh (smoothNormals : list Vector3)
  (trianglesSize : nat) :
  ∃ triangleVertexNormals,
    generateSmoothTriangleVertexNormals zero smoothNormals trianglesSize []
      = Some triangleVertexNormals ∧
    length triangleVertexNormals = trianglesSize ∧
    ∀ i, i < trianglesSize →
      triangleVertexNormals !! i
      = Some [ smoothNormalAt zero smoothNormals (3 * i);
               smoothNormalAt zero smoothNormals (3 * i + 1);
               smoothNormalAt zero smoothNormals (3 * i + 2) ].
Proof.
  unfold generateSmoothTriangleVertexNormals, resize.
  rewrite take_nil, app_nil_l. cbn [length].
  rewrite Nat.sub_0_r, fillNormals_fresh. eexists. split; [done|]. split.
  - by rewrite length_map, length_seq.
  - intros i Hi. change (map ?f ?l) with (f <$> l).
    rewrite list_lookup_fmap, lookup_seq_lt by done. done.
Qed.

End Proofs.

End NormalsFacts.

(** ** preprocessMirror *)
Module MirrorPreprocessFacts.
Import Snapshot ReverseUuid MirrorPreprocess.

Lemma elem_of_entries {A} (m : gmap string A) key value :
  (key, value) ∈ entries m ↔ m !! key = Some value.
Proof.
  unfold entries. rewrite merge_sort_Permutation. apply elem_of_map_to_list.
Qed.

Lemma entries_empty {A} : entries (∅ : gmap string A) = [].
Proof. unfold entries. by rewrite map_to_list_empty. Qed.

Lemma forEach_snoc {A B} (body : B → A → option B) l a b :
  forEach body (l ++ [a]) b = forEach body l b ≫= fun b' => body b' a.
Proof.
  revert b. induction l as [|x l IH]; intros b; simpl.
  - by destruct (body b a).
  - destruct (body b x); simpl; [apply IH|done].
Qed.

(** Invariants of loops, over the part of the list already visited. *)
Lemma forEach_inv {A B} (body : B → A → option B) (P : list A → B → Prop) l b b' :
  P [] b →
  (∀ visited a b b', a ∈ l → P visited b → body b a = Some b' → P (visited ++ [a]) b') →
  forEach body l b = Some b' → P l b'.
Proof.
  intros Hinit. revert b'. induction l as [|a l IH] using rev_ind; intros b' Hstep.
  - by intros [= <-].
  - rewrite forEach_snoc. destruct (forEach body l b) as [b1|] eqn:Hl; [|done]. simpl.
    intros Ha. apply (Hstep l a b1); [set_solver| |done].
    apply IH; [|done]. intros ? a0 ? ? Ha0. apply Hstep. set_solver.
Qed.

Lemma fold_left_inv {A B} (body : B → A → B) (P : list A → B → Prop) l b :
  P [] b →
  (∀ visited a b, a ∈ l → P visited b → P (visited ++ [a]) (body b a)) →
  P l (fold_left body l b).
Proof.
  intros Hinit. induction l as [|a l IH] using rev_ind; intros Hstep; [done|].
  rewrite fold_left_app. simpl. apply Hstep; [set_solver|].
  apply IH. intros ? a0 ? Ha0. apply Hstep. set_solver.
Qed.

Lemma forEach_is_Some {A B} (body : B → A → option B) l b :
  (∀ b a, a ∈ l → is_Some (body b a)) → is_Some (forEach body l b).
Proof.
  revert b. induction l as [|a l IH]; intros b Hbody; simpl; [done|].
  destruct (Hbody b a) as [b' ->]; [by left|]. simpl. apply IH.
  intros ? ? ?. apply Hbody. by right.
Qed.

Lemma forEach_idle {A B} (body : B → A → option B) l b :
  (∀ a, a ∈ l → body b a = Some b) → forEach body l b = Some b.
Proof.
  induction l as [|a l IH]; intros Hbody; simpl; [done|].
  rewrite Hbody by (by left). simpl. apply IH. intros ? ?. apply Hbody. by right.
Qed.

Lemma subscript_value m key : (subscript m key).1 = valueOrEmpty m key.
Proof. unfold subscript, valueOrEmpty. by destruct (m !! key). Qed.

Lemma subscript_again m key :
  subscript (subscript m key).2 key = (valueOrEmpty m key, (subscript m key).2).
Proof.
  unfold subscript, valueOrEmpty. destruct (m !! key) eqn:Hkey; simpl.
  - by rewrite Hkey.
  - by rewrite lookup_insert_eq.
Qed.

Lemma subscript_insert m key value :
  <[key := value]> (subscript m key).2 = <[key := value]> m.
Proof.
  unfold subscript. destruct (m !! key); simpl; [done|]. by rewrite insert_insert_eq.
Qed.

Lemma reverseUuid_is_Some (Uuid_to_string : string → string) s :
  String.length (Uuid_to_string s) = 38 → is_Some (reverseUuid Uuid_to_string s).
Proof.
  unfold reverseUuid. generalize (Uuid_to_string s). intros u Hlen.
  do 38 (destruct u as [|? u]; [discriminate Hlen|]).
  destruct u; [|discriminate Hlen]. cbv. eauto.
Qed.

Section Proofs.

Variable String_isTrue : string → bool.
Variable String_split : string → ascii → list string.
Variable Uuid_to_string : string → string.

Local Abbreviation reverse := (reverseUuid Uuid_to_string).
Local Abbreviation mirrors := (partMirrorsTo String_isTrue Uuid_to_string).
Local Abbreviation partsCollected :=
  (MirrorPreprocess.partsCollected String_isTrue Uuid_to_string).
Local Abbreviation componentsCollected :=
  (MirrorPreprocess.componentsCollected Uuid_to_string).

(** *** The parts *)

Lemma mirrorPart_skipped acc key part :
  String_isTrue (valueOrEmpty part "xMirrored") = false →
  mirrorPart String_isTrue Uuid_to_string acc (key, part) = Some acc.
Proof. intros Hx. destruct acc. unfold mirrorPart. simpl. by rewrite Hx. Qed.

Lemma mirrorPart_mirrored newParts partOldToNewMap key part :
  String_isTrue (valueOrEmpty part "xMirrored") = true →
  mirrorPart String_isTrue Uuid_to_string (newParts, partOldToNewMap) (key, part)
  = newId ← reverse (valueOrEmpty part "id");
    Some (newParts ++ [mirroredPartOf part newId],
          match partOldToNewMap !! valueOrEmpty part "id" with
          | Some _ => partOldToNewMap
          | None => <[valueOrEmpty part "id" := newId]> partOldToNewMap
          end).
Proof.
  intros Hx. unfold mirrorPart. simpl. rewrite Hx. simpl.
  unfold mirroredPartOf, subscript, valueOrEmpty.
  destruct (part !! "id") as [id|] eqn:Hid; simpl.
  - destruct (reverse id) as [newId|]; simpl; [|done]. by rewrite !Hid.
  - destruct (reverse "") as [newId|]; simpl; [|done].
    rewrite ?lookup_insert_eq. simpl. rewrite ?lookup_insert_eq. simpl.
    by rewrite (insert_insert_ne _ "__mirrorFromPartId" "id"), insert_insert_eq.
Qed.

Lemma mirrorPart_collected l acc :
  forEach (mirrorPart String_isTrue Uuid_to_string) l ([], ∅) = Some acc →
  partsCollected l acc.
Proof.
  apply (forEach_inv _ partsCollected).
  { split; simpl.
    - intros it. split; [by intros ?%elem_of_nil|].
      by intros (? & ? & ? & ?%elem_of_nil & _).
    - intros old newId. rewrite lookup_empty. split; [done|].
      by intros [(? & ? & ?%elem_of_nil & _) _]. }
  intros visited [key part] [newParts partOldToNewMap] acc' _ [Hparts Hmap] Hbody.
  destruct (String_isTrue (valueOrEmpty part "xMirrored")) eqn:Hx.
  - rewrite mirrorPart_mirrored in Hbody by done.
    destruct (reverse (valueOrEmpty part "id")) as [newId|] eqn:Hrev; [|done].
    simpl in Hbody. injection Hbody as <-. simpl in *. split; simpl.
    + intros it. rewrite elem_of_app, list_elem_of_singleton, Hparts. split.
      * intros [(k & p & n & Hin & Hm & ->)| ->].
        -- exists k, p, n. split; [|done]. apply elem_of_app. by left.
        -- exists key, part, newId. split; [|done]. apply elem_of_app. right. by left.
      * intros (k & p & n & [Hin|Hin%list_elem_of_singleton]%elem_of_app & Hm & ->).
        -- left. by exists k, p, n.
        -- right. injection Hin as -> ->. destruct Hm as [_ Hm].
           rewrite Hrev in Hm. by injection Hm as ->.
    + intros old n.
      assert (Hnew : ∀ m : gmap string string,
                (match partOldToNewMap !! valueOrEmpty part "id" with
                 | Some _ => partOldToNewMap
                 | None => <[valueOrEmpty part "id" := newId]> partOldToNewMap
                 end) !! old = Some n ↔
                partOldToNewMap !! old = Some n ∨
                (old = valueOrEmpty part "id" ∧ n = newId ∧
                 partOldToNewMap !! old = None)).
      { intros _. destruct (partOldToNewMap !! valueOrEmpty part "id") as [n0|] eqn:Hold.
        - split; [by left|]. intros [?|(-> & _ & Hnone)]; [done|]. by rewrite Hnone in Hold.
        - rewrite lookup_insert_Some. split.
          + intros [[<- <-]|[? ?]]; [right|left]; done.
          + intros [Hsome|(-> & -> & _)]; [|by left]. right. split; [|done].
            intros <-. by rewrite Hold in Hsome. }
      rewrite (Hnew ∅). rewrite Hmap. split.
      * intros [[(k & p & Hin & Hxp & Hid) Hr]|(-> & -> & Hnone)].
        -- split; [|done]. exists k, p. split; [|done]. apply elem_of_app. by left.
        -- split; [|done]. exists key, part. split; [|done]. apply elem_of_app. right. by left.
      * intros [(k & p & [Hin|Hin%list_elem_of_singleton]%elem_of_app & Hxp & Hid) Hr].
        -- left. split; [|done]. by exists k, p.
        -- injection Hin as -> ->. subst old.
           destruct (partOldToNewMap !! valueOrEmpty part "id") as [n0|] eqn:Hold.
           ++ left. apply Hmap in Hold as Hold'. destruct Hold' as [Hex Hr0].
              split; [done|]. done.
           ++ right. rewrite Hrev in Hr. by injection Hr as ->.
  - rewrite mirrorPart_skipped in Hbody by done. injection Hbody as <-. split; simpl.
    + intros it. rewrite Hparts. split.
      * intros (k & p & n & Hin & Hm & ->). exists k, p, n. split; [|done].
        apply elem_of_app. by left.
      * intros (k & p & n & [Hin|Hin%list_elem_of_singleton]%elem_of_app & Hm & ->).
        -- by exists k, p, n.
        -- injection Hin as -> ->. destruct Hm as [Hm _]. by rewrite Hx in Hm.
    + intros old n. rewrite Hmap. split.
      * intros [(k & p & Hin & Hxp & Hid) Hr]. split; [|done]. exists k, p.
        split; [|done]. apply elem_of_app. by left.
      * intros [(k & p & [Hin|Hin%list_elem_of_singleton]%elem_of_app & Hxp & Hid) Hr].
        -- split; [|done]. by exists k, p.
        -- injection Hin as -> ->. by rewrite Hx in Hxp.
Qed.

Lemma markMirroredBy_lookup (l : list (string * string)) parts k :
  (∀ it, it ∈ l → it.2 ≠ k) →
  fold_left markMirroredBy l parts !! k = parts !! k.
Proof.
  revert parts. induction l as [|it l IH]; intros parts Hl; simpl; [done|].
  rewrite IH by (intros ? ?; apply Hl; by right).
  unfold markMirroredBy. apply lookup_insert_ne. apply Hl. by left.
Qed.

Lemma addPart_lookup (newParts : list Attributes) parts k :
  (∃ it, it ∈ newParts ∧ valueOrEmpty it "id" = k ∧
         fold_left addPart newParts parts !! k = Some it) ∨
  ((∀ it, it ∈ newParts → valueOrEmpty it "id" ≠ k) ∧
   fold_left addPart newParts parts !! k = parts !! k).
Proof.
  induction newParts as [|it newParts IH] using rev_ind.
  - right. split; [|done]. by intros ? ?%elem_of_nil.
  - rewrite fold_left_app. simpl. unfold addPart at 1 3.
    destruct (decide (valueOrEmpty it "id" = k)) as [Hk|Hk].
    + left. exists it. rewrite <- Hk, lookup_insert_eq. split; [|done].
      apply elem_of_app. right. by left.
    + rewrite lookup_insert_ne by done.
      destruct IH as [(it' & Hin & Hid & Hlook)|[Hall Hlook]].
      * left. exists it'. split; [|done]. apply elem_of_app. by left.
      * right. split; [|done].
        intros it' [Hin|Hin%list_elem_of_singleton]%elem_of_app; [by apply Hall|by subst].
Qed.

Lemma mirroredPartOf_id part newId : valueOrEmpty (mirroredPartOf part newId) "id" = newId.
Proof.
  unfold valueOrEmpty, mirroredPartOf.
  by rewrite lookup_insert_ne, lookup_insert_eq.
Qed.

(** *** The components *)

Lemma recordParents_known components parent children parentMap :
  parent = "" ∨ is_Some (components !! parent) →
  parentsKnown components parentMap →
  parentsKnown components (recordParents String_split parent children parentMap).
Proof.
  intros Hparent. unfold recordParents.
  generalize (String_split children ","%char). intros l. revert parentMap.
  induction l as [|childId l IH]; intros parentMap Hknown; simpl; [done|].
  apply IH. unfold recordParent. destruct (decide (childId = "")); [done|].
  intros child p [[_ <-]|[_ ?]]%lookup_insert_Some; [done|by apply (Hknown child)].
Qed.

Lemma buildParentMap_known components rootComponent :
  parentsKnown components (buildParentMap String_split components rootComponent).
Proof.
  unfold buildParentMap. apply recordParents_known; [by left|].
  apply (fold_left_inv _ (fun _ parentMap => parentsKnown components parentMap)).
  - intros child parent. by rewrite lookup_empty.
  - intros _ [key component] parentMap Hin%elem_of_entries Hknown. simpl.
    apply recordParents_known; [|done]. right. by exists component.
Qed.

Lemma subscript_known components parentMap key :
  parentsKnown components parentMap →
  ((subscript parentMap key).1 = "" ∨
   is_Some (components !! (subscript parentMap key).1)) ∧
  parentsKnown components (subscript parentMap key).2.
Proof.
  intros Hknown. unfold subscript. destruct (parentMap !! key) as [parent|] eqn:Hkey; simpl.
  - split; [by apply (Hknown key)|done].
  - split; [by left|].
    intros child p [[_ <-]|[_ ?]]%lookup_insert_Some; [by left|by apply (Hknown child)].
Qed.

Lemma mirrorComponent_skipped partOldToNewMap acc key component :
  valueOrEmpty component "linkDataType" ≠ "partId" ∨
  partOldToNewMap !! valueOrEmpty component "linkData" = None →
  mirrorComponent Uuid_to_string partOldToNewMap acc (key, component) = Some acc.
Proof.
  intros Hskip. destruct acc. unfold mirrorComponent. simpl.
  destruct (decide ("partId" ≠ valueOrEmpty component "linkDataType")) as [|Htype]; [done|].
  destruct Hskip as [Hne| ->]; [|done]. destruct Htype. congruence.
Qed.

Lemma mirrorComponent_mirrored partOldToNewMap newComponents parentMap key component
  newPartId :
  valueOrEmpty component "linkDataType" = "partId" →
  partOldToNewMap !! valueOrEmpty component "linkData" = Some newPartId →
  mirrorComponent Uuid_to_string partOldToNewMap (newComponents, parentMap) (key, component)
  = newId ← reverse (valueOrEmpty component "id");
    Some (newComponents ++ [mirroredComponentOf component newPartId newId],
          <[newId := (subscript parentMap (valueOrEmpty component "id")).1]>
            (subscript parentMap (valueOrEmpty component "id")).2).
Proof.
  intros Htype Hlink. unfold mirrorComponent. simpl. rewrite Htype, Hlink.
  rewrite decide_False by (by intros []).
  destruct (subscript component "id") as [id mirroredComponent] eqn:Hsub.
  assert (id = valueOrEmpty component "id") as ->.
  { by rewrite <- subscript_value, Hsub. }
  destruct (reverse (valueOrEmpty component "id")) as [newId|]; simpl; [|done].
  destruct (subscript parentMap _) as [parent parentMap']. simpl.
  do 3 f_equal. unfold mirroredComponentOf. f_equal.
  assert (mirroredComponent = (subscript component "id").2) as -> by (by rewrite Hsub).
  rewrite (insert_insert_ne _ "id" "linkData") by done.
  rewrite subscript_insert. by rewrite (insert_insert_ne _ "linkData" "id").
Qed.

Lemma mirrorComponent_collected components partOldToNewMap l parentMap acc :
  parentsKnown components parentMap →
  forEach (mirrorComponent Uuid_to_string partOldToNewMap) l ([], parentMap) = Some acc →
  componentsCollected components partOldToNewMap l acc.
Proof.
  intros Hknown.
  apply (forEach_inv _ (componentsCollected components partOldToNewMap)).
  { split; simpl; [|done].
    intros it. split; [by intros ?%elem_of_nil|].
    by intros (? & ? & ? & ? & ?%elem_of_nil & _). }
  intros visited [key component] [newComponents parentMap0] acc' _ [Hcomps Hpm] Hbody.
  simpl in Hcomps, Hpm.
  destruct (decide (valueOrEmpty component "linkDataType" = "partId")) as [Htype|Htype];
    [destruct (partOldToNewMap !! valueOrEmpty component "linkData") as [newPartId|]
       eqn:Hlink|].
  - rewrite (mirrorComponent_mirrored _ _ _ _ _ newPartId) in Hbody by done.
    destruct (reverse (valueOrEmpty component "id")) as [newId|] eqn:Hrev; [|done].
    simpl in Hbody. injection Hbody as <-. split; simpl.
    + intros it. rewrite elem_of_app, list_elem_of_singleton, Hcomps. split.
      * intros [(k & c & np & n & Hin & ?)| ->].
        -- exists k, c, np, n. split; [|done]. apply elem_of_app. by left.
        -- exists key, component, newPartId, newId. split; [|done].
           apply elem_of_app. right. by left.
      * intros (k & c & np & n & [Hin|Hin%list_elem_of_singleton]%elem_of_app
                & Ht & Hl & Hr & ->).
        -- left. by exists k, c, np, n.
        -- right. injection Hin as -> ->. rewrite Hlink in Hl. rewrite Hrev in Hr.
           injection Hl as ->. by injection Hr as ->.
    + destruct (subscript_known components parentMap0 (valueOrEmpty component "id") Hpm)
        as [Hparent Hpm'].
      intros child p [[_ <-]|[_ ?]]%lookup_insert_Some; [done|by apply (Hpm' child)].
  - rewrite mirrorComponent_skipped in Hbody by (by right). injection Hbody as <-.
    split; simpl; [|done]. intros it. rewrite Hcomps. split.
    + intros (k & c & np & n & Hin & ?). exists k, c, np, n. split; [|done].
      apply elem_of_app. by left.
    + intros (k & c & np & n & [Hin|Hin%list_elem_of_singleton]%elem_of_app
              & Ht & Hl & Hr & ->).
      * by exists k, c, np, n.
      * injection Hin as -> ->. by rewrite Hlink in Hl.
  - rewrite mirrorComponent_skipped in Hbody by (by left). injection Hbody as <-.
    split; simpl; [|done]. intros it. rewrite Hcomps. split.
    + intros (k & c & np & n & Hin & ?). exists k, c, np, n. split; [|done].
      apply elem_of_app. by left.
    + intros (k & c & np & n & [Hin|Hin%list_elem_of_singleton]%elem_of_app
              & Ht & Hl & Hr & ->).
      * by exists k, c, np, n.
      * injection Hin as -> ->. done.
Qed.

Lemma sameButChildren_appendChild attributes idString :
  sameButChildren (appendChild attributes idString) attributes.
Proof. intros key Hkey. unfold appendChild. by rewrite lookup_insert_ne. Qed.

Lemma componentsAdded_is_Some components rootComponent visited st k :
  componentsAdded components rootComponent visited st →
  is_Some (components !! k) → is_Some (st.1.2 !! k).
Proof.
  intros (_ & Hcomps & _) [c Hc].
  destruct (Hcomps k) as [(it & c' & _ & _ & -> & _)|[_ Hrel]]; [done|].
  rewrite Hc in Hrel. inversion Hrel. done.
Qed.

Lemma addComponent_added components rootComponent newComponents parentMap :
  parentsKnown components parentMap →
  componentsAdded components rootComponent newComponents
    (fold_left addComponent newComponents (parentMap, components, rootComponent)).
Proof.
  intros Hknown.
  apply (fold_left_inv _ (componentsAdded components rootComponent)).
  { split; [done|]. split; [|done]. intros k. right. split; [by intros ? ?%elem_of_nil|].
    simpl. destruct (components !! k); by constructor. }
  intros visited it [[parentMap0 comps] root] _ Hinv.
  pose proof Hinv as (Hpm & Hcomps & Hroot). simpl in Hpm, Hcomps, Hroot.
  destruct (subscript_known components parentMap0 (valueOrEmpty it "id") Hpm)
    as [Hparent Hpm'].
  assert (Hlater : ∀ k, k ≠ valueOrEmpty it "id" →
            (∃ it0 c', it0 ∈ visited ++ [it] ∧ valueOrEmpty it0 "id" = k ∧
                       comps !! k = Some c' ∧ sameButChildren c' it0) ∨
            ((∀ it0, it0 ∈ visited ++ [it] → valueOrEmpty it0 "id" ≠ k) ∧
             option_Forall2 sameButChildren (comps !! k) (components !! k))).
  { intros k Hk. destruct (Hcomps k) as [(it0 & c' & Hin & ?)|[Hall Hrel]].
    - left. exists it0, c'. split; [|done]. apply elem_of_app. by left.
    - right. split; [|done].
      intros it0 [?| ->%list_elem_of_singleton]%elem_of_app; [by apply Hall|done]. }
  assert (Hnow : ∀ comps' : gmap string Attributes,
            (∀ k, k ≠ (subscript parentMap0 (valueOrEmpty it "id")).1 ∨
                  (subscript parentMap0 (valueOrEmpty it "id")).1 = "" →
                  comps' !! k = <[valueOrEmpty it "id" := it]> comps !! k) →
            (∀ k c, k = (subscript parentMap0 (valueOrEmpty it "id")).1 → k ≠ "" →
                  <[valueOrEmpty it "id" := it]> comps !! k = Some c →
                  ∃ c', comps' !! k = Some c' ∧ sameButChildren c' c) →
            ∀ k,
              (∃ it0 c', it0 ∈ visited ++ [it] ∧ valueOrEmpty it0 "id" = k ∧
                         comps' !! k = Some c' ∧ sameButChildren c' it0) ∨
              ((∀ it0, it0 ∈ visited ++ [it] → valueOrEmpty it0 "id" ≠ k) ∧
               option_Forall2 sameButChildren (comps' !! k) (components !! k))).
  { intros comps' Hother Hparent' k.
    assert (Hbase :
              (∃ it0 c', it0 ∈ visited ++ [it] ∧ valueOrEmpty it0 "id" = k ∧
                         <[valueOrEmpty it "id" := it]> comps !! k = Some c' ∧
                         sameButChildren c' it0) ∨
              ((∀ it0, it0 ∈ visited ++ [it] → valueOrEmpty it0 "id" ≠ k) ∧
               option_Forall2 sameButChildren
                 (<[valueOrEmpty it "id" := it]> comps !! k) (components !! k))).
    { destruct (decide (k = valueOrEmpty it "id")) as [->|Hk].
      - left. exists it, it. rewrite lookup_insert_eq. split; [|done].
        apply elem_of_app. right. by left.
      - rewrite lookup_insert_ne by done. by apply Hlater. }
    destruct (decide (k = (subscript parentMap0 (valueOrEmpty it "id")).1 ∧ k ≠ ""))
      as [[Hk Hne]|Hk].
    - destruct Hbase as [(it0 & c & Hin & Hid & Hc & Hsame)|[Hall Hrel]].
      + destruct (Hparent' k c Hk Hne Hc) as (c' & Hc' & Hsame').
        left. exists it0, c'. split; [done|]. split; [done|]. split; [done|].
        intros key Hkey. by rewrite Hsame', Hsame.
      + right. split; [done|].
        destruct (<[valueOrEmpty it "id" := it]> comps !! k) as [c|] eqn:Hc.
        * destruct (Hparent' k c Hk Hne Hc) as (c' & -> & Hsame').
          inversion Hrel as [? c0 Hsame|]; subst. constructor.
          intros key Hkey. by rewrite Hsame', Hsame.
        * exfalso. destruct Hparent as [Hempty|Hsome]; [by rewrite <- Hk in Hempty|].
          rewrite <- Hk in Hsome.
          apply (componentsAdded_is_Some _ _ _ _ k Hinv) in Hsome. simpl in Hsome.
          assert (is_Some (<[valueOrEmpty it "id" := it]> comps !! k)) as [? Hs].
          { apply lookup_insert_is_Some'. by right. }
          by rewrite Hs in Hc.
    - rewrite Hother; [done|].
      destruct (decide (k = (subscript parentMap0 (valueOrEmpty it "id")).1)) as [->|?];
        [|by left].
      right. apply dec_stable. intros Hne. apply Hk. done. }
  unfold addComponent.
  destruct (subscript parentMap0 (valueOrEmpty it "id")) as [parentIdString parentMap']
    eqn:Hsub.
  simpl in Hparent, Hpm', Hnow.
  destruct (decide (parentIdString = "")) as [->|Hne].
  - split; [done|]. split; simpl.
    + apply Hnow; [done|]. by intros k c -> [].
    + intros key Hkey. rewrite sameButChildren_appendChild by done. by apply Hroot.
  - split; [done|]. split; simpl; [|done].
    apply Hnow.
    + intros k [Hk|Hk]; [|done]. by rewrite lookup_insert_ne.
    + intros k c -> _ Hc. rewrite lookup_insert_eq, Hc. simpl.
      eexists. split; [done|]. apply sameButChildren_appendChild.
Qed.

(** *** The whole function *)

Local Abbreviation run := (preprocessMirror String_isTrue String_split Uuid_to_string).

Lemma preprocessMirror_inv m_snapshot snapshot' :
  run m_snapshot = Some snapshot' →
  ∃ newParts partOldToNewMap newComponents parentMap parentMap',
    forEach (mirrorPart String_isTrue Uuid_to_string) (entries (parts m_snapshot)) ([], ∅)
      = Some (newParts, partOldToNewMap) ∧
    forEach (mirrorComponent Uuid_to_string partOldToNewMap)
      (entries (components m_snapshot))
      ([], buildParentMap String_split (components m_snapshot) (rootComponent m_snapshot))
      = Some (newComponents, parentMap) ∧
    parts snapshot'
      = fold_left addPart newParts
          (fold_left markMirroredBy (entries partOldToNewMap) (parts m_snapshot)) ∧
    fold_left addComponent newComponents
      (parentMap, components m_snapshot, rootComponent m_snapshot)
      = (parentMap', components snapshot', rootComponent snapshot') ∧
    canvas snapshot' = canvas m_snapshot ∧
    nodes snapshot' = nodes m_snapshot ∧
    edges snapshot' = edges m_snapshot.
Proof.
  unfold preprocessMirror.
  destruct (forEach (mirrorPart _ _) _ _) as [[newParts partOldToNewMap]|] eqn:Hparts;
    [|done].
  simpl.
  destruct (forEach (mirrorComponent _ _) _ _) as [[newComponents parentMap]|] eqn:Hcomps;
    [|done].
  simpl.
  destruct (fold_left addComponent _ _) as [[parentMap' comps] root] eqn:Hfold.
  intros [= <-]. simpl.
  by exists newParts, partOldToNewMap, newComponents, parentMap, parentMap'.
Qed.

Lemma preprocessMirror_is_Some m_snapshot :
  (∀ s, String.length (Uuid_to_string s) = 38) →
  is_Some (run m_snapshot).
Proof.
  intros Hlen. unfold preprocessMirror.
  destruct (forEach_is_Some (mirrorPart String_isTrue Uuid_to_string)
              (entries (parts m_snapshot)) ([], ∅)) as [[newParts partOldToNewMap] ->].
  { intros [newParts partOldToNewMap] [key part] _.
    destruct (String_isTrue (valueOrEmpty part "xMirrored")) eqn:Hx.
    - rewrite mirrorPart_mirrored by done.
      destruct (reverseUuid_is_Some Uuid_to_string (valueOrEmpty part "id")) as [? ->];
        done.
    - by rewrite mirrorPart_skipped. }
  simpl.
  destruct (forEach_is_Some (mirrorComponent Uuid_to_string partOldToNewMap)
              (entries (components m_snapshot))
              ([], buildParentMap String_split (components m_snapshot)
                     (rootComponent m_snapshot))) as [[newComponents parentMap] ->].
  { intros [newComponents parentMap] [key component] _.
    destruct (decide (valueOrEmpty component "linkDataType" = "partId")) as [Htype|Htype];
      [destruct (partOldToNewMap !! valueOrEmpty component "linkData") as [newPartId|]
         eqn:Hlink|].
    - rewrite (mirrorComponent_mirrored _ _ _ _ _ newPartId) by done.
      destruct (reverseUuid_is_Some Uuid_to_string (valueOrEmpty component "id"))
        as [? ->]; done.
    - rewrite mirrorComponent_skipped; [done|by right].
    - rewrite mirrorComponent_skipped; [done|by left]. }
  simpl. by destruct (fold_left addComponent _ _) as [[? ?] ?].
Qed.

Lemma preprocessMirror_parts_inv m_snapshot snapshot' k :
  run m_snapshot = Some snapshot' →
  (∃ key part, parts m_snapshot !! key = Some part ∧ mirrors part k ∧
               parts snapshot' !! k = Some (mirroredPartOf part k)) ∨
  ((∀ key part, parts m_snapshot !! key = Some part → ¬ mirrors part k) ∧
   parts snapshot' !! k = parts m_snapshot !! k).
Proof.
  intros (newParts & partOldToNewMap & _ & _ & _ & Hloop & _ & -> & _)%preprocessMirror_inv.
  apply mirrorPart_collected in Hloop as [Hparts Hmap]. simpl in Hparts, Hmap.
  destruct (addPart_lookup newParts
              (fold_left markMirroredBy (entries partOldToNewMap) (parts m_snapshot)) k)
    as [(it & Hin & Hid & ->)|[Hall ->]].
  - left. apply Hparts in Hin as (key & part & newId & Hin%elem_of_entries & Hm & ->).
    rewrite mirroredPartOf_id in Hid. subst newId. by exists key, part.
  - assert (Hnone : ∀ key part, parts m_snapshot !! key = Some part → ¬ mirrors part k).
    { intros key part Hpart Hm. apply (Hall (mirroredPartOf part k)).
      - apply Hparts. exists key, part, k. by rewrite elem_of_entries.
      - apply mirroredPartOf_id. }
    right. split; [done|]. apply markMirroredBy_lookup.
    intros [old newId] Hin%elem_of_entries. simpl. intros ->.
    apply Hmap in Hin as [(key & part & Hin%elem_of_entries & Hx & <-) Hrev].
    by apply (Hnone key part).
Qed.

Lemma isMirroredPartId_collected m_snapshot acc old newId :
  partsCollected (entries (parts m_snapshot)) acc →
  acc.2 !! old = Some newId ↔
  isMirroredPartId String_isTrue m_snapshot old ∧ reverse old = Some newId.
Proof.
  intros [_ Hmap]. rewrite Hmap. unfold isMirroredPartId.
  split; intros [(key & part & Hin & ?) ?]; (split; [|done]); exists key, part;
    (split; [|done]); by apply elem_of_entries.
Qed.

Lemma mirroredComponentOf_id component newPartId newId :
  valueOrEmpty (mirroredComponentOf component newPartId newId) "id" = newId.
Proof.
  unfold valueOrEmpty, mirroredComponentOf.
  by rewrite lookup_insert_ne, lookup_insert_eq.
Qed.

Lemma preprocessMirror_components_inv m_snapshot snapshot' k :
  run m_snapshot = Some snapshot' →
  (∃ key component newPartId c',
     components m_snapshot !! key = Some component ∧
     componentMirrorsTo String_isTrue Uuid_to_string m_snapshot component newPartId k ∧
     components snapshot' !! k = Some c' ∧
     sameButChildren c' (mirroredComponentOf component newPartId k)) ∨
  ((∀ key component newPartId,
      components m_snapshot !! key = Some component →
      ¬ componentMirrorsTo String_isTrue Uuid_to_string m_snapshot component newPartId k) ∧
   option_Forall2 sameButChildren (components snapshot' !! k) (components m_snapshot !! k)).
Proof.
  intros (newParts & partOldToNewMap & newComponents & parentMap & parentMap' & Hparts
          & Hloop & _ & Hfold & _)%preprocessMirror_inv.
  apply mirrorPart_collected in Hparts.
  apply (mirrorComponent_collected (components m_snapshot)) in Hloop as [Hcomps Hknown];
    [|apply buildParentMap_known].
  simpl in Hcomps, Hknown.
  pose proof (addComponent_added (components m_snapshot) (rootComponent m_snapshot)
                newComponents parentMap Hknown) as (_ & Hadded & _).
  rewrite Hfold in Hadded. simpl in Hadded.
  destruct (Hadded k) as [(it & c' & Hin & Hid & Hc' & Hsame)|[Hall Hrel]].
  - left. apply Hcomps in Hin
      as (key & component & newPartId & newId & Hin%elem_of_entries & Htype & Hlink
          & Hrev & ->).
    rewrite mirroredComponentOf_id in Hid. subst newId.
    apply (isMirroredPartId_collected m_snapshot _ _ _ Hparts) in Hlink as [Hmirrored Hnew].
    by exists key, component, newPartId, c'.
  - right. split; [|done]. intros key component newPartId Hc (Htype & Hmirrored & Hnew & Hrev).
    apply (Hall (mirroredComponentOf component newPartId k)).
    + apply Hcomps. exists key, component, newPartId, k. rewrite elem_of_entries.
      split; [done|]. split; [done|]. split; [|done].
      by apply (isMirroredPartId_collected m_snapshot _ _ _ Hparts).
    + apply mirroredComponentOf_id.
Qed.

(** A snapshot none of whose parts is x-mirrored comes out of
    [preprocessMirror] exactly as it went in; [reverseUuid] is not
    called, so nothing can throw. *)
Theorem preprocessMirror_nothing_mirrored (m_snapshot : Snapshot) :
  (∀ key part, parts m_snapshot !! key = Some part →
               String_isTrue (valueOrEmpty part "xMirrored") = false) →
  run m_snapshot = Some m_snapshot.
Proof.
  intros Hnone. unfold preprocessMirror.
  rewrite forEach_idle.
  2: { intros [key part] Hin%elem_of_entries. apply mirrorPart_skipped.
       by apply (Hnone key). }
  simpl. rewrite forEach_idle.
  2: { intros [key component] _. apply mirrorComponent_skipped. right.
       apply lookup_empty. }
  simpl. rewrite entries_empty. simpl. by destruct m_snapshot.
Qed.

(** When [Uuid] prints every id in the canonical 38 characters,
    [preprocessMirror] returns, and the parts it leaves are these: under
    the reversed id of an x-mirrored part, a copy of such a part with
    [__mirrorFromPartId] set to the id of the part, [id] to the reversed
    id and [__dirty] to ["true"] (replacing what was stored under that
    key, the part itself when its id reads the same in both
    directions); under every other key, what was there before. *)
Theorem preprocessMirror_parts (m_snapshot : Snapshot) :
  (∀ s, String.length (Uuid_to_string s) = 38) →
  ∃ snapshot',
    run m_snapshot = Some snapshot' ∧
    ∀ k,
      (∃ key part, parts m_snapshot !! key = Some part ∧ mirrors part k ∧
                   parts snapshot' !! k = Some (mirroredPartOf part k)) ∨
      ((∀ key part, parts m_snapshot !! key = Some part → ¬ mirrors part k) ∧
       parts snapshot' !! k = parts m_snapshot !! k).
Proof.
  intros Hlen. destruct (preprocessMirror_is_Some m_snapshot Hlen) as [snapshot' Hrun].
  exists snapshot'. split; [done|]. intros k. by apply preprocessMirror_parts_inv.
Qed.

(** The attribute [__mirroredByPartId] that the second loop writes does
    not survive: the entry it is written to is replaced as a whole by
    the mirrored part in the loop over [newParts].  When [Uuid] prints
    every id in the canonical 38 characters, a part of the result has
    the attribute only with a value that a part of the snapshot already
    had. *)
Theorem preprocessMirror_mirroredBy_lost (m_snapshot : Snapshot) :
  (∀ s, String.length (Uuid_to_string s) = 38) →
  ∃ snapshot',
    run m_snapshot = Some snapshot' ∧
    ∀ k part' value,
      parts snapshot' !! k = Some part' →
      part' !! "__mirroredByPartId" = Some value →
      ∃ key part, parts m_snapshot !! key = Some part ∧
                  part !! "__mirroredByPartId" = Some value.
Proof.
  intros Hlen. destruct (preprocessMirror_is_Some m_snapshot Hlen) as [snapshot' Hrun].
  exists snapshot'. split; [done|]. intros k part' value Hk Hvalue.
  destruct (preprocessMirror_parts_inv m_snapshot snapshot' k Hrun)
    as [(key & part & Hpart & _ & Hk')|[_ Hk']].
  - exists key, part. split; [done|]. rewrite Hk' in Hk. injection Hk as <-.
    unfold mirroredPartOf in Hvalue. by rewrite !lookup_insert_ne in Hvalue.
  - exists k, part'. split; [|done]. by rewrite <- Hk'.
Qed.

(** When [Uuid] prints every id in the canonical 38 characters,
    [preprocessMirror] returns, leaves canvas, nodes and edges alone and
    changes at most [children] in the root component.  The components
    it leaves are, [children] apart, these: under the reversed id of a
    component that links to an x-mirrored part, a copy of such a
    component with [linkData] set to the reversed id of the part, [id]
    to the reversed id of the component and [__dirty] to ["true"]; under
    every other key, what was there before, and nothing where there was
    nothing. *)
Theorem preprocessMirror_components (m_snapshot : Snapshot) :
  (∀ s, String.length (Uuid_to_string s) = 38) →
  ∃ snapshot',
    run m_snapshot = Some snapshot' ∧
    canvas snapshot' = canvas m_snapshot ∧
    nodes snapshot' = nodes m_snapshot ∧
    edges snapshot' = edges m_snapshot ∧
    sameButChildren (rootComponent snapshot') (rootComponent m_snapshot) ∧
    ∀ k,
      (∃ key component newPartId c',
         components m_snapshot !! key = Some component ∧
         componentMirrorsTo String_isTrue Uuid_to_string m_snapshot component newPartId k ∧
         components snapshot' !! k = Some c' ∧
         sameButChildren c' (mirroredComponentOf component newPartId k)) ∨
      ((∀ key component newPartId,
          components m_snapshot !! key = Some component →
          ¬ componentMirrorsTo String_isTrue Uuid_to_string m_snapshot component
              newPartId k) ∧
       option_Forall2 sameButChildren
         (components snapshot' !! k) (components m_snapshot !! k)).
Proof.
  intros Hlen. destruct (preprocessMirror_is_Some m_snapshot Hlen) as [snapshot' Hrun].
  exists snapshot'. split; [done|].
  pose proof Hrun as (newParts & partOldToNewMap & newComponents & parentMap & parentMap'
                      & _ & Hloop & _ & Hfold & Hcanvas & Hnodes & Hedges)%preprocessMirror_inv.
  do 3 (split; [done|]). split.
  - apply (mirrorComponent_collected (components m_snapshot)) in Hloop as [_ Hknown];
      [|apply buildParentMap_known].
    pose proof (addComponent_added (components m_snapshot) (rootComponent m_snapshot)
                  newComponents parentMap Hknown) as (_ & _ & Hroot).
    by rewrite Hfold in Hroot.
  - intros k. by apply preprocessMirror_components_inv.
Qed.

End Proofs.

Lemma Uuid_to_string_model_length s : String.length (Uuid_to_string_model s) = 38.
Proof.
  unfold Uuid_to_string_model. destruct (isUuidString isLowerHexDigit s) eqn:Hwf; [|done].
  unfold isUuidString in Hwf. apply andb_true_iff in Hwf as [Hlen _].
  by apply Nat.eqb_eq in Hlen.
Qed.

(** The arm is mirrored: its mirror and the copy of its component are
    stored under the reversed ids, the copy is announced to the root,
    and the mirror carries no [__mirroredByPartId]. *)
Example preprocessMirror_example :
  (snapshot' ← preprocessMirror isTrueModel splitModel Uuid_to_string_model mirrorSnapshot;
   Some (valueOrEmpty (rootComponent snapshot') "children",
         size (parts snapshot'), size (components snapshot'),
         parts snapshot' !! "{fedcba98-7654-3210-fedc-ba9876543210}"
           ≫= (fun part => part !! "__mirrorFromPartId"),
         parts snapshot' !! "{fedcba98-7654-3210-fedc-ba9876543210}"
           ≫= (fun part => part !! "__mirroredByPartId"),
         components snapshot' !! "{eeeeeeee-eeee-dddd-cccc-bbbbaaaaaaaa}"
           ≫= (fun component => component !! "linkData")))
  = Some ("{aaaaaaaa-bbbb-cccc-dddd-eeeeeeeeeeee},{eeeeeeee-eeee-dddd-cccc-bbbbaaaaaaaa}",
          3, 2, Some armPartId, None, Some "{fedcba98-7654-3210-fedc-ba9876543210}").
Proof. vm_compute. reflexivity. Qed.

Lemma preprocessMirror_nothing_mirrored_witness :
  preprocessMirror isTrueModel splitModel Uuid_to_string_model plainSnapshot
  = Some plainSnapshot.
Proof.
  apply (preprocessMirror_nothing_mirrored isTrueModel splitModel Uuid_to_string_model
           plainSnapshot).
  intros key part Hpart. simpl in Hpart.
  apply lookup_singleton_Some in Hpart as [_ <-]. reflexivity.
Defined.

Lemma preprocessMirror_parts_witness :
  ∃ snapshot',
    preprocessMirror isTrueModel splitModel Uuid_to_string_model mirrorSnapshot
      = Some snapshot' ∧
    parts snapshot' !! "{fedcba98-7654-3210-fedc-ba9876543210}"
      = Some (mirroredPartOf {[ "id" := armPartId; "xMirrored" := "true" ]}
                "{fedcba98-7654-3210-fedc-ba9876543210}").
Proof.
  destruct (preprocessMirror_parts isTrueModel splitModel Uuid_to_string_model
              mirrorSnapshot Uuid_to_string_model_length) as (snapshot' & Hrun & Hparts).
  exists snapshot'. split; [exact Hrun|].
  destruct (Hparts "{fedcba98-7654-3210-fedc-ba9876543210}")
    as [(key & part & Hpart & Hmirrors & Hk)|[Hnone _]].
  - rewrite Hk. f_equal. f_equal.
    simpl in Hpart.
    apply lookup_insert_Some in Hpart as [[_ <-]|[_ Hpart]]; [reflexivity|].
    apply lookup_singleton_Some in Hpart as [_ <-].
    destruct Hmirrors as [Hx _]. discriminate Hx.
  - exfalso. apply (Hnone armPartId {[ "id" := armPartId; "xMirrored" := "true" ]}).
    + apply lookup_insert_eq.
    + split; vm_compute; reflexivity.
Defined.

Lemma preprocessMirror_mirroredBy_lost_witness :
  ∃ snapshot',
    preprocessMirror isTrueModel splitModel Uuid_to_string_model mirrorSnapshot
      = Some snapshot' ∧
    ∀ k part', parts snapshot' !! k = Some part' → part' !! "__mirroredByPartId" = None.
Proof.
  destruct (preprocessMirror_mirroredBy_lost isTrueModel splitModel Uuid_to_string_model
              mirrorSnapshot Uuid_to_string_model_length) as (snapshot' & Hrun & Hlost).
  exists snapshot'. split; [exact Hrun|]. intros k part' Hk.
  destruct (part' !! "__mirroredByPartId") as [value|] eqn:Hvalue; [|reflexivity].
  destruct (Hlost k part' value Hk Hvalue) as (key & part & Hpart & Hattribute).
  simpl in Hpart.
  apply lookup_insert_Some in Hpart as [[_ <-]|[_ Hpart]]; [discriminate Hattribute|].
  apply lookup_singleton_Some in Hpart as [_ <-]. discriminate Hattribute.
Defined.

Lemma preprocessMirror_components_witness :
  ∃ snapshot',
    preprocessMirror isTrueModel splitModel Uuid_to_string_model mirrorSnapshot
      = Some snapshot' ∧
    nodes snapshot' = ∅ ∧
    sameButChildren (rootComponent snapshot') {[ "children" := armComponentId ]}.
Proof.
  destruct (preprocessMirror_components isTrueModel splitModel Uuid_to_string_model
              mirrorSnapshot Uuid_to_string_model_length)
    as (snapshot' & Hrun & _ & Hnodes & _ & Hroot & _).
  exists snapshot'. split; [exact Hrun|]. split; [exact Hnodes|exact Hroot].
Defined.

End MirrorPreprocessFacts.
